(** * Ribbon-extrusion sketches: chain generators, arc extraction, layered
      rendering and frame capture.

    The development embeds three p5.js sketches and the recorder they share:

    - [Walk]        the ribbon sketch with the greedy constrained walk,
    - [Pulse]       the same sketch with one travelling highlight,
    - [Perspective] the perspective sketch with the back-tracking search,
                    the viewport fitter, the void filler and several pulses,
    - [Capture]     capture.js, the PNG frame recorder.

    JavaScript numbers are idealised as real numbers: [cos], [sin], [sqrt]
    and the arithmetic are exact.  Every call of p5's [random] consumes one
    draw of an oracle [rnd : nat -> R] (the stream of unit draws); the index
    of the next draw is threaded through the code as state.

    A candidate that the walk places tangent to the tail of its chain is,
    here, at exactly the sum of the radii from it, where doubles may round
    the distance to either side.  The statements about the walk are about
    whichever chain results: none rests on such a candidate being accepted.

    [fillVoids] of the perspective sketch calls [fullyInsideViewport], a
    name that the sources at hand bind to nothing.  [Perspective.fillVoids]
    and [Perspective.setup] take it to be the function the spec describes.
    [Perspective.fillVoidsIn] and [Perspective.setupIn] take what the name
    is bound to as a parameter; at [Perspective.sources], where it is bound
    to nothing, reading it raises a [ReferenceError]. *)

From Stdlib Require Import Reals Lra Lia ZArith List Bool Psatz.
From Stdlib Require Strings.String Strings.Ascii DecimalString DecimalN.
From Stdlib Require OrderedTypeEx.
Import ListNotations.
Local Open Scope R_scope.

(* ================================================================== *)
(** * Definitions *)
(* ================================================================== *)

(** ** The p5.js runtime the sketches call *)
Module P5.

Definition Rltb (a b : R) : bool := if Rlt_dec a b then true else false.
Definition Rleb (a b : R) : bool := if Rle_dec a b then true else false.

Definition TWO_PI : R := 2 * PI.
Definition HALF_PI : R := PI / 2.

(** [floor] of a number, as an integer. *)
Definition floor (v : R) : Z := Int_part v.

(** Rounding towards zero, and the remainder [a % b] it induces. *)
Definition trunc (v : R) : Z :=
  if Rle_dec 0 v then Int_part v else (- Int_part (- v))%Z.

Definition jsrem (a b : R) : R := a - b * IZR (trunc (a / b)).

(** [dist(x1, y1, x2, y2)] *)
Definition dist (x1 y1 x2 y2 : R) : R :=
  sqrt ((x2 - x1) * (x2 - x1) + (y2 - y1) * (y2 - y1)).

(** [lerp(start, stop, amt)] *)
Definition lerp (start stop amt : R) : R := amt * (stop - start) + start.

(** [atan2(y, x)] *)
Definition atan2 (dy dx : R) : R :=
  if Rlt_dec 0 dx then atan (dy / dx)
  else if Rlt_dec dx 0 then
    (if Rle_dec 0 dy then atan (dy / dx) + PI else atan (dy / dx) - PI)
  else if Rlt_dec 0 dy then PI / 2
  else if Rlt_dec dy 0 then - (PI / 2)
  else 0.

(** Computations that draw random numbers: the state is the index of the
    next draw. *)
Definition Gen (A : Type) : Type := nat -> A * nat.

Definition ret {A : Type} (a : A) : Gen A := fun i => (a, i).

Definition bind {A B : Type} (m : Gen A) (k : A -> Gen B) : Gen B :=
  fun i => let (a, j) := m i in k a j.

Section Random.
Variable rnd : nat -> R.

(** [random(hi)] *)
Definition random1 (hi : R) : Gen R := fun i => (rnd i * hi, S i).

(** [random(lo, hi)]; p5 swaps the bounds when they come in the wrong
    order. *)
Definition random2 (lo hi : R) : Gen R :=
  fun i =>
    if Rlt_dec hi lo then (rnd i * (lo - hi) + hi, S i)
    else (rnd i * (hi - lo) + lo, S i).

End Random.

(** The stroke colours the sketches use. *)
Inductive Color : Type :=
| gray (v : R)
| grayAlpha (v alpha : R)
| rgba (cr cg cb ca : R).

(** The drawing calls a frame issues, in order.  An angle is [None] when
    the script passes [undefined] or [NaN]. *)
Inductive Cmd : Type :=
| background (v : R)
| noFill
| push
| pop
| translate (tx ty : R)
| scale (s : R)
| stroke (c : Color)
| strokeWeight (w : R)
| arc (ax ay aw ah : R) (start stop : option R).

(** What a call comes to: it returns a value, or it raises a
    [ReferenceError] on reading a name that nothing binds. *)
Inductive Outcome (A : Type) : Type :=
| Returned (a : A)
| ReferenceError.

Arguments Returned {A} a.
Arguments ReferenceError {A}.

End P5.

Import P5.

Declare Scope gen_scope.
Delimit Scope gen_scope with gen.
Notation "v <- m ;; k" := (bind m (fun v => k))
  (at level 61, m at next level, right associativity) : gen_scope.

(** ** Data shared by the three sketches *)
Module Ribbon.

(** A circle of the chain; [edge] is set on the seed only. *)
Record Circle : Type := mkCircle {
  x : R;
  y : R;
  radius : R;
  edge : option Z
}.

(** One outline segment.  [a1] is [None] when the look-up of the edge
    angle yields [undefined]. *)
Record ArcSeg : Type := mkArc {
  cx : R;
  cy : R;
  r : R;
  a1 : option R;
  a2 : R;
  cw : bool
}.

Definition CANVAS_W : R := 1080.
Definition CANVAS_H : R := 1080.
Definition MIN_R : R := 50.
Definition MAX_R : R := 200.
Definition LAYERS : Z := 220.

(** [[ -HALF_PI, 0, HALF_PI, PI ][edge]] *)
Definition edgeAngle (e : option Z) : option R :=
  match e with
  | Some 0%Z => Some (- HALF_PI)
  | Some 1%Z => Some 0
  | Some 2%Z => Some HALF_PI
  | Some 3%Z => Some PI
  | _ => None
  end.

(** The loop [for (i = 1; i < circles.length - 1; i++)] of [buildArcList]:
    [prev], [cur], [nxt] are [circles[i-1]], [circles[i]], [circles[i+1]]. *)
Fixpoint chainArcs (i : Z) (prev : Circle) (rest : list Circle) : list ArcSeg :=
  match rest with
  | cur :: ((nxt :: _) as tl) =>
      mkArc (x cur) (y cur) (radius cur)
            (Some (atan2 (y cur - y prev) (x cur - x prev) + PI))
            (atan2 (y nxt - y cur) (x nxt - x cur))
            (Z.rem i 2 =? 0)%Z
      :: chainArcs (i + 1) cur tl
  | _ => []
  end.

(** [buildArcList]: the arcs start empty; chains shorter than two circles
    leave them so. *)
Definition buildArcList (circles : list Circle) : list ArcSeg :=
  match circles with
  | c0 :: ((c1 :: _) as tl) =>
      mkArc (x c0) (y c0) (radius c0)
            (edgeAngle (edge c0))
            (atan2 (y c1 - y c0) (x c1 - x c0))
            true
      :: chainArcs 1 c0 tl
  | _ => []
  end.

(** [(a % TWO_PI + TWO_PI) % TWO_PI] *)
Definition wrapAngle (a : R) : R := jsrem (jsrem a TWO_PI + TWO_PI) TWO_PI.

(** The angle part of [drawArcSegment]: the pair of angles handed to [arc].
    A comparison with [NaN] is false. *)
Definition arcAngles (s : ArcSeg) : option R * option R :=
  let w2 := wrapAngle (a2 s) in
  match a1 s with
  | Some v1 =>
      let w1 := wrapAngle v1 in
      if cw s then
        (Some w1, Some (if Rleb w2 w1 then w2 + TWO_PI else w2))
      else
        (Some w2, Some (if Rleb w1 w2 then w1 + TWO_PI else w1))
  | None =>
      if cw s then (None, Some w2) else (Some w2, None)
  end.

(** [drawArcSegment] of the flat sketches. *)
Definition drawArcSegment (s : ArcSeg) : Cmd :=
  let (start, stop) := arcAngles s in
  arc (cx s) (cy s) (r s * 2) (r s * 2) start stop.

(** The layers [first, first-1, ..., 0], as the loop
    [for (layer = LAYERS - 1; layer >= 0; layer--)] visits them. *)
Fixpoint layersFrom (n : nat) : list Z :=
  match n with
  | O => []
  | S k => Z.of_nat k :: layersFrom k
  end.

End Ribbon.

Import Ribbon.

(** ** The flat ribbon sketch: greedy constrained walk *)
Module Walk.

Definition width : R := CANVAS_W.
Definition height : R := CANVAS_H.

Definition STEP_X : R := -1.
Definition STEP_Y : R := 1.
Definition WHITE_W : R := 2.
Definition BLACK_W : R := 3.

Definition MAX_ATTEMPTS : Z := 8000.
Definition MAX_CIRCLES : Z := 150.

Definition len (cs : list Circle) : Z := Z.of_nat (length cs).

(** [circles.some(c => dist(c.x, c.y, nc.x, nc.y) < c.radius + nc.radius)] *)
Definition overlapsAny (circles : list Circle) (nc : Circle) : bool :=
  existsb (fun c => Rltb (dist (x c) (y c) (x nc) (y nc)) (radius c + radius nc))
          circles.

Definition isOutside (c : Circle) : bool :=
  Rltb (x c - radius c) 0 || Rltb width (x c + radius c) ||
  Rltb (y c - radius c) 0 || Rltb height (y c + radius c).

(** The state of the generation loop. *)
Record WalkState : Type := mkWalk {
  circles : list Circle;
  attempts : Z;
  rng : nat
}.

Section Generator.
Variable rnd : nat -> R.

Local Open Scope gen_scope.

(** The bounds [safeAngle] hands to [random]. *)
Definition safeRange (c : Circle) : R * R :=
  let '(minA, maxA) :=
    if Rleb (x c - radius c) 0 then (- HALF_PI, HALF_PI)
    else if Rleb width (x c + radius c) then (HALF_PI, PI + HALF_PI)
    else (0, TWO_PI) in
  if Rleb (y c - radius c) 0 then (Rmax minA 0, Rmin maxA PI)
  else if Rleb height (y c + radius c) then (Rmax minA PI, Rmin maxA TWO_PI)
  else (minA, maxA).

Definition safeAngle (c : Circle) : Gen R :=
  let (minA, maxA) := safeRange c in random2 rnd minA maxA.

(** The seed: a circle touching a random edge from the inside. *)
Definition seed : Gen Circle :=
  e <- random1 rnd 4 ;;
  let edge := floor e in
  r0 <- random2 rnd MIN_R MAX_R ;;
  x0 <- (if (edge =? 1)%Z then ret (width - r0)
         else if (edge =? 3)%Z then ret r0
         else random2 rnd r0 (width - r0)) ;;
  y0 <- (if (edge =? 0)%Z then ret r0
         else if (edge =? 2)%Z then ret (height - r0)
         else random2 rnd r0 (height - r0)) ;;
  ret (mkCircle x0 y0 r0 (Some edge)).

(** The candidate of one iteration, tangent to [last]. *)
Definition candidate (cs : list Circle) (last : Circle) : Gen Circle :=
  newR <- random2 rnd MIN_R MAX_R ;;
  ang <- (if (len cs <? 30)%Z then safeAngle last else random1 rnd TWO_PI) ;;
  let d := radius last + newR in
  ret (mkCircle (x last + cos ang * d) (y last + sin ang * d) newR None).

(** The loop
    [while (++attempts < MAX_ATTEMPTS && circles.length < MAX_CIRCLES)].
    [None] stands for a run that does not return: the fuel ran out, or
    [circles[circles.length - 1]] was [undefined]. *)
Fixpoint grow (fuel : nat) (st : WalkState) : option WalkState :=
  match fuel with
  | O => None
  | S fuel' =>
      let att := (attempts st + 1)%Z in
      if negb (att <? MAX_ATTEMPTS)%Z then
        Some (mkWalk (circles st) att (rng st))
      else if negb (len (circles st) <? MAX_CIRCLES)%Z then
        Some (mkWalk (circles st) att (rng st))
      else
        match rev (circles st) with
        | [] => None
        | last :: _ =>
            let (next, i) := candidate (circles st) last (rng st) in
            if overlapsAny (circles st) next then
              grow fuel' (mkWalk (circles st) att i)
            else
              let cs := circles st ++ [next] in
              if (30 <=? len cs)%Z && isOutside next then
                Some (mkWalk cs att i)
              else
                grow fuel' (mkWalk cs att i)
        end
  end.

(** [generateTouchingCircles]: the final loop state. *)
Definition generateState (i : nat) : option WalkState :=
  let (c0, j) := seed i in
  grow (Z.to_nat MAX_ATTEMPTS) (mkWalk [c0] 0 j).

Definition generateTouchingCircles (i : nat) : option (list Circle * nat) :=
  match generateState i with
  | Some st => Some (circles st, rng st)
  | None => None
  end.

(** [setup]: the chain and its arcs. *)
Definition setup (i : nat) : option (list Circle * list ArcSeg) :=
  match generateTouchingCircles i with
  | Some (cs, _) => Some (cs, buildArcList cs)
  | None => None
  end.

End Generator.

(** One depth slice of [draw]. *)
Definition drawLayer (arcs : list ArcSeg) (layer : Z) : list Cmd :=
  [push; translate (IZR layer * STEP_X) (IZR layer * STEP_Y);
   stroke (gray 0); strokeWeight BLACK_W]
  ++ map drawArcSegment arcs
  ++ [stroke (grayAlpha 255 (lerp 255 0 (IZR layer / IZR (LAYERS - 1))));
      strokeWeight WHITE_W]
  ++ map drawArcSegment arcs
  ++ [pop].

(** [draw]: the calls of one frame. *)
Definition draw (arcs : list ArcSeg) : list Cmd :=
  [background 0; noFill]
  ++ flat_map (drawLayer arcs) (layersFrom (Z.to_nat LAYERS)).

End Walk.

(** ** The flat ribbon sketch with one travelling pulse

    Its generator, [safeAngle], [overlapsAny], [isOutside], [buildArcList]
    and [drawArcSegment] are, word for word, those of the first sketch;
    only [draw] differs. *)
Module Pulse.

Definition generateTouchingCircles := Walk.generateTouchingCircles.

Definition TICK : Z := 1.

(** [floor(frameCount / TICK) % LAYERS] *)
Definition activeLayer (frameCount : Z) : Z :=
  Z.rem (floor (IZR frameCount / IZR TICK)) LAYERS.

Definition drawLayer (arcs : list ArcSeg) (active layer : Z) : list Cmd :=
  [push; translate (IZR layer * Walk.STEP_X) (IZR layer * Walk.STEP_Y);
   stroke (gray 0); strokeWeight Walk.BLACK_W]
  ++ map drawArcSegment arcs
  ++ [if (layer =? active)%Z then stroke (rgba 0 255 255 255)
      else stroke (grayAlpha 255
                     (lerp 255 0 (IZR layer / IZR (LAYERS - 1)) - 25));
      strokeWeight Walk.WHITE_W]
  ++ map drawArcSegment arcs
  ++ [pop].

Definition draw (arcs : list ArcSeg) (frameCount : Z) : list Cmd :=
  [background 0; noFill]
  ++ flat_map (drawLayer arcs (activeLayer frameCount))
              (layersFrom (Z.to_nat LAYERS)).

End Pulse.

(** ** The perspective sketch: back-tracking search, fitter, filler *)
Module Perspective.

Definition width : R := CANVAS_W.
Definition height : R := CANVAS_H.

Definition VIEWPORT : R := 1080.
Definition VIEW_PAD : R := 20.
Definition DEPTH_SCALE : R := 99 / 100.
Definition BLACK_W : R := 2.
Definition WHITE_W : R := 1.
Definition GAP : Z := 6.
Definition TICK : Z := 1.

Definition MAX_CIRCLES : Z := 300.
Definition MAX_TOTAL_TRIES : Z := 40000.
Definition ANGLE_STEP : R := TWO_PI / 64.
Definition TARGET_OUTSIDE : Z := 5.

Definition len (cs : list Circle) : Z := Z.of_nat (length cs).

Definition fullyOutside (c : Circle) : bool :=
  Rltb (x c + radius c) 0 || Rltb CANVAS_W (x c - radius c) ||
  Rltb (y c + radius c) 0 || Rltb CANVAS_H (y c - radius c).

(** [circles.some(c => dist(...) < c.radius + nc.radius - 0.1)] *)
Definition overlapsAny (circles : list Circle) (nc : Circle) : bool :=
  existsb (fun c => Rltb (dist (x c) (y c) (x nc) (y nc))
                         (radius c + radius nc - 1 / 10))
          circles.

(** The variables [generateTouchingCircles] shares with its closure [dfs]. *)
Record DfsState : Type := mkDfs {
  circles : list Circle;
  outsideCount : Z;
  totalTries : Z;
  bestCircles : list Circle;
  bestOutsideCt : Z;
  rng : nat
}.

Definition withCircles (st : DfsState) (cs : list Circle) (oc : Z) : DfsState :=
  mkDfs cs oc (totalTries st) (bestCircles st) (bestOutsideCt st) (rng st).

Definition withRng (st : DfsState) (i : nat) : DfsState :=
  mkDfs (circles st) (outsideCount st) (totalTries st)
        (bestCircles st) (bestOutsideCt st) i.

(** [if (++totalTries > MAX_TOTAL_TRIES) return;] — the increment. *)
Definition countTry (st : DfsState) : DfsState :=
  mkDfs (circles st) (outsideCount st) (totalTries st + 1)
        (bestCircles st) (bestOutsideCt st) (rng st).

(** "record best chain so far" *)
Definition recordBest (st : DfsState) : DfsState :=
  if (TARGET_OUTSIDE <=? outsideCount st)%Z
     && (len (bestCircles st) <? len (circles st))%Z
  then mkDfs (circles st) (outsideCount st) (totalTries st)
             (circles st) (outsideCount st) (rng st)
  else st.

(** The loop [for (ang = 0; ang < TWO_PI; ang += ANGLE_STEP)] around a
    body that may fail to return. *)
Fixpoint fan (fuel : nat) (ang : R) (body : R -> DfsState -> option DfsState)
  (st : DfsState) : option DfsState :=
  match fuel with
  | O => None
  | S fuel' =>
      if Rltb ang TWO_PI then
        match body ang st with
        | Some st' => fan fuel' (ang + ANGLE_STEP) body st'
        | None => None
        end
      else Some st
  end.

(** Fuel for the 64 turns of the fan and its closing test. *)
Definition FAN_FUEL : nat := 65.

Section Generator.
Variable rnd : nat -> R.

Local Open Scope gen_scope.

(** The seed: a circle bisected, up to half its radius, by a random edge. *)
Definition seed : Gen Circle :=
  e <- random1 rnd 4 ;;
  let edge := floor e in
  r0 <- random2 rnd MIN_R MAX_R ;;
  x0 <- (if (edge =? 1)%Z then ret (CANVAS_W - r0 * (1 / 2))
         else if (edge =? 3)%Z then ret (r0 * (1 / 2))
         else random2 rnd (r0 * (1 / 2)) (CANVAS_W - r0 * (1 / 2))) ;;
  y0 <- (if (edge =? 0)%Z then ret (r0 * (1 / 2))
         else if (edge =? 2)%Z then ret (CANVAS_H - r0 * (1 / 2))
         else random2 rnd (r0 * (1 / 2)) (CANVAS_H - r0 * (1 / 2))) ;;
  ret (mkCircle x0 y0 r0 (Some edge)).

(** The candidate of one turn of the fan. *)
Definition candidate (last : Circle) (dist0 ang : R) : Gen Circle :=
  newR <- random2 rnd MIN_R MAX_R ;;
  ret (mkCircle (x last + cos ang * (dist0 + newR))
                (y last + sin ang * (dist0 + newR)) newR None).

Definition bump (c : Circle) (oc : Z) : Z :=
  if fullyOutside c then (oc + 1)%Z else oc.

Definition unbump (c : Circle) (oc : Z) : Z :=
  if fullyOutside c then (oc - 1)%Z else oc.

(** One turn of the fan; [deeper] is the recursive call of [dfs]. *)
Definition fanBody (deeper : DfsState -> option DfsState)
  (last : Circle) (dist0 : R) (ang : R) (st : DfsState) : option DfsState :=
  let (next, i) := candidate last dist0 ang (rng st) in
  let st1 := withRng st i in
  if overlapsAny (circles st1) next then Some st1
  else
    match deeper (withCircles st1 (circles st1 ++ [next])
                              (bump next (outsideCount st1))) with
    | Some st2 =>
        Some (withCircles st2 (removelast (circles st2))
                          (unbump next (outsideCount st2)))
    | None => None
    end.

(** The closure [dfs].  [None] stands for a call that does not return:
    the fuel ran out, or the tail of the chain was [undefined]. *)
Fixpoint dfs (fuel : nat) (st : DfsState) : option DfsState :=
  match fuel with
  | O => None
  | S fuel' =>
      let st1 := countTry st in
      if (MAX_TOTAL_TRIES <? totalTries st1)%Z then Some st1
      else
        let st2 := recordBest st1 in
        if (MAX_CIRCLES <=? len (circles st2))%Z then Some st2
        else
          match rev (circles st2) with
          | [] => None
          | last :: _ =>
              fan FAN_FUEL 0 (fanBody (dfs fuel') last (radius last)) st2
          end
  end.

(** One level of recursion for each circle the cap admits, and one more. *)
Definition DFS_FUEL : nat := S (Z.to_nat MAX_CIRCLES).

(** The state after the search, before the best chain is restored. *)
Definition searchState (i : nat) : option DfsState :=
  let (c0, j) := seed i in
  let oc := if fullyOutside c0 then 1%Z else 0%Z in
  dfs DFS_FUEL (mkDfs [c0] oc 0 [c0] oc j).

(** [generateTouchingCircles]: the chain is the best one recorded. *)
Definition generateTouchingCircles (i : nat) : option (list Circle * nat) :=
  match searchState i with
  | Some st => Some (bestCircles st, rng st)
  | None => None
  end.

End Generator.

(** The extent of the chain along one axis: the accumulators start at
    [Infinity] and [-Infinity], so after the first circle they hold its
    extent. *)
Definition lowest (f : Circle -> R) (c0 : Circle) (rest : list Circle) : R :=
  fold_left (fun m c => Rmin m (f c - radius c)) rest (f c0 - radius c0).

Definition highest (f : Circle -> R) (c0 : Circle) (rest : list Circle) : R :=
  fold_left (fun m c => Rmax m (f c + radius c)) rest (f c0 + radius c0).

Definition limit : R := VIEWPORT - VIEW_PAD * 2.

(** [min(1, min(limit / bw, limit / bh))] *)
Definition fitScale (c0 : Circle) (rest : list Circle) : R :=
  let bw := highest x c0 rest - lowest x c0 rest in
  let bh := highest y c0 rest - lowest y c0 rest in
  Rmin 1 (Rmin (limit / bw) (limit / bh)).

(** [fitRibbonToViewport]; on an empty list neither loop runs. *)
Definition fitRibbonToViewport (circles : list Circle) : list Circle :=
  match circles with
  | [] => []
  | c0 :: rest =>
      let k := fitScale c0 rest in
      let mx := (lowest x c0 rest + highest x c0 rest) * (1 / 2) in
      let my := (lowest y c0 rest + highest y c0 rest) * (1 / 2) in
      map (fun c => mkCircle ((x c - mx) * k + CANVAS_W * (1 / 2))
                            ((y c - my) * k + CANVAS_H * (1 / 2))
                            (radius c * k) (edge c))
          circles
  end.

(** Modelled from the spec: [fillVoids] calls a helper
    [fullyInsideViewport], commented "helper that checks 1080 box", that
    the sources at hand do not define.  The spec has the filler accept a
    candidate only if it "lies fully within the viewport bounds". *)
Definition fullyInsideViewport (c : Circle) : bool :=
  Rleb 0 (x c - radius c) && Rleb (x c + radius c) VIEWPORT &&
  Rleb 0 (y c - radius c) && Rleb (y c + radius c) VIEWPORT.

Section Filler.
Variable rnd : nat -> R.

Local Open Scope gen_scope.

Definition fillCandidate : Gen Circle :=
  r <- random2 rnd 12 30 ;;
  nx <- random1 rnd CANVAS_W ;;
  ny <- random1 rnd CANVAS_H ;;
  ret (mkCircle nx ny r None).

(** [fillVoids]: the loop [while (attempts--)]. *)
Fixpoint fillVoids (attempts : nat) (circles : list Circle) (i : nat)
  : list Circle * nat :=
  match attempts with
  | O => (circles, i)
  | S attempts' =>
      let (c, j) := fillCandidate i in
      if overlapsAny circles c then fillVoids attempts' circles j
      else if negb (fullyInsideViewport c) then fillVoids attempts' circles j
      else fillVoids attempts' (circles ++ [c]) j
  end.

(** The default budget of [fillVoids]. *)
Definition FILL_ATTEMPTS : nat := 2000.

(** [setup]: the circle list and the arcs built from it. *)
Definition setup (i : nat) : option (list Circle * list ArcSeg) :=
  match generateTouchingCircles rnd i with
  | Some (chain, j) =>
      let fitted := fitRibbonToViewport chain in
      let (all, _) := fillVoids FILL_ATTEMPTS fitted j in
      Some (all, buildArcList all)
  | None => None
  end.

End Filler.

(** What the global scope binds the name [fullyInsideViewport] to, if to
    anything. *)
Definition Helper : Type := option (Circle -> bool).

(** The sources at hand bind it to nothing. *)
Definition sources : Helper := None.

Section FillerIn.
Variable rnd : nat -> R.
Variable helper : Helper.

(** [fillVoids] in such a scope.  The call [fullyInsideViewport(c)] is
    reached by a candidate that overlaps no circle, and raises when the
    name is bound to nothing. *)
Fixpoint fillVoidsIn (attempts : nat) (circles : list Circle) (i : nat)
  : Outcome (list Circle * nat) :=
  match attempts with
  | O => Returned (circles, i)
  | S attempts' =>
      let (c, j) := fillCandidate rnd i in
      if overlapsAny circles c then fillVoidsIn attempts' circles j
      else
        match helper with
        | None => ReferenceError
        | Some inside =>
            if negb (inside c) then fillVoidsIn attempts' circles j
            else fillVoidsIn attempts' (circles ++ [c]) j
        end
  end.

(** [setup] in such a scope: an error raised in [fillVoids] ends it, and
    [buildArcList] is not reached. *)
Definition setupIn (i : nat)
  : option (Outcome (list Circle * list ArcSeg)) :=
  match generateTouchingCircles rnd i with
  | Some (chain, j) =>
      let fitted := fitRibbonToViewport chain in
      match fillVoidsIn FILL_ATTEMPTS fitted j with
      | Returned (all, _) => Some (Returned (all, buildArcList all))
      | ReferenceError => Some ReferenceError
      end
  | None => None
  end.

End FillerIn.

(** [drawArcSegment], shifted to the eye point. *)
Definition drawArcSegment (s : ArcSeg) : Cmd :=
  let (start, stop) := arcAngles s in
  arc (cx s - width / 2) (cy s - height / 2) (r s * 2) (r s * 2) start stop.

(** [floor(frameCount / TICK) % LAYERS] *)
Definition leader (frameCount : Z) : Z :=
  Z.rem (floor (IZR frameCount / IZR TICK)) LAYERS.

(** [floor(leader / GAP) + 1] *)
Definition pulses (frameCount : Z) : Z :=
  (floor (IZR (leader frameCount) / IZR GAP) + 1)%Z.

(** [diff >= 0 && diff % GAP === 0 && diff / GAP < pulses] *)
Definition turquoise (frameCount layer : Z) : bool :=
  let diff := (leader frameCount - layer)%Z in
  (0 <=? diff)%Z && (Z.rem diff GAP =? 0)%Z
  && Rltb (IZR diff / IZR GAP) (IZR (pulses frameCount)).

Definition drawLayer (arcs : list ArcSeg) (frameCount layer : Z) : list Cmd :=
  let s := DEPTH_SCALE ^ Z.to_nat layer in
  [push; translate (width / 2) (height / 2); scale s;
   stroke (gray 0); strokeWeight (BLACK_W / s)]
  ++ map drawArcSegment arcs
  ++ [strokeWeight (WHITE_W / s);
      if turquoise frameCount layer then stroke (rgba 0 255 255 255)
      else stroke (grayAlpha 255
                     (lerp 255 0 (IZR layer / IZR (LAYERS - 1)) - 25))]
  ++ map drawArcSegment arcs
  ++ [pop].

Definition draw (arcs : list ArcSeg) (frameCount : Z) : list Cmd :=
  [background 0; noFill]
  ++ flat_map (drawLayer arcs frameCount) (layersFrom (Z.to_nat LAYERS)).

End Perspective.

(** ** capture.js: the frame recorder, and the hooks of the sketches *)
Module Capture.

Definition REC_SECONDS : Z := 10.
Definition REC_FPS : Z := 60.
Definition REC_FRAMES : Z := REC_SECONDS * REC_FPS.

(** The script assigns the property [window.recPending] once, and then
    declares a variable [recPending] with [let]: a binding of its own,
    which is the one the functions of the script read and write.  A frame
    is stored under the number in its name, and an archive is the list of
    the frames of its folder. *)
Record Recorder : Type := mkRec {
  window_recPending : bool;
  recPending : bool;
  grabCount : Z;
  folder : option (list Z);
  archives : list (list Z)
}.

(** The state once the script has been loaded. *)
Definition loaded : Recorder := mkRec false false 0 None [].

Definition startCapture (s : Recorder) : Recorder :=
  if recPending s then s
  else mkRec (window_recPending s) true 0 (Some []) (archives s).

Definition finishCapture (s : Recorder) : Recorder :=
  if negb (recPending s) then s
  else mkRec (window_recPending s) false (grabCount s) (folder s)
             (match folder s with
              | Some fs => archives s ++ [fs]
              | None => archives s
              end).

(** [saveGifFrame]; [None] when [folder] is [undefined] at the call of
    [folder.file]. *)
Definition saveGifFrame (s : Recorder) : option Recorder :=
  if negb (recPending s) then Some s
  else
    match folder s with
    | None => None
    | Some fs =>
        let s1 := mkRec (window_recPending s) (recPending s)
                        (grabCount s + 1) (Some (fs ++ [grabCount s]))
                        (archives s) in
        if (REC_FRAMES <=? grabCount s1)%Z then Some (finishCapture s1)
        else Some s1
    end.

(** The last line of [draw]: [if (window.recPending) saveGifFrame();] *)
Definition drawHook (s : Recorder) : option Recorder :=
  if window_recPending s then saveGifFrame s else Some s.

(** [keyPressed] with the key R:
    [if (key === 'R' && !window.recPending) startCapture();] *)
Definition keyPressedR (s : Recorder) : Recorder :=
  if negb (window_recPending s) then startCapture s else s.

(** [n] frames of the sketch. *)
Fixpoint frames (n : nat) (s : Recorder) : option Recorder :=
  match n with
  | O => Some s
  | S k =>
      match drawHook s with
      | Some s' => frames k s'
      | None => None
      end
  end.

(** [n] calls of [saveGifFrame], one after the other. *)
Fixpoint saves (n : nat) (s : Recorder) : option Recorder :=
  match n with
  | O => Some s
  | S k =>
      match saveGifFrame s with
      | Some s' => saves k s'
      | None => None
      end
  end.

(** What happens in a session of a sketch that loads the recorder: the key
    R is pressed, or a frame is drawn. *)
Inductive Event : Type := KeyR | Frame.

Fixpoint session (evs : list Event) (s : Recorder) : option Recorder :=
  match evs with
  | [] => Some s
  | KeyR :: tl => session tl (keyPressedR s)
  | Frame :: tl =>
      match drawHook s with
      | Some s' => session tl s'
      | None => None
      end
  end.

(** *** The names the recorder gives *)

Import Ascii String.

(** [String(n)] for an integer that is not negative. *)
Definition decimal (n : Z) : string :=
  DecimalString.NilEmpty.string_of_uint (N.to_uint (Z.to_N n)).

Fixpoint zeros (n : nat) : string :=
  match n with
  | O => EmptyString
  | S k => String "0"%char (zeros k)
  end.

(** [s.padStart(width, "0")] *)
Definition padStart (width : nat) (s : string) : string :=
  append (zeros (width - String.length s)) s.

Definition framePrefix : string := "frame_"%string.
Definition frameSuffix : string := ".png"%string.

(** The name [saveGifFrame] stores a frame under:
    [frame_] + [String(grabCount).padStart(4, "0")] + [.png] *)
Definition frameName (grabCount : Z) : string :=
  append framePrefix (append (padStart 4 (decimal grabCount)) frameSuffix).

(** The fields of [new Date()] that [timeStamp] reads; [month] is
    [getMonth()], which counts from 0. *)
Record Date : Type := mkDate {
  fullYear : Z;
  month : Z;
  date : Z;
  hours : Z;
  minutes : Z;
  seconds : Z
}.

(** [pad = n => String(n).padStart(2, "0")] *)
Definition pad (n : Z) : string := padStart 2 (decimal n).

Definition underscore : string := "_"%string.

(** The stamp [ts] of [timeStamp]. *)
Definition stamp (d : Date) : string :=
  append (decimal (fullYear d))
    (append "-"%string (append (pad (month d + 1))
      (append "-"%string (append (pad (date d))
        (append underscore (append (pad (hours d))
          (append "-"%string (append (pad (minutes d))
            (append "-"%string (pad (seconds d))))))))))).

(** [timeStamp(prefix)] at the date [d]:
    [prefix ? prefix + "_" + ts : ts], the empty string being falsy. *)
Definition timeStamp (prefix : string) (d : Date) : string :=
  match prefix with
  | EmptyString => stamp d
  | _ => append prefix (append underscore (stamp d))
  end.

End Capture.

(** ** Vocabulary of the statements *)
Module Spec.

(** The circle an arc is centred at, and a circle's own data. *)
Definition arcDisc (s : ArcSeg) : R * R * R := (cx s, cy s, r s).
Definition disc (c : Circle) : R * R * R := (x c, y c, radius c).

(** The calls that put something on the canvas. *)
Definition isArc (c : Cmd) : bool :=
  match c with
  | arc _ _ _ _ _ _ => true
  | _ => false
  end.

(** The stroke in force when the outline pass of a layer is drawn: the
    last [stroke] call of the layer. *)
Definition outlineStroke (cmds : list Cmd) : option Color :=
  fold_left (fun acc c => match c with stroke k => Some k | _ => acc end)
            cmds None.

Definition turquoiseColor : Color := rgba 0 255 255 255.

(** The draws of the oracle are unit draws. *)
Definition unitDraws (rnd : nat -> R) : Prop := forall n, 0 <= rnd n < 1.

(** The distance between the centres of two circles. *)
Definition centres (a b : Circle) : R := dist (x a) (y a) (x b) (y b).

(** Every circle but the first touches its predecessor. *)
Definition tangentChain (cs : list Circle) : Prop :=
  forall i a b,
    nth_error cs i = Some a -> nth_error cs (S i) = Some b ->
    centres b a = radius b + radius a.

(** Circles whose indices differ by more than one do not overlap, up to
    the tolerance [eps]. *)
Definition separated (eps : R) (cs : list Circle) : Prop :=
  forall i j a b,
    (S i < j)%nat -> nth_error cs i = Some a -> nth_error cs j = Some b ->
    radius a + radius b - eps <= centres a b.

(** What the overlap test of the generators maintains: any two circles of
    the list are apart, up to the tolerance. *)
Definition apartAll (eps : R) (cs : list Circle) : Prop :=
  forall i j a b,
    (i < j)%nat -> nth_error cs i = Some a -> nth_error cs j = Some b ->
    radius a + radius b - eps <= centres a b.

Definition radiiInRange (cs : list Circle) : Prop :=
  Forall (fun c => MIN_R <= radius c < MAX_R) cs.

(** The invariant of a chain under construction. *)
Definition chainInv (eps : R) (cs : list Circle) : Prop :=
  cs <> [] /\ radiiInRange cs /\ tangentChain cs /\ apartAll eps cs.

(** The seed of a chain: anchored to one of the four edges. *)
Definition isSeed (c : Circle) : Prop :=
  exists e : Z, edge c = Some e /\ (0 <= e <= 3)%Z.

Definition isSeed_edge (e : Z) : Prop := (0 <= e <= 3)%Z.

(** What holds when the loop ends before the attempts are used up. *)
Definition walkEnded (st : Walk.WalkState) : Prop :=
  (Walk.len (Walk.circles st) = Walk.MAX_CIRCLES) \/
  ((30 <= Walk.len (Walk.circles st))%Z /\
   exists last tl, rev (Walk.circles st) = last :: tl /\
                   Walk.isOutside last = true).

(** The number of circles of a list that lie wholly outside the canvas. *)
Definition countOutside (cs : list Circle) : Z :=
  Z.of_nat (length (filter Perspective.fullyOutside cs)).

(** A chain qualifies when it has the target number of such circles. *)
Definition qualifies (cs : list Circle) : Prop :=
  (Perspective.TARGET_OUTSIDE <= countOutside cs)%Z.

(** The invariant of the search, for the seed [c0]. *)
Definition dfsInv (c0 : Circle) (st : Perspective.DfsState) : Prop :=
  chainInv (1 / 10) (Perspective.circles st) /\
  chainInv (1 / 10) (Perspective.bestCircles st) /\
  (exists tl, Perspective.circles st = c0 :: tl) /\
  (exists tl, Perspective.bestCircles st = c0 :: tl) /\
  (Perspective.len (Perspective.circles st) <= Perspective.MAX_CIRCLES)%Z /\
  (Perspective.len (Perspective.bestCircles st)
   <= Perspective.MAX_CIRCLES)%Z /\
  Perspective.outsideCount st = countOutside (Perspective.circles st) /\
  (Perspective.bestCircles st = [c0] \/
   qualifies (Perspective.bestCircles st)).

(** The best chain only ever grows, and the tries only ever increase. *)
Definition dfsMono (st st' : Perspective.DfsState) : Prop :=
  (Perspective.bestCircles st' = Perspective.bestCircles st \/
   (Perspective.len (Perspective.bestCircles st)
    < Perspective.len (Perspective.bestCircles st'))%Z) /\
  (Perspective.totalTries st <= Perspective.totalTries st')%Z.

(** What a call of [dfs] leaves behind: the chain and the count of the
    caller are restored. *)
Definition dfsPost (c0 : Circle) (st st' : Perspective.DfsState) : Prop :=
  dfsInv c0 st' /\
  Perspective.circles st' = Perspective.circles st /\
  Perspective.outsideCount st' = Perspective.outsideCount st /\
  dfsMono st st'.

(** A chain laid out on a horizontal line, its tail [last] rightmost. *)
Definition rowChain (cs : list Circle) (last : Circle) : Prop :=
  (forall c, In c cs ->
     y c = y last /\ x c + radius c <= x last + radius last) /\
  75 + 100 * (IZR (Perspective.len cs) - 1) <= x last + radius last.

(** The candidate placed at the angle 0, to the right of the tail. *)
Definition rightOf (last : Circle) (newR : R) : Circle :=
  mkCircle (x last + cos 0 * (radius last + newR))
           (y last + sin 0 * (radius last + newR)) newR None.

(** [lo] and [hi] bound the circles of a list along the axis [f], and each
    is reached by a circle of the list: the side of their bounding box. *)
Definition bounds (f : Circle -> R) (cs : list Circle) (lo hi : R) : Prop :=
  (forall c, In c cs -> lo <= f c - radius c /\ f c + radius c <= hi) /\
  (exists c, In c cs /\ f c - radius c = lo) /\
  (exists c, In c cs /\ f c + radius c = hi).

(** The calls that leave the transform stack alone. *)
Definition plain (c : Cmd) : bool :=
  match c with
  | push | pop => false
  | _ => true
  end.

(** The calls of a frame, layer by layer: the runs of calls between a
    [push] and the [pop] that closes it, in the order they are issued.
    [cur] holds the calls of the run that is open, latest first. *)
Fixpoint layerRuns (cmds : list Cmd) (cur : option (list Cmd))
  : list (list Cmd) :=
  match cmds with
  | [] => []
  | push :: tl => layerRuns tl (Some [])
  | pop :: tl =>
      match cur with
      | Some run => rev run :: layerRuns tl None
      | None => layerRuns tl None
      end
  | c :: tl =>
      match cur with
      | Some run => layerRuns tl (Some (c :: run))
      | None => layerRuns tl None
      end
  end.

End Spec.

(** ** Vocabulary of the further properties *)
Module Shape.

(** Angles that differ by whole turns. *)
Definition sameDirection (a b : R) : Prop :=
  exists k : Z, a = b + IZR k * TWO_PI.

(** The point of the circle of an arc at an angle. *)
Definition pointAt (s : ArcSeg) (a : R) : R * R :=
  (cx s + r s * cos a, cy s + r s * sin a).

(** A chain in which every circle sits on the line of its predecessor,
    immediately to its right. *)
Definition rowSteps (cs : list Circle) : Prop :=
  forall i a b,
    nth_error cs i = Some a -> nth_error cs (S i) = Some b ->
    y b = y a /\ x b = x a + radius a + radius b.

(** A scaling by [k] about [(mx, my)], moved to [(ox, oy)]. *)
Definition similarity (k mx my ox oy : R) (c : Circle) : Circle :=
  mkCircle ((x c - mx) * k + ox) ((y c - my) * k + oy) (radius c * k)
           (edge c).

(** The depth of the transform stack after a list of calls, from the
    depth [d]; [None] when a [pop] finds the stack empty. *)
Fixpoint stackDepth (cmds : list Cmd) (d : nat) : option nat :=
  match cmds with
  | [] => Some d
  | push :: tl => stackDepth tl (S d)
  | pop :: tl =>
      match d with
      | O => None
      | S d' => stackDepth tl d'
      end
  | _ :: tl => stackDepth tl d
  end.

(** Where the arcs of the calls of one layer come out on the canvas, as
    centre and diameter: under the transform that the [translate] and
    [scale] calls have built, the point [(px, py)] of the sketch is drawn
    at [(ox + k * px, oy + k * py)]. *)
Fixpoint screenArcs (cmds : list Cmd) (ox oy k : R) : list (R * R * R) :=
  match cmds with
  | [] => []
  | translate tx ty :: tl => screenArcs tl (ox + k * tx) (oy + k * ty) k
  | scale s :: tl => screenArcs tl ox oy (k * s)
  | arc ax ay aw _ _ _ :: tl =>
      (ox + k * ax, oy + k * ay, k * aw) :: screenArcs tl ox oy k
  | _ :: tl => screenArcs tl ox oy k
  end.

(** The weights of the strokes of one layer as they come out on the
    canvas: [strokeWeight] is in the units of the current transform. *)
Fixpoint screenWeights (cmds : list Cmd) (k : R) : list R :=
  match cmds with
  | [] => []
  | scale s :: tl => screenWeights tl (k * s)
  | strokeWeight w :: tl => k * w :: screenWeights tl k
  | _ :: tl => screenWeights tl k
  end.

(** The number a string of digits stands for. *)
Definition value (s : String.string) : option N :=
  option_map N.of_uint (DecimalString.NilEmpty.uint_of_string s).

(** The [n] integers from [z] on. *)
Fixpoint upto (n : nat) (z : Z) : list Z :=
  match n with
  | O => []
  | S k => z :: upto k (z + 1)
  end.

(** The number of characters of [String(n)], for [n] below 10000. *)
Definition digits (n : Z) : nat :=
  if (n <? 10)%Z then 1 else if (n <? 100)%Z then 2
  else if (n <? 1000)%Z then 3 else 4.

(** The dates of four-digit years. *)
Definition validDate (d : Capture.Date) : Prop :=
  (1000 <= Capture.fullYear d <= 9999)%Z /\
  (0 <= Capture.month d <= 11)%Z /\
  (1 <= Capture.date d <= 31)%Z /\
  (0 <= Capture.hours d <= 23)%Z /\
  (0 <= Capture.minutes d <= 59)%Z /\
  (0 <= Capture.seconds d <= 59)%Z.

End Shape.

(* ================================================================== *)
(** * Theorems *)
(* ================================================================== *)

(** ** Numbers *)

Lemma Rltb_true (a b : R) : Rltb a b = true <-> a < b.
Proof. unfold Rltb. destruct (Rlt_dec a b); split; intros; try easy. Qed.

Lemma Rltb_false (a b : R) : Rltb a b = false <-> b <= a.
Proof.
  unfold Rltb. destruct (Rlt_dec a b); split; intros; try easy; lra.
Qed.

Lemma Rleb_true (a b : R) : Rleb a b = true <-> a <= b.
Proof. unfold Rleb. destruct (Rle_dec a b); split; intros; try easy. Qed.

Lemma Rleb_false (a b : R) : Rleb a b = false <-> b < a.
Proof.
  unfold Rleb. destruct (Rle_dec a b); split; intros; try easy; lra.
Qed.

Lemma floor_IZR (z : Z) : floor (IZR z) = z.
Proof.
  unfold floor. symmetry. apply Int_part_spec. lra.
Qed.

Lemma floor_bounds (v : R) (lo hi : Z) :
  IZR lo <= v -> v < IZR hi -> (lo <= floor v < hi)%Z.
Proof.
  intros Hlo Hhi. unfold floor.
  destruct (base_Int_part v) as [H1 H2].
  split.
  - apply Z.lt_succ_r. apply lt_IZR. rewrite succ_IZR. lra.
  - apply lt_IZR. lra.
Qed.

Lemma floor_div (a b : Z) :
  (0 < b)%Z -> floor (IZR a / IZR b) = (a / b)%Z.
Proof.
  intros Hb. unfold floor. symmetry. apply Int_part_spec.
  assert (Hb' : 0 < IZR b) by (apply IZR_lt; lia).
  pose proof (Z.div_mod a b ltac:(lia)) as Hdm.
  pose proof (Z.mod_pos_bound a b Hb) as Hm.
  assert (Ha : IZR a = IZR b * IZR (a / b) + IZR (a mod b)).
  { rewrite <- mult_IZR, <- plus_IZR. f_equal. exact Hdm. }
  assert (H0 : 0 <= IZR (a mod b)) by (apply IZR_le; lia).
  assert (H1 : IZR (a mod b) < IZR b) by (apply IZR_lt; lia).
  assert (Hq : IZR a / IZR b = IZR (a / b) + IZR (a mod b) / IZR b).
  { rewrite Ha. field. lra. }
  assert (Hf0 : 0 <= IZR (a mod b) / IZR b).
  { apply Rmult_le_pos; [lra|]. left. apply Rinv_0_lt_compat. lra. }
  assert (Hf1 : IZR (a mod b) / IZR b < 1).
  { apply Rmult_lt_reg_r with (IZR b); [lra|].
    unfold Rdiv. rewrite Rmult_assoc, Rinv_l by lra. lra. }
  lra.
Qed.

Lemma dist_nonneg (x1 y1 x2 y2 : R) : 0 <= dist x1 y1 x2 y2.
Proof. unfold dist. apply sqrt_pos. Qed.

Lemma dist_sym (x1 y1 x2 y2 : R) : dist x1 y1 x2 y2 = dist x2 y2 x1 y1.
Proof. unfold dist. f_equal. ring. Qed.

(** A point at distance [d] along the angle [a] is at distance [d]. *)
Lemma dist_polar (x1 y1 a d : R) :
  0 <= d -> dist x1 y1 (x1 + cos a * d) (y1 + sin a * d) = d.
Proof.
  intros Hd. unfold dist.
  replace ((x1 + cos a * d - x1) * (x1 + cos a * d - x1) +
           (y1 + sin a * d - y1) * (y1 + sin a * d - y1))
    with (d * d).
  - apply sqrt_square. exact Hd.
  - pose proof (sin2_cos2 a) as H. unfold Rsqr in H.
    transitivity (d * d * (sin a * sin a + cos a * cos a)).
    + rewrite H. ring.
    + ring.
Qed.

(** On a horizontal line the distance is the difference of abscissas. *)
Lemma dist_row (x1 x2 y0 : R) : x1 <= x2 -> dist x1 y0 x2 y0 = x2 - x1.
Proof.
  intros H. unfold dist.
  replace ((x2 - x1) * (x2 - x1) + (y0 - y0) * (y0 - y0))
    with ((x2 - x1) * (x2 - x1)) by ring.
  apply sqrt_square. lra.
Qed.

(** The distance is at least the vertical gap. *)
Lemma dist_ge_dy (x1 y1 x2 y2 : R) : y2 - y1 <= dist x1 y1 x2 y2.
Proof.
  unfold dist.
  destruct (Rle_dec 0 (y2 - y1)) as [H|H].
  - rewrite <- (sqrt_square (y2 - y1) H) at 1.
    apply sqrt_le_1_alt.
    pose proof (Rle_0_sqr (x2 - x1)) as Hs. unfold Rsqr in Hs. lra.
  - pose proof (sqrt_pos ((x2 - x1) * (x2 - x1) + (y2 - y1) * (y2 - y1))).
    lra.
Qed.

(** ** Arc extraction *)

Lemma chainArcs_step (i : Z) (prev cur nxt : Circle) (tl : list Circle) :
  chainArcs i prev (cur :: nxt :: tl) =
  mkArc (x cur) (y cur) (radius cur)
        (Some (atan2 (y cur - y prev) (x cur - x prev) + PI))
        (atan2 (y nxt - y cur) (x nxt - x cur))
        (Z.rem i 2 =? 0)%Z
  :: chainArcs (i + 1) cur (nxt :: tl).
Proof. reflexivity. Qed.

Lemma chainArcs_length (rest : list Circle) :
  forall i prev, length (chainArcs i prev rest) = (length rest - 1)%nat.
Proof.
  induction rest as [|cur tl IH]; intros i prev; [reflexivity|].
  destruct tl as [|nxt tl']; [reflexivity|].
  rewrite chainArcs_step. cbn [length]. rewrite IH. cbn [length]. lia.
Qed.

Lemma chainArcs_discs (rest : list Circle) :
  forall i prev,
    map Spec.arcDisc (chainArcs i prev rest) = map Spec.disc (removelast rest).
Proof.
  induction rest as [|cur tl IH]; intros i prev; [reflexivity|].
  destruct tl as [|nxt tl']; [reflexivity|].
  rewrite chainArcs_step. cbn [map]. rewrite IH. reflexivity.
Qed.

Lemma buildArcList_length (cs : list Circle) :
  (2 <= length cs)%nat -> length (buildArcList cs) = (length cs - 1)%nat.
Proof.
  intros H. destruct cs as [|c0 [|c1 tl]]; cbn [length] in H; try lia.
  cbn [buildArcList length]. rewrite chainArcs_length. cbn [length]. lia.
Qed.

Lemma no_arc_flat_map {A : Type} (f : A -> list Cmd) (l : list A) :
  (forall a, filter Spec.isArc (f a) = []) ->
  filter Spec.isArc (flat_map f l) = [].
Proof.
  intros Hf. induction l as [|a l IH]; [reflexivity|].
  cbn [flat_map]. rewrite filter_app, Hf, IH. reflexivity.
Qed.

(** C6. A list of N >= 2 circles yields exactly N-1 arcs, the i-th centred
    at circle i for i = 0 .. N-2 (the last circle has none); a shorter list
    yields no arc; and on an empty arc list each of the three renderers
    returns a frame that holds no [arc] call. *)
Theorem C6_arc_count (cs : list Circle) :
  ((2 <= length cs)%nat ->
     length (buildArcList cs) = (length cs - 1)%nat) /\
  ((length cs < 2)%nat -> buildArcList cs = []) /\
  map Spec.arcDisc (buildArcList cs) = map Spec.disc (removelast cs) /\
  filter Spec.isArc (Walk.draw []) = [] /\
  (forall frameCount, filter Spec.isArc (Pulse.draw [] frameCount) = []) /\
  (forall frameCount, filter Spec.isArc (Perspective.draw [] frameCount) = []).
Proof.
  split; [|split; [|split; [|split; [|split]]]].
  - apply buildArcList_length.
  - intros H. destruct cs as [|c0 [|c1 tl]]; cbn [length] in H;
      try reflexivity; lia.
  - destruct cs as [|c0 [|c1 tl]]; try reflexivity.
    cbn [buildArcList map]. rewrite chainArcs_discs. reflexivity.
  - unfold Walk.draw. rewrite filter_app.
    rewrite no_arc_flat_map; [reflexivity|].
    intros a. unfold Walk.drawLayer. rewrite !filter_app. reflexivity.
  - intros fc. unfold Pulse.draw. rewrite filter_app.
    rewrite no_arc_flat_map; [reflexivity|].
    intros a. unfold Pulse.drawLayer. rewrite !filter_app.
    destruct (a =? Pulse.activeLayer fc)%Z; reflexivity.
  - intros fc. unfold Perspective.draw. rewrite filter_app.
    rewrite no_arc_flat_map; [reflexivity|].
    intros a. unfold Perspective.drawLayer. rewrite !filter_app.
    destruct (Perspective.turquoise fc a); reflexivity.
Qed.

(** ** The pulses of the perspective renderer *)

Lemma leader_closed (frameCount : Z) :
  (0 <= frameCount)%Z ->
  Perspective.leader frameCount
  = ((frameCount / Perspective.TICK) mod LAYERS)%Z.
Proof.
  intros H. unfold Perspective.leader.
  rewrite floor_div by (unfold Perspective.TICK; lia).
  apply Z.rem_mod_nonneg.
  - apply Z.div_pos; [exact H | unfold Perspective.TICK; lia].
  - unfold LAYERS; lia.
Qed.

Lemma leader_range (frameCount : Z) :
  (0 <= frameCount)%Z -> (0 <= Perspective.leader frameCount < LAYERS)%Z.
Proof.
  intros H. rewrite leader_closed by exact H.
  apply Z.mod_pos_bound. unfold LAYERS; lia.
Qed.

Lemma pulses_closed (frameCount : Z) :
  Perspective.pulses frameCount
  = (Perspective.leader frameCount / Perspective.GAP + 1)%Z.
Proof.
  unfold Perspective.pulses.
  rewrite floor_div by (unfold Perspective.GAP; lia). reflexivity.
Qed.

Lemma turquoise_spec (frameCount layer : Z) :
  Perspective.turquoise frameCount layer = true <->
  exists k : Z,
    (0 <= k)%Z /\
    (Perspective.leader frameCount - layer = k * Perspective.GAP)%Z /\
    (k < Perspective.leader frameCount / Perspective.GAP + 1)%Z.
Proof.
  unfold Perspective.turquoise. rewrite pulses_closed.
  set (ld := Perspective.leader frameCount).
  assert (HG : Perspective.GAP = 6%Z) by reflexivity.
  rewrite !andb_true_iff, Z.leb_le, Z.eqb_eq, Rltb_true.
  split.
  - intros [[Hd Hr] Hlt].
    rewrite Z.rem_mod_nonneg in Hr by lia.
    exists ((ld - layer) / Perspective.GAP)%Z.
    assert (He : (ld - layer
                  = (ld - layer) / Perspective.GAP * Perspective.GAP)%Z).
    { pose proof (Z.div_mod (ld - layer) Perspective.GAP ltac:(lia)). lia. }
    split; [apply Z.div_pos; lia|]. split; [exact He|].
    apply lt_IZR.
    replace (IZR ((ld - layer) / Perspective.GAP))
      with (IZR (ld - layer) / IZR Perspective.GAP); [exact Hlt|].
    rewrite He at 1. rewrite mult_IZR. rewrite HG. field.
  - intros [k [Hk [He Hlt]]].
    split; [split|].
    + lia.
    + rewrite He. apply Z.rem_mul. lia.
    + rewrite He, mult_IZR, HG.
      replace (IZR k * 6 / 6) with (IZR k) by field.
      apply IZR_lt. rewrite <- HG. exact Hlt.
Qed.

Lemma outlineStroke_arcs (f : ArcSeg -> Cmd) (arcs : list ArcSeg)
  (tl : list Cmd) (acc : option Color) :
  (forall s, Spec.isArc (f s) = true) ->
  fold_left (fun a c => match c with stroke k => Some k | _ => a end)
            (map f arcs ++ tl) acc
  = fold_left (fun a c => match c with stroke k => Some k | _ => a end)
              tl acc.
Proof.
  intros Hf. induction arcs as [|s arcs IH]; [reflexivity|].
  cbn [map app fold_left]. specialize (Hf s).
  destruct (f s); try discriminate. exact IH.
Qed.

Lemma perspective_drawArc_isArc (s : ArcSeg) :
  Spec.isArc (Perspective.drawArcSegment s) = true.
Proof.
  unfold Perspective.drawArcSegment. destruct (arcAngles s). reflexivity.
Qed.

Lemma perspective_outline (arcs : list ArcSeg) (frameCount layer : Z) :
  Spec.outlineStroke (Perspective.drawLayer arcs frameCount layer)
  = Some (if Perspective.turquoise frameCount layer
          then Spec.turquoiseColor
          else grayAlpha 255
                 (lerp 255 0 (IZR layer / IZR (LAYERS - 1)) - 25)).
Proof.
  unfold Spec.outlineStroke, Perspective.drawLayer.
  cbn [app fold_left].
  rewrite outlineStroke_arcs by apply perspective_drawArc_isArc.
  cbn [app fold_left].
  destruct (Perspective.turquoise frameCount layer);
    rewrite outlineStroke_arcs by apply perspective_drawArc_isArc;
    reflexivity.
Qed.

(** A run of calls that holds neither [push] nor [pop], between a [push]
    and a [pop], is one run of the frame. *)
Lemma layerRuns_open (body tl acc : list Cmd) :
  forallb Spec.plain body = true ->
  Spec.layerRuns (body ++ pop :: tl) (Some acc)
  = (rev acc ++ body) :: Spec.layerRuns tl None.
Proof.
  revert acc. induction body as [|c body IH]; intros acc Hb.
  - cbn [app Spec.layerRuns]. rewrite app_nil_r. reflexivity.
  - cbn [forallb] in Hb. apply andb_true_iff in Hb. destruct Hb as [Hc Hb].
    cbn [app].
    assert (E : Spec.layerRuns (c :: body ++ pop :: tl) (Some acc)
                = Spec.layerRuns (body ++ pop :: tl) (Some (c :: acc))).
    { destruct c; try discriminate Hc; reflexivity. }
    rewrite E, IH by exact Hb. cbn [rev]. rewrite <- app_assoc. reflexivity.
Qed.

Lemma layerRuns_frame (body : Z -> list Cmd) (ls : list Z) :
  (forall l, forallb Spec.plain (body l) = true) ->
  Spec.layerRuns (flat_map (fun l => push :: body l ++ [pop]) ls) None
  = map body ls.
Proof.
  intros Hb. induction ls as [|l ls IH]; [reflexivity|].
  cbn [flat_map map app Spec.layerRuns].
  rewrite <- app_assoc. cbn [app].
  rewrite layerRuns_open by apply Hb.
  cbn [rev app]. rewrite IH. reflexivity.
Qed.

Lemma plain_arcs (arcs : list ArcSeg) :
  forallb Spec.plain (map Perspective.drawArcSegment arcs) = true.
Proof.
  induction arcs as [|a arcs IH]; [reflexivity|].
  cbn [map forallb]. rewrite IH.
  unfold Perspective.drawArcSegment. destruct (arcAngles a). reflexivity.
Qed.

(** The layers of the loop [for (layer = n - 1; layer >= 0; layer--)], by
    position. *)
Lemma layersFrom_nth (n : nat) :
  forall k, (k < n)%nat ->
    nth_error (layersFrom n) k = Some (Z.of_nat (n - 1 - k)).
Proof.
  induction n as [|n IH]; intros k Hk; [lia|].
  cbn [layersFrom]. destruct k as [|k]; cbn [nth_error].
  - f_equal. f_equal. lia.
  - rewrite IH by lia. f_equal. f_equal. lia.
Qed.

Lemma layersFrom_length (n : nat) : length (layersFrom n) = n.
Proof.
  induction n as [|n IH]; [reflexivity|]. cbn [layersFrom length]. lia.
Qed.

(** The frame of the perspective renderer, run by run. *)
Lemma perspective_runs (arcs : list ArcSeg) (frameCount : Z) :
  Spec.layerRuns (Perspective.draw arcs frameCount) None
  = map (fun layer =>
           [translate (Perspective.width / 2) (Perspective.height / 2);
            scale (Perspective.DEPTH_SCALE ^ Z.to_nat layer);
            stroke (gray 0);
            strokeWeight (Perspective.BLACK_W
                          / Perspective.DEPTH_SCALE ^ Z.to_nat layer)]
           ++ map Perspective.drawArcSegment arcs
           ++ [strokeWeight (Perspective.WHITE_W
                             / Perspective.DEPTH_SCALE ^ Z.to_nat layer);
               if Perspective.turquoise frameCount layer
               then stroke (rgba 0 255 255 255)
               else stroke (grayAlpha 255
                              (lerp 255 0 (IZR layer / IZR (LAYERS - 1))
                               - 25))]
           ++ map Perspective.drawArcSegment arcs)
        (layersFrom (Z.to_nat LAYERS)).
Proof.
  unfold Perspective.draw. cbn [app Spec.layerRuns].
  rewrite <- layerRuns_frame.
  - f_equal. apply flat_map_ext. intros l. unfold Perspective.drawLayer.
    cbn [app]. rewrite <- !app_assoc. reflexivity.
  - intros l. cbn [app forallb Spec.plain andb]. rewrite !forallb_app.
    rewrite !plain_arcs.
    destruct (Perspective.turquoise frameCount l);
      cbn [app forallb Spec.plain andb]; apply plain_arcs.
Qed.

(** C8. A frame of the multi-pulse renderer holds one run of calls for
    each of the LAYERS = 220 layers, from the farthest to the nearest.
    With leader = floor(frameCount / TICK) mod LAYERS, the run of layer L
    strokes its outline pass turquoise if and only if leader - L is a
    non-negative multiple k * GAP of GAP with k below the number of pulses
    unlocked, floor(leader / GAP) + 1. *)
Theorem C8_multi_pulse (arcs : list ArcSeg) (frameCount layer : Z) :
  (0 <= frameCount)%Z ->
  (0 <= layer < LAYERS)%Z ->
  let leader := ((frameCount / Perspective.TICK) mod LAYERS)%Z in
  let s := Perspective.DEPTH_SCALE ^ Z.to_nat layer in
  Perspective.leader frameCount = leader /\
  Perspective.pulses frameCount = (leader / Perspective.GAP + 1)%Z /\
  length (Spec.layerRuns (Perspective.draw arcs frameCount) None)
  = Z.to_nat LAYERS /\
  exists c,
    nth_error (Spec.layerRuns (Perspective.draw arcs frameCount) None)
              (Z.to_nat (LAYERS - 1 - layer))
    = Some ([translate (Perspective.width / 2) (Perspective.height / 2);
             scale s; stroke (gray 0);
             strokeWeight (Perspective.BLACK_W / s)]
            ++ map Perspective.drawArcSegment arcs
            ++ [strokeWeight (Perspective.WHITE_W / s); stroke c]
            ++ map Perspective.drawArcSegment arcs) /\
    (c = Spec.turquoiseColor
     <->
     exists k : Z,
       (0 <= k)%Z /\ (leader - layer = k * Perspective.GAP)%Z /\
       (k < leader / Perspective.GAP + 1)%Z).
Proof.
  intros Hf Hl leader s.
  assert (Hld : Perspective.leader frameCount = leader)
    by (apply leader_closed; exact Hf).
  split; [exact Hld|]. split; [rewrite pulses_closed, Hld; reflexivity|].
  rewrite perspective_runs.
  split; [rewrite length_map; apply layersFrom_length|].
  assert (Hn : Z.to_nat LAYERS = 220%nat) by reflexivity.
  unfold LAYERS in Hl.
  exists (if Perspective.turquoise frameCount layer
          then Spec.turquoiseColor
          else grayAlpha 255
                 (lerp 255 0 (IZR layer / IZR (LAYERS - 1)) - 25)).
  split.
  - rewrite nth_error_map, layersFrom_nth
      by (rewrite Hn; unfold LAYERS; lia).
    replace (Z.of_nat (Z.to_nat LAYERS - 1 - Z.to_nat (LAYERS - 1 - layer)))
      with layer by (rewrite Hn; unfold LAYERS; lia).
    cbn [option_map]. fold s.
    destruct (Perspective.turquoise frameCount layer); reflexivity.
  - rewrite <- Hld. rewrite <- turquoise_spec.
    destruct (Perspective.turquoise frameCount layer); split; intros H;
      try reflexivity; discriminate.
Qed.

Lemma C8_multi_pulse_witness :
  Perspective.leader 20 = 20%Z /\
  Perspective.pulses 20 = 4%Z /\
  length (Spec.layerRuns
            (Perspective.draw [mkArc 0 0 1 (Some 0) 0 true] 20) None)
  = 220%nat /\
  exists c,
    nth_error (Spec.layerRuns
                 (Perspective.draw [mkArc 0 0 1 (Some 0) 0 true] 20) None)
              211
    = Some ([translate (Perspective.width / 2) (Perspective.height / 2);
             scale (Perspective.DEPTH_SCALE ^ 8); stroke (gray 0);
             strokeWeight (Perspective.BLACK_W / Perspective.DEPTH_SCALE ^ 8)]
            ++ map Perspective.drawArcSegment [mkArc 0 0 1 (Some 0) 0 true]
            ++ [strokeWeight (Perspective.WHITE_W / Perspective.DEPTH_SCALE ^ 8);
                stroke c]
            ++ map Perspective.drawArcSegment
                 [mkArc 0 0 1 (Some 0) 0 true]) /\
    (c = Spec.turquoiseColor
     <->
     exists k : Z,
       (0 <= k)%Z /\ (20 - 8 = k * Perspective.GAP)%Z /\
       (k < 20 / Perspective.GAP + 1)%Z).
Proof.
  apply (C8_multi_pulse [mkArc 0 0 1 (Some 0) 0 true] 20 8);
    unfold LAYERS; lia.
Defined.

(** ** The recorder *)

Lemma startCapture_window (s : Capture.Recorder) :
  Capture.window_recPending (Capture.startCapture s)
  = Capture.window_recPending s.
Proof.
  unfold Capture.startCapture. destruct (Capture.recPending s); reflexivity.
Qed.

(** While the property [window.recPending] is false, a frame of the sketch
    leaves the recorder as it is. *)
Lemma frames_gate_closed (n : nat) (s : Capture.Recorder) :
  Capture.window_recPending s = false -> Capture.frames n s = Some s.
Proof.
  intros H. induction n as [|n IH]; [reflexivity|].
  cbn [Capture.frames]. unfold Capture.drawHook. rewrite H. exact IH.
Qed.

(** No function of the recorder or hook of the sketch writes the property. *)
Lemma window_recPending_stays (s : Capture.Recorder) :
  Capture.window_recPending (Capture.keyPressedR s)
    = Capture.window_recPending s /\
  Capture.window_recPending (Capture.finishCapture s)
    = Capture.window_recPending s /\
  (forall s', Capture.saveGifFrame s = Some s' ->
     Capture.window_recPending s' = Capture.window_recPending s).
Proof.
  split; [|split].
  - unfold Capture.keyPressedR.
    destruct (Capture.window_recPending s) eqn:E; cbn [negb]; [exact E|].
    rewrite startCapture_window. exact E.
  - unfold Capture.finishCapture.
    destruct (Capture.recPending s); reflexivity.
  - intros s'. unfold Capture.saveGifFrame, Capture.finishCapture.
    destruct (Capture.recPending s) eqn:Er; cbn [negb].
    + destruct (Capture.folder s); [|discriminate].
      cbn [Capture.grabCount Capture.recPending].
      destruct (Capture.REC_FRAMES <=? Capture.grabCount s + 1)%Z;
        rewrite ?Er; cbn [negb]; intros H; inversion H; reflexivity.
    + intros H; inversion H; reflexivity.
Qed.

(** Called on every frame, [saveGifFrame] stores exactly [REC_FRAMES]
    frames, closes the recording and hands over one archive; later calls
    store nothing. *)
Lemma saves_exact (extra : nat) :
  Capture.saves (Z.to_nat Capture.REC_FRAMES + extra)
                (Capture.startCapture Capture.loaded)
  = Some (Capture.mkRec false false Capture.REC_FRAMES
            (Some (map Z.of_nat (seq 0 (Z.to_nat Capture.REC_FRAMES))))
            [map Z.of_nat (seq 0 (Z.to_nat Capture.REC_FRAMES))]).
Proof.
  assert (H600 :
    Capture.saves (Z.to_nat Capture.REC_FRAMES)
                  (Capture.startCapture Capture.loaded)
    = Some (Capture.mkRec false false Capture.REC_FRAMES
              (Some (map Z.of_nat (seq 0 (Z.to_nat Capture.REC_FRAMES))))
              [map Z.of_nat (seq 0 (Z.to_nat Capture.REC_FRAMES))]))
    by (vm_compute; reflexivity).
  assert (Hsplit : forall a b s,
    Capture.saves (a + b) s
    = match Capture.saves a s with
      | Some s' => Capture.saves b s'
      | None => None
      end).
  { induction a as [|a IH]; intros b s; [reflexivity|].
    cbn [Nat.add Capture.saves].
    destruct (Capture.saveGifFrame s); [apply IH | reflexivity]. }
  rewrite Hsplit, H600.
  induction extra as [|k IH]; [reflexivity|].
  cbn [Capture.saves]. exact IH.
Qed.

(** C9 (what the code does). After the script is loaded and the capture is
    started with the key R, the property [window.recPending] that the
    sketch tests is still false, so however many frames are drawn no frame
    is handed to [saveGifFrame]: the count stays 0, the recording never
    ends and no archive is produced. *)
Theorem C9_gate_never_opens (n : nat) :
  Capture.keyPressedR Capture.loaded = Capture.startCapture Capture.loaded /\
  Capture.recPending (Capture.startCapture Capture.loaded) = true /\
  Capture.window_recPending (Capture.startCapture Capture.loaded) = false /\
  Capture.frames n (Capture.startCapture Capture.loaded)
  = Some (Capture.mkRec false true 0 (Some []) []).
Proof.
  split; [reflexivity|]. split; [reflexivity|]. split; [reflexivity|].
  rewrite frames_gate_closed by reflexivity. reflexivity.
Qed.

(** ** The viewport fitter *)

Section Extent.
Variables (f : Circle -> R).

Lemma lowest_acc (rest : list Circle) (acc : R) :
  fold_left (fun m c => Rmin m (f c - radius c)) rest acc <= acc.
Proof.
  revert acc. induction rest as [|c rest IH]; intros acc; cbn [fold_left].
  - lra.
  - eapply Rle_trans; [apply IH | apply Rmin_l].
Qed.

Lemma highest_acc (rest : list Circle) (acc : R) :
  acc <= fold_left (fun m c => Rmax m (f c + radius c)) rest acc.
Proof.
  revert acc. induction rest as [|c rest IH]; intros acc; cbn [fold_left].
  - lra.
  - eapply Rle_trans; [apply Rmax_l | apply IH].
Qed.

(** The image of the extent under a scaling by [k >= 0] about [m], moved
    to [o]. *)
Variables (g : Circle -> Circle) (m k o : R).
Hypothesis k_nonneg : 0 <= k.
Hypothesis g_pos : forall c, f (g c) = (f c - m) * k + o.
Hypothesis g_radius : forall c, radius (g c) = radius c * k.

Lemma Rmin_scale (a b : R) :
  Rmin ((a - m) * k + o) ((b - m) * k + o) = (Rmin a b - m) * k + o.
Proof.
  unfold Rmin.
  destruct (Rle_dec a b) as [Hab|Hab];
    destruct (Rle_dec ((a - m) * k + o) ((b - m) * k + o)) as [H|H];
    try reflexivity; nra.
Qed.

Lemma Rmax_scale (a b : R) :
  Rmax ((a - m) * k + o) ((b - m) * k + o) = (Rmax a b - m) * k + o.
Proof.
  unfold Rmax.
  destruct (Rle_dec a b) as [Hab|Hab];
    destruct (Rle_dec ((a - m) * k + o) ((b - m) * k + o)) as [H|H];
    try reflexivity; nra.
Qed.

Lemma lowest_image (c0 : Circle) (rest : list Circle) :
  Perspective.lowest f (g c0) (map g rest)
  = (Perspective.lowest f c0 rest - m) * k + o.
Proof.
  unfold Perspective.lowest.
  replace (f (g c0) - radius (g c0))
    with ((f c0 - radius c0 - m) * k + o)
    by (rewrite g_pos, g_radius; ring).
  generalize (f c0 - radius c0) as acc.
  induction rest as [|c rest IH]; intros acc; cbn [map fold_left].
  - reflexivity.
  - replace (f (g c) - radius (g c)) with ((f c - radius c - m) * k + o)
      by (rewrite g_pos, g_radius; ring).
    rewrite Rmin_scale. apply IH.
Qed.

Lemma highest_image (c0 : Circle) (rest : list Circle) :
  Perspective.highest f (g c0) (map g rest)
  = (Perspective.highest f c0 rest - m) * k + o.
Proof.
  unfold Perspective.highest.
  replace (f (g c0) + radius (g c0))
    with ((f c0 + radius c0 - m) * k + o)
    by (rewrite g_pos, g_radius; ring).
  generalize (f c0 + radius c0) as acc.
  induction rest as [|c rest IH]; intros acc; cbn [map fold_left].
  - reflexivity.
  - replace (f (g c) + radius (g c)) with ((f c + radius c - m) * k + o)
      by (rewrite g_pos, g_radius; ring).
    rewrite Rmax_scale. apply IH.
Qed.

End Extent.

(** The extent along an axis is at least the diameter of the first circle. *)
Lemma extent_positive (f : Circle -> R) (c0 : Circle) (rest : list Circle) :
  0 < radius c0 ->
  0 < Perspective.highest f c0 rest - Perspective.lowest f c0 rest.
Proof.
  intros Hr. unfold Perspective.highest, Perspective.lowest.
  pose proof (lowest_acc f rest (f c0 - radius c0)).
  pose proof (highest_acc f rest (f c0 + radius c0)).
  lra.
Qed.

Lemma limit_value : Perspective.limit = 1040.
Proof. unfold Perspective.limit, Perspective.VIEWPORT, Perspective.VIEW_PAD. lra. Qed.

Lemma fitScale_range (c0 : Circle) (rest : list Circle) :
  0 < radius c0 ->
  0 < Perspective.fitScale c0 rest <= 1.
Proof.
  intros Hr. unfold Perspective.fitScale.
  pose proof (extent_positive x c0 rest Hr) as Hw.
  pose proof (extent_positive y c0 rest Hr) as Hh.
  pose proof limit_value as HL.
  split; [|apply Rmin_l].
  apply Rmin_glb_lt; [lra|].
  apply Rmin_glb_lt; apply Rdiv_lt_0_compat; lra.
Qed.

Lemma fitScale_fits (c0 : Circle) (rest : list Circle) :
  0 < radius c0 ->
  (Perspective.highest x c0 rest - Perspective.lowest x c0 rest)
    * Perspective.fitScale c0 rest <= Perspective.limit /\
  (Perspective.highest y c0 rest - Perspective.lowest y c0 rest)
    * Perspective.fitScale c0 rest <= Perspective.limit.
Proof.
  intros Hr.
  pose proof (extent_positive x c0 rest Hr) as Hw.
  pose proof (extent_positive y c0 rest Hr) as Hh.
  unfold Perspective.fitScale.
  set (bw := Perspective.highest x c0 rest - Perspective.lowest x c0 rest) in *.
  set (bh := Perspective.highest y c0 rest - Perspective.lowest y c0 rest) in *.
  set (L := Perspective.limit).
  assert (H1 : Rmin 1 (Rmin (L / bw) (L / bh)) <= L / bw).
  { eapply Rle_trans; [apply Rmin_r | apply Rmin_l]. }
  assert (H2 : Rmin 1 (Rmin (L / bw) (L / bh)) <= L / bh).
  { eapply Rle_trans; [apply Rmin_r | apply Rmin_r]. }
  split.
  - apply Rle_trans with (bw * (L / bw)).
    + apply Rmult_le_compat_l; lra.
    + right. field. lra.
  - apply Rle_trans with (bh * (L / bh)).
    + apply Rmult_le_compat_l; lra.
    + right. field. lra.
Qed.

(** The highest extent is at least that of every circle. *)
Lemma highest_ge (f : Circle -> R) (rest : list Circle) :
  forall acc c, In c rest ->
    f c + radius c <= fold_left (fun m c => Rmax m (f c + radius c)) rest acc.
Proof.
  induction rest as [|d rest IH]; intros acc c Hc; [destruct Hc|].
  cbn [fold_left]. destruct Hc as [Hc|Hc].
  - subst d. eapply Rle_trans; [apply Rmax_r | apply highest_acc].
  - apply IH. exact Hc.
Qed.

(** The lowest extent is at most that of every circle. *)
Lemma lowest_le (f : Circle -> R) (rest : list Circle) :
  forall acc c, In c rest ->
    fold_left (fun m c => Rmin m (f c - radius c)) rest acc <= f c - radius c.
Proof.
  induction rest as [|d rest IH]; intros acc c Hc; [destruct Hc|].
  cbn [fold_left]. destruct Hc as [Hc|Hc].
  - subst d. eapply Rle_trans; [apply lowest_acc | apply Rmin_r].
  - apply IH. exact Hc.
Qed.

(** Each accumulator ends at its first value or at the extent of a circle
    of the loop. *)
Lemma lowest_reached (f : Circle -> R) (rest : list Circle) :
  forall acc,
    fold_left (fun m c => Rmin m (f c - radius c)) rest acc = acc \/
    exists c, In c rest /\
      f c - radius c = fold_left (fun m c => Rmin m (f c - radius c)) rest acc.
Proof.
  induction rest as [|d rest IH]; intros acc; cbn [fold_left].
  - left. reflexivity.
  - destruct (IH (Rmin acc (f d - radius d))) as [E|[c [Hc E]]].
    + rewrite E. unfold Rmin. destruct (Rle_dec acc (f d - radius d)).
      * left. reflexivity.
      * right. exists d. split; [left; reflexivity | reflexivity].
    + right. exists c. split; [right; exact Hc | exact E].
Qed.

Lemma highest_reached (f : Circle -> R) (rest : list Circle) :
  forall acc,
    fold_left (fun m c => Rmax m (f c + radius c)) rest acc = acc \/
    exists c, In c rest /\
      f c + radius c = fold_left (fun m c => Rmax m (f c + radius c)) rest acc.
Proof.
  induction rest as [|d rest IH]; intros acc; cbn [fold_left].
  - left. reflexivity.
  - destruct (IH (Rmax acc (f d + radius d))) as [E|[c [Hc E]]].
    + rewrite E. unfold Rmax. destruct (Rle_dec acc (f d + radius d)).
      * right. exists d. split; [left; reflexivity | reflexivity].
      * left. reflexivity.
    + right. exists c. split; [right; exact Hc | exact E].
Qed.

(** The accumulators of the fitter hold the sides of the bounding box. *)
Lemma extent_bounds (f : Circle -> R) (c0 : Circle) (rest : list Circle) :
  Spec.bounds f (c0 :: rest)
    (Perspective.lowest f c0 rest) (Perspective.highest f c0 rest).
Proof.
  unfold Spec.bounds, Perspective.lowest, Perspective.highest.
  split; [|split].
  - intros c [Hc|Hc].
    + subst c. split; [apply lowest_acc | apply highest_acc].
    + split; [apply lowest_le | apply highest_ge]; exact Hc.
  - destruct (lowest_reached f rest (f c0 - radius c0)) as [E|[c [Hc E]]].
    + exists c0. split; [left; reflexivity | symmetry; exact E].
    + exists c. split; [right; exact Hc | exact E].
  - destruct (highest_reached f rest (f c0 + radius c0)) as [E|[c [Hc E]]].
    + exists c0. split; [left; reflexivity | symmetry; exact E].
    + exists c. split; [right; exact Hc | exact E].
Qed.

(** C7. For a non-empty list whose first circle has a positive radius,
    the accumulators of the fitter hold the sides of the bounding box of
    the circles, radii included.  The fitter scales every circle about the
    centre of that box by min(1, limit / width, limit / height), a factor
    in (0, 1], with limit = VIEWPORT - 2 * VIEW_PAD = 1040, and moves the
    centre of the box to the centre of the canvas.  Afterwards the bounding
    box of the circles is [width * k] wide and [height * k] high, at most
    [limit] each way, and centred on the canvas: every circle lies, radius
    included, between VIEW_PAD = 20 and VIEWPORT - VIEW_PAD = 1060 on both
    axes. *)
Theorem C7_fit (c0 : Circle) (rest : list Circle) :
  0 < radius c0 ->
  let bw := Perspective.highest x c0 rest - Perspective.lowest x c0 rest in
  let bh := Perspective.highest y c0 rest - Perspective.lowest y c0 rest in
  let k := Rmin 1 (Rmin (Perspective.limit / bw) (Perspective.limit / bh)) in
  Perspective.limit = 1040 /\ 0 < k <= 1 /\
  Spec.bounds x (c0 :: rest)
    (Perspective.lowest x c0 rest) (Perspective.highest x c0 rest) /\
  Spec.bounds y (c0 :: rest)
    (Perspective.lowest y c0 rest) (Perspective.highest y c0 rest) /\
  exists d0 ds,
    Perspective.fitRibbonToViewport (c0 :: rest) = d0 :: ds /\
    d0 :: ds
    = map (Shape.similarity k
             ((Perspective.lowest x c0 rest + Perspective.highest x c0 rest)
              * (1 / 2))
             ((Perspective.lowest y c0 rest + Perspective.highest y c0 rest)
              * (1 / 2))
             (CANVAS_W * (1 / 2)) (CANVAS_H * (1 / 2)))
          (c0 :: rest) /\
    map radius (d0 :: ds) = map (fun c => radius c * k) (c0 :: rest) /\
    Perspective.highest x d0 ds - Perspective.lowest x d0 ds = bw * k /\
    Perspective.highest y d0 ds - Perspective.lowest y d0 ds = bh * k /\
    Perspective.highest x d0 ds - Perspective.lowest x d0 ds
      <= Perspective.limit /\
    Perspective.highest y d0 ds - Perspective.lowest y d0 ds
      <= Perspective.limit /\
    (Perspective.lowest x d0 ds + Perspective.highest x d0 ds) / 2
      = CANVAS_W / 2 /\
    (Perspective.lowest y d0 ds + Perspective.highest y d0 ds) / 2
      = CANVAS_H / 2 /\
    Spec.bounds x (d0 :: ds)
      (CANVAS_W / 2 - bw * k / 2) (CANVAS_W / 2 + bw * k / 2) /\
    Spec.bounds y (d0 :: ds)
      (CANVAS_H / 2 - bh * k / 2) (CANVAS_H / 2 + bh * k / 2) /\
    bw * k <= Perspective.limit /\ bh * k <= Perspective.limit /\
    forall d, In d (d0 :: ds) ->
      Perspective.VIEW_PAD <= x d - radius d /\
      x d + radius d <= Perspective.VIEWPORT - Perspective.VIEW_PAD /\
      Perspective.VIEW_PAD <= y d - radius d /\
      y d + radius d <= Perspective.VIEWPORT - Perspective.VIEW_PAD.
Proof.
  intros Hr bw bh k.
  pose proof (fitScale_range c0 rest Hr) as Hk.
  pose proof (fitScale_fits c0 rest Hr) as [Hfw Hfh].
  change (Perspective.fitScale c0 rest) with k in Hk, Hfw, Hfh.
  fold bw in Hfw. fold bh in Hfh.
  pose proof limit_value as HL.
  split; [exact HL|]. split; [exact Hk|].
  split; [apply extent_bounds|]. split; [apply extent_bounds|].
  set (mx := (Perspective.lowest x c0 rest + Perspective.highest x c0 rest)
             * (1 / 2)).
  set (my := (Perspective.lowest y c0 rest + Perspective.highest y c0 rest)
             * (1 / 2)).
  set (g := fun c => mkCircle ((x c - mx) * k + CANVAS_W * (1 / 2))
                              ((y c - my) * k + CANVAS_H * (1 / 2))
                              (radius c * k) (edge c)).
  exists (g c0), (map g rest).
  assert (Hk0 : 0 <= k) by lra.
  assert (Hlx := lowest_image x g mx k (CANVAS_W * (1 / 2)) Hk0
                   (fun c => eq_refl) (fun c => eq_refl) c0 rest).
  assert (Hhx := highest_image x g mx k (CANVAS_W * (1 / 2)) Hk0
                   (fun c => eq_refl) (fun c => eq_refl) c0 rest).
  assert (Hly := lowest_image y g my k (CANVAS_H * (1 / 2)) Hk0
                   (fun c => eq_refl) (fun c => eq_refl) c0 rest).
  assert (Hhy := highest_image y g my k (CANVAS_H * (1 / 2)) Hk0
                   (fun c => eq_refl) (fun c => eq_refl) c0 rest).
  pose proof (extent_bounds x (g c0) (map g rest)) as Hbx.
  pose proof (extent_bounds y (g c0) (map g rest)) as Hby.
  rewrite Hlx, Hhx in Hbx. rewrite Hly, Hhy in Hby.
  replace ((Perspective.lowest x c0 rest - mx) * k + CANVAS_W * (1 / 2))
    with (CANVAS_W / 2 - bw * k / 2) in Hbx by (unfold mx, bw; field).
  replace ((Perspective.highest x c0 rest - mx) * k + CANVAS_W * (1 / 2))
    with (CANVAS_W / 2 + bw * k / 2) in Hbx by (unfold mx, bw; field).
  replace ((Perspective.lowest y c0 rest - my) * k + CANVAS_H * (1 / 2))
    with (CANVAS_H / 2 - bh * k / 2) in Hby by (unfold my, bh; field).
  replace ((Perspective.highest y c0 rest - my) * k + CANVAS_H * (1 / 2))
    with (CANVAS_H / 2 + bh * k / 2) in Hby by (unfold my, bh; field).
  rewrite Hlx, Hhx, Hly, Hhy.
  split; [reflexivity|]. split; [reflexivity|].
  split; [cbn [map]; rewrite map_map; reflexivity|].
  split; [unfold bw; ring|]. split; [unfold bh; ring|].
  split; [unfold bw in Hfw; lra|]. split; [unfold bh in Hfh; lra|].
  split; [unfold mx; field|]. split; [unfold my; field|].
  split; [exact Hbx|]. split; [exact Hby|].
  split; [exact Hfw|]. split; [exact Hfh|].
  intros d Hd.
  destruct Hbx as [Hbx _]. destruct Hby as [Hby _].
  pose proof (Hbx d Hd) as [Hx1 Hx2]. pose proof (Hby d Hd) as [Hy1 Hy2].
  unfold Perspective.VIEW_PAD, Perspective.VIEWPORT, CANVAS_W, CANVAS_H in *.
  lra.
Qed.

Lemma C7_fit_witness :
  exists d0 d1,
    Perspective.fitRibbonToViewport
      [mkCircle 0 0 1000 (Some 0%Z); mkCircle 3000 0 500 None] = [d0; d1] /\
    Perspective.fitScale (mkCircle 0 0 1000 (Some 0%Z))
                         [mkCircle 3000 0 500 None] = 1040 / 4500 /\
    Spec.bounds x [mkCircle 0 0 1000 (Some 0%Z); mkCircle 3000 0 500 None]
                (- 1000) 3500 /\
    Spec.bounds x [d0; d1] 20 1060 /\
    forall d, In d [d0; d1] ->
      20 <= x d - radius d /\ x d + radius d <= 1060 /\
      20 <= y d - radius d /\ y d + radius d <= 1060.
Proof.
  pose proof (C7_fit (mkCircle 0 0 1000 (Some 0%Z))
                [mkCircle 3000 0 500 None]) as H.
  cbv zeta in H.
  assert (Elx : Perspective.lowest x (mkCircle 0 0 1000 (Some 0%Z))
                  [mkCircle 3000 0 500 None] = - 1000).
  { unfold Perspective.lowest. cbn [fold_left x radius].
    unfold Rmin. destruct (Rle_dec (0 - 1000) (3000 - 500)); lra. }
  assert (Ehx : Perspective.highest x (mkCircle 0 0 1000 (Some 0%Z))
                  [mkCircle 3000 0 500 None] = 3500).
  { unfold Perspective.highest. cbn [fold_left x radius].
    unfold Rmax. destruct (Rle_dec (0 + 1000) (3000 + 500)); lra. }
  assert (Ely : Perspective.lowest y (mkCircle 0 0 1000 (Some 0%Z))
                  [mkCircle 3000 0 500 None] = - 1000).
  { unfold Perspective.lowest. cbn [fold_left y radius].
    unfold Rmin. destruct (Rle_dec (0 - 1000) (0 - 500)); lra. }
  assert (Ehy : Perspective.highest y (mkCircle 0 0 1000 (Some 0%Z))
                  [mkCircle 3000 0 500 None] = 1000).
  { unfold Perspective.highest. cbn [fold_left y radius].
    unfold Rmax. destruct (Rle_dec (0 + 1000) (0 + 500)); lra. }
  assert (Ek : Rmin 1 (Rmin (Perspective.limit / (3500 - - 1000))
                            (Perspective.limit / (1000 - - 1000)))
               = 1040 / 4500).
  { rewrite limit_value. unfold Rmin.
    destruct (Rle_dec (1040 / (3500 - - 1000)) (1040 / (1000 - - 1000)));
      destruct (Rle_dec 1 _); lra. }
  rewrite Elx, Ehx, Ely, Ehy, Ek in H.
  destruct H as [_ [_ [Hbx [_ [d0 [ds [E [Em [_ [_ [_ [_ [_ [_ [_
                  [Hfx [_ [_ [_ Hin]]]]]]]]]]]]]]]]]]].
  - cbn [radius]. lra.
  - destruct ds as [|d1 [|d2 ds]]; try discriminate Em.
    exists d0, d1. split; [exact E|].
    split.
    { unfold Perspective.fitScale. rewrite Elx, Ehx, Ely, Ehy. exact Ek. }
    split; [exact Hbx|].
    split.
    { replace 20 with (CANVAS_W / 2 - (3500 - - 1000) * (1040 / 4500) / 2)
        by (unfold CANVAS_W; field).
      replace 1060 with (CANVAS_W / 2 + (3500 - - 1000) * (1040 / 4500) / 2)
        by (unfold CANVAS_W; field).
      exact Hfx. }
    intros d Hd. pose proof (Hin d Hd) as Hd'.
    unfold Perspective.VIEW_PAD, Perspective.VIEWPORT in Hd'. lra.
Defined.


(** ** Random draws *)

Section Draws.
Variable rnd : nat -> R.
Hypothesis rnd_unit : Spec.unitDraws rnd.

Lemma random1_spec (hi : R) (i : nat) :
  0 < hi ->
  exists v, random1 rnd hi i = (v, S i) /\ 0 <= v < hi.
Proof.
  intros Hhi. exists (rnd i * hi). split; [reflexivity|].
  pose proof (rnd_unit i). nra.
Qed.

Lemma random2_spec (lo hi : R) (i : nat) :
  lo <= hi ->
  exists v, random2 rnd lo hi i = (v, S i) /\ lo <= v <= hi /\
            (lo < hi -> v < hi).
Proof.
  intros Hle. unfold random2.
  destruct (Rlt_dec hi lo) as [H|H]; [lra|].
  exists (rnd i * (hi - lo) + lo). split; [reflexivity|].
  pose proof (rnd_unit i). split; [nra|]. intros Hlt. nra.
Qed.

(** Whatever the bounds, [random] consumes one draw. *)
Lemma random2_index (lo hi : R) (i : nat) : snd (random2 rnd lo hi i) = S i.
Proof. unfold random2. destruct (Rlt_dec hi lo); reflexivity. Qed.

Lemma radius_draw (i : nat) :
  exists v, random2 rnd MIN_R MAX_R i = (v, S i) /\ MIN_R <= v < MAX_R.
Proof.
  destruct (random2_spec MIN_R MAX_R i) as [v [E [Hv Hlt]]].
  { unfold MIN_R, MAX_R. lra. }
  exists v. split; [exact E|].
  split; [lra | apply Hlt; unfold MIN_R, MAX_R; lra].
Qed.

Lemma edge_draw (i : nat) :
  exists v, random1 rnd 4 i = (v, S i) /\ (0 <= floor v <= 3)%Z.
Proof.
  destruct (random1_spec 4 i) as [v [E Hv]]; [lra|].
  exists v. split; [exact E|].
  pose proof (floor_bounds v 0 4 ltac:(lra) ltac:(lra)). lia.
Qed.

End Draws.

(** ** Chains *)

Lemma nth_error_snoc {A : Type} (l : list A) (a b : A) (i : nat) :
  nth_error (l ++ [a]) i = Some b ->
  ((i < length l)%nat /\ nth_error l i = Some b) \/
  (i = length l /\ b = a).
Proof.
  intros H. destruct (Nat.lt_ge_cases i (length l)) as [Hlt|Hge].
  - left. split; [exact Hlt|]. rewrite nth_error_app1 in H by exact Hlt.
    exact H.
  - right. rewrite nth_error_app2 in H by exact Hge.
    destruct (i - length l)%nat as [|k] eqn:E.
    + cbn in H. inversion H. split; [lia | reflexivity].
    + cbn in H. destruct k; discriminate.
Qed.

Lemma rev_last {A : Type} (l : list A) (a : A) (tl : list A) :
  rev l = a :: tl ->
  nth_error l (length l - 1) = Some a /\ (0 < length l)%nat.
Proof.
  intros H. assert (Hl : l = rev tl ++ [a]).
  { rewrite <- (rev_involutive l), H. reflexivity. }
  subst l. rewrite length_app. cbn [length]. split; [|lia].
  rewrite nth_error_app2 by lia.
  replace (length (rev tl) + 1 - 1 - length (rev tl))%nat with 0%nat by lia.
  reflexivity.
Qed.

Lemma rev_nonempty {A : Type} (l : list A) :
  l <> [] -> exists a tl, rev l = a :: tl.
Proof.
  intros H. destruct (rev l) as [|a tl] eqn:E.
  - exfalso. apply H. rewrite <- (rev_involutive l), E. reflexivity.
  - exists a, tl. reflexivity.
Qed.

(** Appending a circle that touches the tail and is apart from all. *)
Lemma chainInv_snoc (eps : R) (cs : list Circle) (last next : Circle)
  (tl : list Circle) :
  Spec.chainInv eps cs ->
  rev cs = last :: tl ->
  Spec.centres next last = radius next + radius last ->
  MIN_R <= radius next < MAX_R ->
  Forall (fun c => radius c + radius next - eps <= Spec.centres c next) cs ->
  Spec.chainInv eps (cs ++ [next]).
Proof.
  intros [Hne [Hr [Ht Ha]]] Hrev Htan Hrad Hfar.
  destruct (rev_last cs last tl Hrev) as [Hlast Hlen].
  split; [|split; [|split]].
  - destruct cs; discriminate.
  - unfold Spec.radiiInRange. apply Forall_app. split; [exact Hr|].
    constructor; [exact Hrad | constructor].
  - intros i a b Hi Hj.
    destruct (nth_error_snoc cs next b (S i) Hj) as [[Hlt Hb]|[He Hb]].
    + rewrite nth_error_app1 in Hi by lia. exact (Ht i a b Hi Hb).
    + subst b. rewrite nth_error_app1 in Hi by lia.
      replace i with (length cs - 1)%nat in Hi by lia.
      rewrite Hlast in Hi. inversion Hi. subst a. exact Htan.
  - intros i j a b Hij Hi Hj.
    destruct (nth_error_snoc cs next b j Hj) as [[Hlt Hb]|[He Hb]].
    + rewrite nth_error_app1 in Hi by lia. exact (Ha i j a b Hij Hi Hb).
    + subst b. rewrite nth_error_app1 in Hi by lia.
      rewrite Forall_forall in Hfar. apply Hfar.
      eapply nth_error_In. exact Hi.
Qed.

Lemma chainInv_separated (eps : R) (cs : list Circle) :
  Spec.chainInv eps cs -> Spec.tangentChain cs /\ Spec.separated eps cs.
Proof.
  intros [_ [_ [Ht Ha]]]. split; [exact Ht|].
  intros i j a b Hij. apply Ha. lia.
Qed.

Lemma chainInv_single (eps : R) (c : Circle) :
  MIN_R <= radius c < MAX_R -> Spec.chainInv eps [c].
Proof.
  intros Hr. split; [discriminate|]. split; [|split].
  - constructor; [exact Hr | constructor].
  - intros i a b Hi Hj. destruct i; cbn in Hj; [discriminate|].
    destruct i; discriminate.
  - intros i j a b Hij Hi Hj. destruct j; [lia|]. cbn in Hj.
    destruct j; discriminate.
Qed.

Lemma existsb_false_Forall {A : Type} (f : A -> bool) (l : list A) :
  existsb f l = false -> Forall (fun a => f a = false) l.
Proof.
  induction l as [|a l IH]; intros H; [constructor|].
  cbn [existsb] in H. apply orb_false_iff in H. destruct H as [Ha Hl].
  constructor; [exact Ha | apply IH; exact Hl].
Qed.

(** ** The greedy walk *)

Section WalkProofs.
Variable rnd : nat -> R.
Hypothesis rnd_unit : Spec.unitDraws rnd.

Lemma walk_seed_spec (i : nat) :
  exists c0 j, Walk.seed rnd i = (c0, j) /\ Spec.isSeed c0 /\
               MIN_R <= radius c0 < MAX_R.
Proof.
  unfold Walk.seed, bind, ret.
  destruct (edge_draw rnd rnd_unit i) as [e [Ee He]]. rewrite Ee.
  destruct (radius_draw rnd rnd_unit (S i)) as [r0 [Er Hr]]. rewrite Er.
  assert (Hs : Spec.isSeed_edge (floor e)) by exact He.
  destruct (floor e =? 1)%Z, (floor e =? 3)%Z, (floor e =? 0)%Z,
    (floor e =? 2)%Z;
    repeat lazymatch goal with
      | |- context [random2 rnd ?a ?b ?k] =>
          destruct (random2 rnd a b k) as [? ?]
      end;
    (eexists; eexists; split; [reflexivity|]; split;
     [exists (floor e); split; [reflexivity | exact Hs] | exact Hr]).
Qed.

Lemma walk_candidate_spec (cs : list Circle) (last : Circle) (i : nat) :
  MIN_R <= radius last ->
  exists next j,
    Walk.candidate rnd cs last i = (next, j) /\
    MIN_R <= radius next < MAX_R /\
    Spec.centres next last = radius next + radius last.
Proof.
  intros Hl. unfold Walk.candidate, bind, ret.
  destruct (radius_draw rnd rnd_unit i) as [newR [Er Hr]]. rewrite Er.
  destruct (if (Walk.len cs <? 30)%Z then Walk.safeAngle rnd last
            else random1 rnd TWO_PI) as [ang j] eqn:Ea.
  eexists. exists j. split; [reflexivity|].
  cbn [radius x y]. split; [exact Hr|].
  unfold Spec.centres. cbn [radius x y]. rewrite dist_sym.
  rewrite dist_polar; [lra|]. unfold MIN_R in *. lra.
Qed.

Lemma walk_no_overlap (cs : list Circle) (next : Circle) :
  Walk.overlapsAny cs next = false ->
  Forall (fun c => radius c + radius next - 0 <= Spec.centres c next) cs.
Proof.
  intros H. apply existsb_false_Forall in H.
  eapply Forall_impl; [|exact H]. cbn beta. intros c Hc.
  apply Rltb_false in Hc. unfold Spec.centres. lra.
Qed.

Lemma grow_spec (fuel : nat) :
  forall st,
    Spec.chainInv 0 (Walk.circles st) ->
    (Walk.len (Walk.circles st) <= Walk.MAX_CIRCLES)%Z ->
    (0 <= Walk.attempts st < Walk.MAX_ATTEMPTS)%Z ->
    (Walk.MAX_ATTEMPTS <= Walk.attempts st + Z.of_nat fuel)%Z ->
    exists st',
      Walk.grow rnd fuel st = Some st' /\
      Spec.chainInv 0 (Walk.circles st') /\
      (exists tl, Walk.circles st' = Walk.circles st ++ tl) /\
      (Walk.len (Walk.circles st') <= Walk.MAX_CIRCLES)%Z /\
      (Walk.attempts st < Walk.attempts st' <= Walk.MAX_ATTEMPTS)%Z /\
      ((Walk.attempts st' < Walk.MAX_ATTEMPTS)%Z -> Spec.walkEnded st').
Proof.
  induction fuel as [|fuel IH]; intros st Hinv Hcap Hatt Hfuel.
  - lia.
  - cbn [Walk.grow].
    destruct (Walk.attempts st + 1 <? Walk.MAX_ATTEMPTS)%Z eqn:Ea;
      cbn [negb].
    2:{ apply Z.ltb_ge in Ea. eexists. split; [reflexivity|].
        cbn [Walk.circles Walk.attempts].
        split; [exact Hinv|]. split; [exists []; symmetry; apply app_nil_r|].
        split; [exact Hcap|]. split; [lia|]. lia. }
    apply Z.ltb_lt in Ea.
    destruct (Walk.len (Walk.circles st) <? Walk.MAX_CIRCLES)%Z eqn:El;
      cbn [negb].
    2:{ apply Z.ltb_ge in El. eexists. split; [reflexivity|].
        cbn [Walk.circles Walk.attempts].
        split; [exact Hinv|]. split; [exists []; symmetry; apply app_nil_r|].
        split; [exact Hcap|]. split; [lia|]. intros _. left.
        cbn [Walk.circles]. lia. }
    apply Z.ltb_lt in El.
    destruct Hinv as [Hne Hrest].
    destruct (rev_nonempty _ Hne) as [last [tl Hrev]]. rewrite Hrev.
    assert (Hinv : Spec.chainInv 0 (Walk.circles st)) by (split; assumption).
    assert (Hlast : MIN_R <= radius last).
    { destruct Hrest as [Hr _]. unfold Spec.radiiInRange in Hr.
      rewrite Forall_forall in Hr.
      destruct (rev_last _ _ _ Hrev) as [Hn _].
      apply nth_error_In in Hn. apply Hr in Hn. lra. }
    destruct (walk_candidate_spec (Walk.circles st) last (Walk.rng st) Hlast)
      as [next [j [Ec [Hr Ht]]]].
    rewrite Ec.
    destruct (Walk.overlapsAny (Walk.circles st) next) eqn:Eo.
    + destruct (IH (Walk.mkWalk (Walk.circles st) (Walk.attempts st + 1) j))
        as [st' [Eg [Hi' [Htl [Hc' [Ha' He']]]]]];
        cbn [Walk.circles Walk.attempts]; try assumption; try lia.
      exists st'. split; [exact Eg|]. split; [exact Hi'|].
      split; [exact Htl|]. split; [exact Hc'|].
      cbn [Walk.attempts] in Ha'. split; [lia | exact He'].
    + assert (Hinv' : Spec.chainInv 0 (Walk.circles st ++ [next])).
      { eapply chainInv_snoc; eauto. apply walk_no_overlap. exact Eo. }
      assert (Hlen' : Walk.len (Walk.circles st ++ [next])
                      = (Walk.len (Walk.circles st) + 1)%Z).
      { unfold Walk.len. rewrite length_app. cbn [length]. lia. }
      destruct ((30 <=? Walk.len (Walk.circles st ++ [next]))%Z
                && Walk.isOutside next) eqn:Eb.
      * apply andb_true_iff in Eb. destruct Eb as [E30 Eout].
        apply Z.leb_le in E30.
        eexists. split; [reflexivity|]. cbn [Walk.circles Walk.attempts].
        split; [exact Hinv'|]. split; [exists [next]; reflexivity|].
        split; [lia|]. split; [lia|]. intros _. right.
        cbn [Walk.circles]. split; [exact E30|]. exists next, (rev (Walk.circles st)).
        split; [apply rev_unit | exact Eout].
      * destruct (IH (Walk.mkWalk (Walk.circles st ++ [next])
                                  (Walk.attempts st + 1) j))
          as [st' [Eg [Hi' [[tl' Htl] [Hc' [Ha' He']]]]]];
          cbn [Walk.circles Walk.attempts]; try assumption; try lia.
        exists st'. split; [exact Eg|]. split; [exact Hi'|].
        cbn [Walk.circles] in Htl.
        split; [exists (next :: tl'); rewrite Htl, <- app_assoc; reflexivity|].
        split; [exact Hc'|].
        cbn [Walk.attempts] in Ha'. split; [lia | exact He'].
Qed.

(** The walk returns, and what it returns. *)
Lemma walk_generate_spec (i : nat) :
  exists c0 tl st,
    Walk.generateState rnd i = Some st /\
    Walk.circles st = c0 :: tl /\
    c0 = fst (Walk.seed rnd i) /\
    Spec.isSeed c0 /\
    Spec.chainInv 0 (Walk.circles st) /\
    (0 < Walk.attempts st <= Walk.MAX_ATTEMPTS)%Z /\
    ((Walk.attempts st < Walk.MAX_ATTEMPTS)%Z -> Spec.walkEnded st).
Proof.
  unfold Walk.generateState.
  destruct (walk_seed_spec i) as [c0 [j [Es [Hseed Hr]]]]. rewrite Es.
  destruct (grow_spec (Z.to_nat Walk.MAX_ATTEMPTS) (Walk.mkWalk [c0] 0 j))
    as [st [Eg [Hinv [[tl Htl] [_ [Ha He]]]]]];
    cbn [Walk.circles Walk.attempts].
  - apply chainInv_single. exact Hr.
  - unfold Walk.len, Walk.MAX_CIRCLES. cbn [length]. lia.
  - unfold Walk.MAX_ATTEMPTS. lia.
  - rewrite Z2Nat.id by (unfold Walk.MAX_ATTEMPTS; lia). lia.
  - exists c0, tl, st. split; [exact Eg|].
    cbn [Walk.circles] in Htl. split; [exact Htl|].
    split; [reflexivity|]. split; [exact Hseed|].
    split; [exact Hinv|]. cbn [Walk.attempts] in Ha. split; [lia | exact He].
Qed.

End WalkProofs.

(** ** The back-tracking search *)

Lemma angle_step_pos : 0 < Perspective.ANGLE_STEP.
Proof.
  unfold Perspective.ANGLE_STEP, TWO_PI. pose proof PI_RGT_0. lra.
Qed.

Lemma angle_step_64 : 64 * Perspective.ANGLE_STEP = TWO_PI.
Proof. unfold Perspective.ANGLE_STEP. field. Qed.

(** The fan makes its turns at the angles 0, ANGLE_STEP, ..., and stops
    after the 64th; [n] is the number of turns still to make. *)
Lemma fan_run (P : Perspective.DfsState -> Prop)
  (body : R -> Perspective.DfsState -> option Perspective.DfsState) :
  (forall ang s, P s -> exists s', body ang s = Some s' /\ P s') ->
  forall (n fuel : nat) (ang : R) (s : Perspective.DfsState),
    (n < fuel)%nat ->
    ang = (64 - INR n) * Perspective.ANGLE_STEP ->
    P s ->
    exists s', Perspective.fan fuel ang body s = Some s' /\ P s'.
Proof.
  intros Hbody. induction n as [|n IH]; intros fuel ang s Hf Hang Hs.
  - destruct fuel as [|fuel]; [lia|]. cbn [Perspective.fan].
    replace (Rltb ang TWO_PI) with false.
    + exists s. split; [reflexivity | exact Hs].
    + symmetry. apply Rltb_false. rewrite Hang. cbn [INR].
      rewrite <- angle_step_64. lra.
  - destruct fuel as [|fuel]; [lia|]. cbn [Perspective.fan].
    replace (Rltb ang TWO_PI) with true.
    + destruct (Hbody ang s Hs) as [s1 [E1 H1]]. rewrite E1.
      apply IH; [lia | | exact H1].
      rewrite Hang, S_INR. ring.
    + symmetry. apply Rltb_true. rewrite Hang, S_INR.
      rewrite <- angle_step_64.
      pose proof (pos_INR n). pose proof angle_step_pos. nra.
Qed.

Lemma countOutside_snoc (cs : list Circle) (c : Circle) :
  Spec.countOutside (cs ++ [c])
  = Perspective.bump c (Spec.countOutside cs).
Proof.
  unfold Spec.countOutside, Perspective.bump.
  rewrite filter_app, length_app. cbn [filter].
  destruct (Perspective.fullyOutside c); cbn [length]; lia.
Qed.

Lemma unbump_bump (c : Circle) (oc : Z) :
  Perspective.unbump c (Perspective.bump c oc) = oc.
Proof.
  unfold Perspective.unbump, Perspective.bump.
  destruct (Perspective.fullyOutside c); lia.
Qed.

Lemma len_snoc (cs : list Circle) (c : Circle) :
  Perspective.len (cs ++ [c]) = (Perspective.len cs + 1)%Z.
Proof. unfold Perspective.len. rewrite length_app. cbn [length]. lia. Qed.

Lemma perspective_no_overlap (cs : list Circle) (next : Circle) :
  Perspective.overlapsAny cs next = false ->
  Forall (fun c => radius c + radius next - 1 / 10 <= Spec.centres c next) cs.
Proof.
  intros H. apply existsb_false_Forall in H.
  eapply Forall_impl; [|exact H]. cbn beta. intros c Hc.
  apply Rltb_false in Hc. unfold Spec.centres. lra.
Qed.

Lemma dfsMono_refl (st : Perspective.DfsState) : Spec.dfsMono st st.
Proof. split; [left; reflexivity | lia]. Qed.

Lemma dfsMono_trans (a b c : Perspective.DfsState) :
  Spec.dfsMono a b -> Spec.dfsMono b c -> Spec.dfsMono a c.
Proof.
  intros [[H1|H1] T1] [[H2|H2] T2]; split; try lia.
  - left. congruence.
  - right. rewrite <- H1. exact H2.
  - right. rewrite H2. exact H1.
Qed.

Section SearchProofs.
Variable rnd : nat -> R.
Hypothesis rnd_unit : Spec.unitDraws rnd.
Variable c0 : Circle.

Lemma perspective_candidate_spec (last : Circle) (ang : R) (i : nat) :
  MIN_R <= radius last ->
  exists newR,
    Perspective.candidate rnd last (radius last) ang i
    = (mkCircle (x last + cos ang * (radius last + newR))
                (y last + sin ang * (radius last + newR)) newR None, S i) /\
    MIN_R <= newR < MAX_R /\
    Spec.centres
      (mkCircle (x last + cos ang * (radius last + newR))
                (y last + sin ang * (radius last + newR)) newR None) last
    = newR + radius last.
Proof.
  intros Hl. unfold Perspective.candidate, bind, ret.
  destruct (radius_draw rnd rnd_unit i) as [newR [Er Hr]]. rewrite Er.
  exists newR. split; [reflexivity|]. split; [exact Hr|].
  unfold Spec.centres. cbn [radius x y]. rewrite dist_sym.
  rewrite dist_polar; [lra|]. unfold MIN_R in *. lra.
Qed.

Lemma chain_last_radius (eps : R) (cs : list Circle) (last : Circle)
  (tl : list Circle) :
  Spec.chainInv eps cs -> rev cs = last :: tl -> MIN_R <= radius last < MAX_R.
Proof.
  intros [_ [Hr _]] Hrev. unfold Spec.radiiInRange in Hr.
  rewrite Forall_forall in Hr. apply Hr.
  destruct (rev_last _ _ _ Hrev) as [Hn _].
  eapply nth_error_In. exact Hn.
Qed.

(** One turn of the fan, given that the deeper calls meet their contract:
    the state keeps the chain [cs] and the count [oc] of the caller. *)
Lemma fanBody_spec (fuel : nat) (cs : list Circle) (last : Circle)
  (tl : list Circle) (oc : Z) :
  (forall st, Spec.dfsInv c0 st ->
     (Perspective.MAX_CIRCLES - Perspective.len (Perspective.circles st)
      < Z.of_nat fuel)%Z ->
     exists st', Perspective.dfs rnd fuel st = Some st' /\
                 Spec.dfsPost c0 st st') ->
  rev cs = last :: tl ->
  (Perspective.len cs < Perspective.MAX_CIRCLES)%Z ->
  (Perspective.MAX_CIRCLES - Perspective.len cs < Z.of_nat (S fuel))%Z ->
  forall ang s,
    (Spec.dfsInv c0 s /\ Perspective.circles s = cs /\
     Perspective.outsideCount s = oc) ->
    exists s',
      Perspective.fanBody rnd (Perspective.dfs rnd fuel) last (radius last)
                          ang s = Some s' /\
      (Spec.dfsInv c0 s' /\ Perspective.circles s' = cs /\
       Perspective.outsideCount s' = oc) /\
      Spec.dfsMono s s'.
Proof.
  intros Hdeep Hrev Hlen Hfuel ang s [Hinv [Hcs Hoc]].
  destruct Hinv as [Hc [Hb [Hhd [Hbhd [Hlc [Hlb [Hcount Hq]]]]]]].
  rewrite Hcs in *.
  pose proof (chain_last_radius _ _ _ _ Hc Hrev) as Hlast.
  unfold Perspective.fanBody.
  destruct (perspective_candidate_spec last ang (Perspective.rng s)
              ltac:(lra)) as [newR [Ec [Hr Ht]]].
  rewrite Ec. set (next := mkCircle _ _ newR None) in *.
  cbn [Perspective.withRng Perspective.circles Perspective.outsideCount].
  rewrite Hcs.
  destruct (Perspective.overlapsAny cs next) eqn:Eo.
  - eexists. split; [reflexivity|].
    unfold Perspective.withRng.
    cbn [Perspective.circles Perspective.outsideCount].
    split; [|split; [left; reflexivity | cbn [Perspective.totalTries]; lia]].
    split; [|split; [exact Hcs | exact Hoc]].
    unfold Spec.dfsInv.
    cbn [Perspective.circles Perspective.bestCircles
         Perspective.outsideCount].
    rewrite Hcs. repeat (split; [assumption|]). assumption.
  - pose proof (perspective_no_overlap _ _ Eo) as Hfar.
    assert (Hc' : Spec.chainInv (1 / 10) (cs ++ [next])).
    { eapply chainInv_snoc; eauto. }
    unfold Perspective.withCircles at 1. unfold Perspective.withRng.
    cbn [Perspective.totalTries Perspective.bestCircles
         Perspective.bestOutsideCt Perspective.rng
         Perspective.circles Perspective.outsideCount].
    match goal with
    | |- context [Perspective.dfs rnd fuel ?p] => set (pushed := p)
    end.
    destruct (Hdeep pushed) as [st3 [Ed [Hinv3 [Hcs3 [Hoc3 Hmono3]]]]].
    + unfold Spec.dfsInv, pushed.
      cbn [Perspective.circles Perspective.bestCircles
           Perspective.outsideCount].
      split; [exact Hc'|]. split; [exact Hb|].
      split; [destruct Hhd as [t Ht']; exists (t ++ [next]);
              rewrite Ht'; reflexivity|].
      split; [exact Hbhd|].
      split; [rewrite len_snoc; lia|]. split; [exact Hlb|].
      split; [rewrite countOutside_snoc, Hcount; reflexivity|].
      exact Hq.
    + unfold pushed. cbn [Perspective.circles]. rewrite len_snoc. lia.
    + rewrite Ed. eexists. split; [reflexivity|].
      cbn [Perspective.circles Perspective.outsideCount].
      unfold pushed in Hcs3, Hoc3, Hmono3.
      cbn [Perspective.circles Perspective.outsideCount] in Hcs3, Hoc3.
      rewrite Hcs3, removelast_last, Hoc3, unbump_bump.
      unfold Perspective.withCircles.
      cbn [Perspective.circles Perspective.outsideCount].
      split; [|split].
      * split; [|split; [reflexivity | exact Hoc]].
        destruct Hinv3 as [_ [Hb3 [_ [Hbhd3 [_ [Hlb3 [_ Hq3]]]]]]].
        unfold Spec.dfsInv.
        cbn [Perspective.circles Perspective.bestCircles
             Perspective.outsideCount].
        split; [exact Hc|]. split; [exact Hb3|]. split; [exact Hhd|].
        split; [exact Hbhd3|]. split; [exact Hlc|]. split; [exact Hlb3|].
        split; [exact Hcount | exact Hq3].
      * destruct Hmono3 as [Hm _].
        cbn [Perspective.bestCircles] in Hm |- *. exact Hm.
      * destruct Hmono3 as [_ Hm].
        cbn [Perspective.totalTries] in Hm |- *. exact Hm.
Qed.

Lemma INR_64 : INR 64 = 64.
Proof. rewrite INR_IZR_INZ. reflexivity. Qed.

(** The entry of [dfs]: the try is counted and the best chain recorded. *)
Lemma entry_spec (st : Perspective.DfsState) :
  Spec.dfsInv c0 st ->
  Spec.dfsPost c0 st (Perspective.countTry st) /\
  Spec.dfsPost c0 st (Perspective.recordBest (Perspective.countTry st)).
Proof.
  intros Hinv.
  assert (H1 : Spec.dfsPost c0 st (Perspective.countTry st)).
  { split; [exact Hinv|]. split; [reflexivity|]. split; [reflexivity|].
    split; [left; reflexivity|]. cbn [Perspective.countTry
      Perspective.totalTries]. lia. }
  split; [exact H1|].
  unfold Perspective.recordBest.
  destruct ((Perspective.TARGET_OUTSIDE
             <=? Perspective.outsideCount (Perspective.countTry st))%Z
            && (Perspective.len
                  (Perspective.bestCircles (Perspective.countTry st))
                <? Perspective.len
                     (Perspective.circles (Perspective.countTry st)))%Z)
    eqn:Eb; [|exact H1].
  apply andb_true_iff in Eb. destruct Eb as [Eq El].
  apply Z.leb_le in Eq. apply Z.ltb_lt in El.
  cbn [Perspective.countTry Perspective.circles Perspective.outsideCount
       Perspective.bestCircles Perspective.totalTries
       Perspective.bestOutsideCt Perspective.rng] in *.
  destruct Hinv as [Hc [Hb [Hhd [Hbhd [Hlc [Hlb [Hcount Hq]]]]]]].
  split; [|split; [reflexivity|split; [reflexivity|]]].
  - unfold Spec.dfsInv.
    cbn [Perspective.circles Perspective.outsideCount
         Perspective.bestCircles].
    repeat (split; [assumption|]).
    right. unfold Spec.qualifies. rewrite <- Hcount. exact Eq.
  - split; cbn [Perspective.bestCircles Perspective.totalTries];
      [right; exact El | lia].
Qed.

(** Total correctness of [dfs]: with one unit of fuel for each circle the
    cap still admits, and one more, the call returns; the caller finds its
    chain and its count as it left them. *)
Lemma dfs_spec (fuel : nat) :
  forall st,
    Spec.dfsInv c0 st ->
    (Perspective.MAX_CIRCLES - Perspective.len (Perspective.circles st)
     < Z.of_nat fuel)%Z ->
    exists st', Perspective.dfs rnd fuel st = Some st' /\
                Spec.dfsPost c0 st st'.
Proof.
  induction fuel as [|fuel IH]; intros st Hinv Hfuel.
  - destruct Hinv as [_ [_ [_ [_ [Hlc _]]]]]. lia.
  - cbn [Perspective.dfs].
    destruct (entry_spec st Hinv) as [H1 H2].
    destruct (Perspective.MAX_TOTAL_TRIES
              <? Perspective.totalTries (Perspective.countTry st))%Z.
    { eexists. split; [reflexivity | exact H1]. }
    set (st2 := Perspective.recordBest (Perspective.countTry st)) in *.
    destruct (Perspective.MAX_CIRCLES
              <=? Perspective.len (Perspective.circles st2))%Z eqn:Ecap.
    { eexists. split; [reflexivity | exact H2]. }
    apply Z.leb_gt in Ecap.
    destruct H2 as [Hinv2 [Hcs2 [Hoc2 Hmono2]]].
    pose proof Hinv2 as [[Hne _] _].
    destruct (rev_nonempty _ Hne) as [last [tl Hrev]]. rewrite Hrev.
    destruct (fan_run
      (fun s => (Spec.dfsInv c0 s /\
                 Perspective.circles s = Perspective.circles st2 /\
                 Perspective.outsideCount s = Perspective.outsideCount st2)
                /\ Spec.dfsMono st s)
      (Perspective.fanBody rnd (Perspective.dfs rnd fuel) last (radius last)))
      with (n := 64%nat) (fuel := Perspective.FAN_FUEL) (ang := 0) (s := st2)
      as [s' [Ef [[Hinv' [Hcs' Hoc']] Hmono']]].
    + intros ang s [HQ Hm].
      destruct (fanBody_spec fuel (Perspective.circles st2) last tl
                  (Perspective.outsideCount st2) IH Hrev Ecap
                  ltac:(rewrite Hcs2; exact Hfuel) ang s HQ)
        as [s1 [E1 [HQ1 Hm1]]].
      exists s1. split; [exact E1|]. split; [exact HQ1|].
      eapply dfsMono_trans; eassumption.
    + unfold Perspective.FAN_FUEL. lia.
    + rewrite INR_64. ring.
    + split; [split; [exact Hinv2 | split; reflexivity] | exact Hmono2].
    + exists s'. split; [exact Ef|].
      split; [exact Hinv'|]. split; [congruence|]. split; [congruence|].
      exact Hmono'.
Qed.

Lemma INR_63 : INR 63 = 63.
Proof. rewrite INR_IZR_INZ. reflexivity. Qed.

Lemma existsb_none {A : Type} (f : A -> bool) (l : list A) :
  (forall a, In a l -> f a = false) -> existsb f l = false.
Proof.
  intros H. induction l as [|a l IH]; [reflexivity|].
  cbn [existsb]. rewrite (H a (or_introl eq_refl)).
  apply IH. intros b Hb. apply H. right. exact Hb.
Qed.

Lemma rightOf_pos (last : Circle) (newR : R) :
  x (Spec.rightOf last newR) = x last + radius last + newR /\
  y (Spec.rightOf last newR) = y last /\
  radius (Spec.rightOf last newR) = newR.
Proof.
  unfold Spec.rightOf. cbn [x y radius]. rewrite cos_0, sin_0.
  split; [ring|]. split; [ring | reflexivity].
Qed.

Lemma row_no_overlap (cs : list Circle) (last : Circle) (newR : R) :
  Spec.rowChain cs last -> Spec.radiiInRange cs -> MIN_R <= newR ->
  Perspective.overlapsAny cs (Spec.rightOf last newR) = false.
Proof.
  intros [Hrow _] Hrad Hn. unfold Perspective.overlapsAny.
  apply existsb_none. intros c Hc. apply Rltb_false.
  destruct (rightOf_pos last newR) as [Hx [Hy Hr]].
  rewrite Hx, Hy, Hr.
  destruct (Hrow c Hc) as [Hyc Hxc]. rewrite Hyc.
  unfold Spec.radiiInRange in Hrad. rewrite Forall_forall in Hrad.
  pose proof (Hrad c Hc) as Hrc. unfold MIN_R in *.
  rewrite dist_row by lra. lra.
Qed.

Lemma row_push (cs : list Circle) (last : Circle) (newR : R) :
  Spec.rowChain cs last -> MIN_R <= newR ->
  Spec.rowChain (cs ++ [Spec.rightOf last newR]) (Spec.rightOf last newR).
Proof.
  intros [Hrow Hprog] Hn.
  destruct (rightOf_pos last newR) as [Hx [Hy Hr]].
  unfold MIN_R in *. split.
  - intros c Hc. rewrite Hx, Hy, Hr. apply in_app_or in Hc.
    destruct Hc as [Hc|[Hc|[]]].
    + destruct (Hrow c Hc) as [Hyc Hxc]. split; [exact Hyc | lra].
    + subst c. rewrite Hx, Hy, Hr. split; [reflexivity | lra].
  - rewrite Hx, Hr, len_snoc, plus_IZR. lra.
Qed.

Lemma row_outside (cs : list Circle) (last : Circle) (newR : R) :
  Spec.rowChain cs last -> (12 <= Perspective.len cs)%Z ->
  Perspective.fullyOutside (Spec.rightOf last newR) = true.
Proof.
  intros [_ Hprog] Hlen.
  destruct (rightOf_pos last newR) as [Hx [Hy Hr]].
  unfold Perspective.fullyOutside. rewrite Hx, Hr.
  assert (H : Rltb CANVAS_W (x last + radius last + newR - newR) = true).
  { apply Rltb_true. apply IZR_le in Hlen. unfold CANVAS_W. lra. }
  rewrite H. rewrite orb_true_r. reflexivity.
Qed.

Lemma bump_ge (c : Circle) (oc : Z) : (oc <= Perspective.bump c oc)%Z.
Proof. unfold Perspective.bump. destruct (Perspective.fullyOutside c); lia. Qed.

Lemma push_inv (s : Perspective.DfsState) (last next : Circle)
  (tl : list Circle) (i : nat) :
  Spec.dfsInv c0 s ->
  rev (Perspective.circles s) = last :: tl ->
  (Perspective.len (Perspective.circles s) < Perspective.MAX_CIRCLES)%Z ->
  MIN_R <= radius next < MAX_R ->
  Spec.centres next last = radius next + radius last ->
  Perspective.overlapsAny (Perspective.circles s) next = false ->
  Spec.dfsInv c0
    (Perspective.mkDfs (Perspective.circles s ++ [next])
       (Perspective.bump next (Perspective.outsideCount s))
       (Perspective.totalTries s) (Perspective.bestCircles s)
       (Perspective.bestOutsideCt s) i).
Proof.
  intros [Hc [Hb [Hhd [Hbhd [Hlc [Hlb [Hcount Hq]]]]]]] Hrev Hlen Hr Ht Eo.
  unfold Spec.dfsInv.
  cbn [Perspective.circles Perspective.bestCircles Perspective.outsideCount].
  split.
  { eapply chainInv_snoc; eauto. apply perspective_no_overlap. exact Eo. }
  split; [exact Hb|].
  split; [destruct Hhd as [t Ht']; exists (t ++ [next]);
          rewrite Ht'; reflexivity|].
  split; [exact Hbhd|].
  split; [rewrite len_snoc; lia|]. split; [exact Hlb|].
  split; [rewrite countOutside_snoc, Hcount; reflexivity | exact Hq].
Qed.

Lemma fan_step (fuel : nat) (ang : R)
  (body : R -> Perspective.DfsState -> option Perspective.DfsState)
  (st : Perspective.DfsState) :
  Perspective.fan (S fuel) ang body st
  = if Rltb ang TWO_PI then
      match body ang st with
      | Some st' => Perspective.fan fuel (ang + Perspective.ANGLE_STEP) body st'
      | None => None
      end
    else Some st.
Proof. reflexivity. Qed.

(** A turn of the fan whose candidate overlaps nothing. *)
Lemma fanBody_push (deeper : Perspective.DfsState -> option Perspective.DfsState)
  (last next : Circle) (ang : R) (st : Perspective.DfsState) (i : nat) :
  Perspective.candidate rnd last (radius last) ang (Perspective.rng st)
  = (next, i) ->
  Perspective.overlapsAny (Perspective.circles st) next = false ->
  Perspective.fanBody rnd deeper last (radius last) ang st
  = match deeper
            (Perspective.mkDfs (Perspective.circles st ++ [next])
               (Perspective.bump next (Perspective.outsideCount st))
               (Perspective.totalTries st) (Perspective.bestCircles st)
               (Perspective.bestOutsideCt st) i) with
    | Some st2 =>
        Some (Perspective.withCircles st2
                (removelast (Perspective.circles st2))
                (Perspective.unbump next (Perspective.outsideCount st2)))
    | None => None
    end.
Proof.
  intros Ec Eo. unfold Perspective.fanBody. rewrite Ec.
  unfold Perspective.withRng at 1.
  cbn [Perspective.circles]. rewrite Eo. reflexivity.
Qed.

(** At the cap, the entry of [dfs] records a qualifying chain that the
    best chain is a prefix of. *)
Lemma record_at_cap (st : Perspective.DfsState) :
  Perspective.len (Perspective.circles st) = Perspective.MAX_CIRCLES ->
  (Perspective.TARGET_OUTSIDE <= Perspective.outsideCount st)%Z ->
  (exists ext, Perspective.circles st = Perspective.bestCircles st ++ ext) ->
  Perspective.bestCircles (Perspective.recordBest (Perspective.countTry st))
  = Perspective.circles st.
Proof.
  intros Hlen Hoc [ext Hext]. unfold Perspective.recordBest.
  cbn [Perspective.countTry Perspective.circles Perspective.outsideCount
       Perspective.bestCircles].
  replace (Perspective.TARGET_OUTSIDE <=? Perspective.outsideCount st)%Z
    with true by (symmetry; apply Z.leb_le; exact Hoc).
  cbn [andb].
  destruct (Perspective.len (Perspective.bestCircles st)
            <? Perspective.len (Perspective.circles st))%Z eqn:El;
    cbn [Perspective.bestCircles]; [reflexivity|].
  apply Z.ltb_ge in El. unfold Perspective.len in El.
  assert (Hl : length ext = 0%nat).
  { rewrite Hext, length_app in El. lia. }
  destruct ext; [|discriminate]. rewrite Hext, app_nil_r. reflexivity.
Qed.

Lemma record_prefix (st : Perspective.DfsState) :
  (exists ext, Perspective.circles st = Perspective.bestCircles st ++ ext) ->
  exists ext,
    Perspective.circles st
    = Perspective.bestCircles
        (Perspective.recordBest (Perspective.countTry st)) ++ ext.
Proof.
  intros Hext. unfold Perspective.recordBest.
  destruct ((Perspective.TARGET_OUTSIDE
             <=? Perspective.outsideCount (Perspective.countTry st))%Z
            && (Perspective.len
                  (Perspective.bestCircles (Perspective.countTry st))
                <? Perspective.len
                     (Perspective.circles (Perspective.countTry st)))%Z).
  - exists []. cbn [Perspective.bestCircles Perspective.countTry
                   Perspective.circles]. symmetry. apply app_nil_r.
  - exact Hext.
Qed.

Lemma rowSteps_snoc (cs : list Circle) (last : Circle) (tl : list Circle)
  (newR : R) :
  Shape.rowSteps cs -> rev cs = last :: tl ->
  Shape.rowSteps (cs ++ [Spec.rightOf last newR]).
Proof.
  intros Hs Hrev i a b Hi Hj.
  destruct (rev_last cs last tl Hrev) as [Hlast Hlen].
  destruct (nth_error_snoc cs _ b (S i) Hj) as [[Hlt Hb]|[He Hb]].
  - rewrite nth_error_app1 in Hi by lia. exact (Hs i a b Hi Hb).
  - subst b. rewrite nth_error_app1 in Hi by lia.
    replace i with (length cs - 1)%nat in Hi by lia.
    rewrite Hlast in Hi. inversion Hi. subst a.
    destruct (rightOf_pos last newR) as [Hx [Hy Hr]].
    rewrite Hx, Hy, Hr. split; [reflexivity | ring].
Qed.

(** The first descent: the fan tries the angle 0 first, and to the right
    of a chain laid out on a line nothing overlaps; after at most 12
    circles every further one is wholly outside; so the first descent
    reaches the cap with a qualifying chain, which is recorded and, being
    as long as the cap allows, never replaced. [n] is the number of
    circles still missing. *)
Lemma dfs_descent (n : nat) :
  forall fuel st last tl,
    Spec.dfsInv c0 st ->
    rev (Perspective.circles st) = last :: tl ->
    Spec.rowChain (Perspective.circles st) last ->
    Shape.rowSteps (Perspective.circles st) ->
    Perspective.len (Perspective.circles st)
    = (Perspective.MAX_CIRCLES - Z.of_nat n)%Z ->
    (n < fuel)%nat ->
    (Perspective.totalTries st + Z.of_nat n < Perspective.MAX_TOTAL_TRIES)%Z ->
    (0 <= Perspective.outsideCount st)%Z ->
    (Perspective.len (Perspective.circles st) - 12
     <= Perspective.outsideCount st)%Z ->
    (exists ext, Perspective.circles st = Perspective.bestCircles st ++ ext) ->
    exists st',
      Perspective.dfs rnd fuel st = Some st' /\
      Spec.dfsPost c0 st st' /\
      Perspective.len (Perspective.bestCircles st') = Perspective.MAX_CIRCLES /\
      (exists ext, Perspective.bestCircles st' = Perspective.circles st ++ ext) /\
      (forall c, In c (Perspective.bestCircles st') -> y c = y last) /\
      Shape.rowSteps (Perspective.bestCircles st').
Proof.
  induction n as [|n IH];
    intros fuel st last tl Hinv Hrev Hrow Hsteps Hlen Hfuel Htries Hoc0 Hoc
           Hpre;
    (destruct fuel as [|fuel]; [lia|]); cbn [Perspective.dfs];
    destruct (entry_spec st Hinv) as [_ H2];
    (replace (Perspective.MAX_TOTAL_TRIES
              <? Perspective.totalTries (Perspective.countTry st))%Z
       with false
       by (symmetry; apply Z.ltb_ge;
           cbn [Perspective.countTry Perspective.totalTries]; lia));
    destruct H2 as [Hinv2 [Hcs2 [Hoc2 Hmono2]]].
  - (* the chain has reached the cap *)
    assert (Hbest : Perspective.bestCircles
                      (Perspective.recordBest (Perspective.countTry st))
                    = Perspective.circles st).
    { apply record_at_cap; [lia | | exact Hpre].
      unfold Perspective.TARGET_OUTSIDE, Perspective.MAX_CIRCLES in *. lia. }
    set (st2 := Perspective.recordBest (Perspective.countTry st)) in *.
    replace (Perspective.MAX_CIRCLES
             <=? Perspective.len (Perspective.circles st2))%Z with true
      by (symmetry; apply Z.leb_le; rewrite Hcs2; lia).
    exists st2. split; [reflexivity|].
    split; [split; [|split; [|split]]; assumption|].
    rewrite Hbest. split; [lia|].
    split; [exists []; symmetry; apply app_nil_r|].
    split; [|exact Hsteps].
    intros c Hc. destruct Hrow as [Hrow _]. apply (Hrow c Hc).
  - (* one more circle, to the right *)
    pose proof (record_prefix st Hpre) as [ext2 Hpre2].
    set (st2 := Perspective.recordBest (Perspective.countTry st)) in *.
    assert (Htt2 : Perspective.totalTries st2
                   = (Perspective.totalTries st + 1)%Z).
    { unfold st2, Perspective.recordBest.
      destruct (_ && _); reflexivity. }
    assert (Hlt : (Perspective.len (Perspective.circles st2)
                   < Perspective.MAX_CIRCLES)%Z) by (rewrite Hcs2; lia).
    replace (Perspective.MAX_CIRCLES
             <=? Perspective.len (Perspective.circles st2))%Z with false
      by (symmetry; apply Z.leb_gt; exact Hlt).
    rewrite Hcs2, Hrev.
    pose proof Hinv2 as [Hc2 _]. rewrite Hcs2 in Hc2.
    pose proof (chain_last_radius _ _ _ _ Hc2 Hrev) as Hlast.
    (* the first turn of the fan *)
    change Perspective.FAN_FUEL with (S 64). rewrite fan_step.
    replace (Rltb 0 TWO_PI) with true
      by (symmetry; apply Rltb_true; unfold TWO_PI;
          pose proof PI_RGT_0; lra).
    destruct (perspective_candidate_spec last 0 (Perspective.rng st2)
                ltac:(lra)) as [newR [Ec [Hr Ht]]].
    fold (Spec.rightOf last newR) in Ec, Ht.
    set (next := Spec.rightOf last newR) in *.
    assert (Hnr : radius next = newR) by reflexivity.
    assert (Eo : Perspective.overlapsAny (Perspective.circles st2) next
                 = false).
    { rewrite Hcs2. apply row_no_overlap; [exact Hrow | | lra].
      destruct Hc2 as [_ [Hrad _]]. exact Hrad. }
    pose proof (push_inv st2 last next tl (S (Perspective.rng st2)) Hinv2
                  ltac:(rewrite Hcs2; exact Hrev) Hlt
                  ltac:(rewrite Hnr; exact Hr)
                  ltac:(rewrite Hnr; exact Ht) Eo) as Hinvp.
    set (pushed := Perspective.mkDfs (Perspective.circles st2 ++ [next]) _ _ _ _ _)
      in Hinvp.
    destruct (IH fuel pushed next (rev (Perspective.circles st)))
      as [st3 [Ed [[Hinv3 [Hcs3 [Hoc3 Hmono3]]]
                     [Hlen3 [[ext3 Hext3] [Hy3 Hsteps3]]]]]].
    + exact Hinvp.
    + unfold pushed. cbn [Perspective.circles]. rewrite Hcs2. apply rev_unit.
    + unfold pushed. cbn [Perspective.circles]. rewrite Hcs2.
      apply row_push; [exact Hrow | lra].
    + unfold pushed. cbn [Perspective.circles]. rewrite Hcs2.
      apply (rowSteps_snoc _ _ tl); [exact Hsteps | exact Hrev].
    + unfold pushed. cbn [Perspective.circles]. rewrite len_snoc, Hcs2. lia.
    + lia.
    + unfold pushed. cbn [Perspective.totalTries]. lia.
    + unfold pushed. cbn [Perspective.outsideCount].
      pose proof (bump_ge next (Perspective.outsideCount st2)). lia.
    + unfold pushed. cbn [Perspective.circles Perspective.outsideCount].
      rewrite len_snoc, Hcs2, Hoc2.
      destruct (Z_lt_le_dec (Perspective.len (Perspective.circles st)) 12)
        as [Hs|Hs].
      * pose proof (bump_ge next (Perspective.outsideCount st)). lia.
      * pose proof (row_outside _ _ newR Hrow Hs) as Ho. fold next in Ho.
        unfold Perspective.bump. rewrite Ho. lia.
    + unfold pushed. cbn [Perspective.circles Perspective.bestCircles].
      exists (ext2 ++ [next]). rewrite Hcs2, Hpre2 at 1.
      rewrite app_assoc. reflexivity.
    + (* back from the deeper call: the other turns of the fan *)
      rewrite (fanBody_push _ _ _ _ _ _ Ec Eo). fold pushed. rewrite Ed.
      set (s1 := Perspective.withCircles st3 _ _).
      assert (Hs1 : Spec.dfsInv c0 s1 /\
                    Perspective.circles s1 = Perspective.circles st2 /\
                    Perspective.outsideCount s1
                    = Perspective.outsideCount st2).
      { unfold s1, Perspective.withCircles, pushed in *.
        cbn [Perspective.circles Perspective.outsideCount] in *.
        rewrite Hcs3, removelast_last, Hoc3, unbump_bump.
        split; [|split; reflexivity].
        destruct Hinv2 as [Hc [_ [Hhd [_ [Hlc [_ [Hcount _]]]]]]].
        destruct Hinv3 as [_ [Hb3 [_ [Hbhd3 [_ [Hlb3 [_ Hq3]]]]]]].
        unfold Spec.dfsInv.
        cbn [Perspective.circles Perspective.bestCircles
             Perspective.outsideCount].
        repeat (split; [assumption|]). assumption. }
      assert (Hb1 : Perspective.bestCircles s1 = Perspective.bestCircles st3)
        by reflexivity.
      assert (Ht1 : Perspective.totalTries s1 = Perspective.totalTries st3)
        by reflexivity.
      destruct (fan_run
        (fun s => (Spec.dfsInv c0 s /\
                   Perspective.circles s = Perspective.circles st2 /\
                   Perspective.outsideCount s = Perspective.outsideCount st2)
                  /\ Spec.dfsMono s1 s)
        (Perspective.fanBody rnd (Perspective.dfs rnd fuel) last
                             (radius last)))
        with (n := 63%nat) (fuel := 64%nat)
             (ang := 0 + Perspective.ANGLE_STEP) (s := s1)
        as [s' [Ef [[Hinv' [Hcs' Hoc']] Hmono']]].
      * intros ang s [HQ Hm].
        destruct (fanBody_spec fuel (Perspective.circles st2) last tl
                    (Perspective.outsideCount st2) (dfs_spec fuel)
                    ltac:(rewrite Hcs2; exact Hrev) Hlt
                    ltac:(rewrite Hcs2; lia) ang s HQ)
          as [sa [Ea [HQa Hma]]].
        exists sa. split; [exact Ea|]. split; [exact HQa|].
        eapply dfsMono_trans; eassumption.
      * lia.
      * rewrite INR_63. ring.
      * split; [exact Hs1 | apply dfsMono_refl].
      * exists s'. split; [exact Ef|].
        assert (Hbs : Perspective.bestCircles s' = Perspective.bestCircles st3).
        { destruct Hmono' as [[Hm|Hm] _]; [congruence|].
          destruct Hinv' as [_ [_ [_ [_ [_ [Hlb' _]]]]]].
          rewrite Hb1 in Hm. lia. }
        split.
        { split; [exact Hinv'|]. split; [congruence|]. split; [congruence|].
          eapply dfsMono_trans; [exact Hmono2|].
          destruct Hmono3 as [Hm3 Ht3]. destruct Hmono' as [_ Ht'].
          unfold pushed in Hm3, Ht3.
          cbn [Perspective.bestCircles Perspective.totalTries] in Hm3, Ht3.
          split; [rewrite Hbs; exact Hm3 | lia]. }
        rewrite Hbs. split; [exact Hlen3|]. split.
        { unfold pushed in Hext3. cbn [Perspective.circles] in Hext3.
          exists ([next] ++ ext3). rewrite Hext3, Hcs2, <- app_assoc.
          reflexivity. }
        split; [|exact Hsteps3].
        intros c Hc. rewrite (Hy3 c Hc).
        apply (rightOf_pos last newR).
Qed.

End SearchProofs.

Section SearchResult.
Variable rnd : nat -> R.
Hypothesis rnd_unit : Spec.unitDraws rnd.

Lemma perspective_seed_spec (i : nat) :
  exists sd j, Perspective.seed rnd i = (sd, j) /\ Spec.isSeed sd /\
               MIN_R <= radius sd < MAX_R /\ 25 <= x sd.
Proof.
  unfold Perspective.seed, bind, ret.
  destruct (edge_draw rnd rnd_unit i) as [e [Ee He]]. rewrite Ee.
  destruct (radius_draw rnd rnd_unit (S i)) as [r0 [Er Hr]]. rewrite Er.
  assert (Hs : Spec.isSeed_edge (floor e)) by exact He.
  destruct (random2_spec rnd rnd_unit (r0 * (1 / 2))
              (CANVAS_W - r0 * (1 / 2)) (S (S i)))
    as [vx [Ex [Hvx _]]].
  { unfold MIN_R, MAX_R, CANVAS_W in *. lra. }
  unfold MIN_R, MAX_R, CANVAS_W in Hr, Hvx.
  destruct (floor e =? 1)%Z, (floor e =? 3)%Z, (floor e =? 0)%Z,
    (floor e =? 2)%Z; rewrite ?Ex;
    repeat lazymatch goal with
      | |- context [random2 rnd ?a ?b ?k] =>
          destruct (random2 rnd a b k) as [? ?]
      end;
    (eexists; eexists; split; [reflexivity|]; split;
     [exists (floor e); split; [reflexivity | exact Hs] |
      split; [exact Hr | cbn [x]; unfold CANVAS_W; lra]]).
Qed.

Lemma countOutside_single (c : Circle) :
  Spec.countOutside [c] = if Perspective.fullyOutside c then 1%Z else 0%Z.
Proof.
  unfold Spec.countOutside. cbn [filter].
  destruct (Perspective.fullyOutside c); reflexivity.
Qed.

(** The search returns; it has recorded a chain of [MAX_CIRCLES] circles
    that starts at the seed, qualifies and lies on a horizontal line. *)
Lemma search_row_spec (i : nat) :
  exists sd j st,
    Perspective.seed rnd i = (sd, j) /\
    Perspective.searchState rnd i = Some st /\
    Spec.isSeed sd /\
    Spec.dfsInv sd st /\
    Perspective.len (Perspective.bestCircles st) = Perspective.MAX_CIRCLES /\
    Spec.qualifies (Perspective.bestCircles st) /\
    (forall c, In c (Perspective.bestCircles st) -> y c = y sd) /\
    Shape.rowSteps (Perspective.bestCircles st).
Proof.
  destruct (perspective_seed_spec i) as [sd [j [Es [Hseed [Hr Hx]]]]].
  exists sd, j. unfold Perspective.searchState. rewrite Es.
  set (oc := if Perspective.fullyOutside sd then 1%Z else 0%Z).
  assert (Hoc : (0 <= oc <= 1)%Z)
    by (unfold oc; destruct (Perspective.fullyOutside sd); lia).
  set (st0 := Perspective.mkDfs [sd] oc 0 [sd] oc j).
  assert (Hinv0 : Spec.dfsInv sd st0).
  { unfold Spec.dfsInv, st0.
    cbn [Perspective.circles Perspective.bestCircles
         Perspective.outsideCount].
    split; [apply chainInv_single; exact Hr|].
    split; [apply chainInv_single; exact Hr|].
    split; [exists []; reflexivity|]. split; [exists []; reflexivity|].
    split; [unfold Perspective.len, Perspective.MAX_CIRCLES; cbn [length]; lia|].
    split; [unfold Perspective.len, Perspective.MAX_CIRCLES; cbn [length]; lia|].
    split; [rewrite countOutside_single; reflexivity | left; reflexivity]. }
  destruct (dfs_descent rnd rnd_unit sd 299 Perspective.DFS_FUEL st0 sd [])
    as [st [Ed [[Hinv _] [Hlen [_ Hy]]]]]; try exact Hinv0.
  - reflexivity.
  - split.
    + intros c [Hc|[]]. subst c. split; [reflexivity | lra].
    + change (IZR (Perspective.len (Perspective.circles st0))) with 1.
      unfold MIN_R in Hr. lra.
  - intros k a b Ha Hb. destruct k; cbn in Hb; [discriminate|].
    destruct k; discriminate.
  - unfold st0, Perspective.len, Perspective.MAX_CIRCLES.
    cbn [Perspective.circles length]. lia.
  - unfold Perspective.DFS_FUEL, Perspective.MAX_CIRCLES. lia.
  - unfold st0, Perspective.MAX_TOTAL_TRIES. cbn [Perspective.totalTries]. lia.
  - unfold st0. cbn [Perspective.outsideCount]. lia.
  - unfold st0, Perspective.len.
    cbn [Perspective.outsideCount Perspective.circles length]. lia.
  - exists []. reflexivity.
  - exists st. split; [reflexivity|]. split; [exact Ed|].
    split; [exact Hseed|]. split; [exact Hinv|]. split; [exact Hlen|].
    split; [|exact Hy].
    destruct Hinv as [_ [_ [_ [_ [_ [_ [_ [Hq|Hq]]]]]]]]; [|exact Hq].
    rewrite Hq in Hlen. unfold Perspective.len, Perspective.MAX_CIRCLES in Hlen.
    cbn [length] in Hlen. lia.
Qed.

Lemma search_spec (i : nat) :
  exists sd j st,
    Perspective.seed rnd i = (sd, j) /\
    Perspective.searchState rnd i = Some st /\
    Spec.isSeed sd /\
    Spec.dfsInv sd st /\
    Perspective.len (Perspective.bestCircles st) = Perspective.MAX_CIRCLES /\
    Spec.qualifies (Perspective.bestCircles st) /\
    (forall c, In c (Perspective.bestCircles st) -> y c = y sd).
Proof.
  destruct (search_row_spec i)
    as [sd [j [st [Es [Ed [Hseed [Hinv [Hlen [Hq [Hy _]]]]]]]]]].
  exists sd, j, st. repeat (split; [assumption|]). exact Hy.
Qed.

End SearchResult.

(** ** The void filler *)

Section FillerProofs.
Variable rnd : nat -> R.

Lemma fillCandidate_eq (i : nat) :
  Perspective.fillCandidate rnd i
  = (mkCircle (rnd (S i) * CANVAS_W) (rnd (S (S i)) * CANVAS_H)
              (rnd i * (30 - 12) + 12) None,
     S (S (S i))).
Proof.
  unfold Perspective.fillCandidate, bind, ret, random2, random1.
  destruct (Rlt_dec 30 12) as [H|H]; [lra | reflexivity].
Qed.

(** [fillVoids] only appends; each circle it appends passed both tests
    against the list as it stood then; each attempt consumes three draws. *)
Lemma fillVoids_spec (n : nat) :
  forall cs i,
    exists fillers,
      Perspective.fillVoids rnd n cs i = (cs ++ fillers, (i + 3 * n)%nat) /\
      forall k f,
        nth_error fillers k = Some f ->
        Perspective.overlapsAny (cs ++ firstn k fillers) f = false /\
        Perspective.fullyInsideViewport f = true.
Proof.
  induction n as [|n IH]; intros cs i.
  - exists []. cbn [Perspective.fillVoids]. rewrite app_nil_r.
    split; [f_equal; lia|]. intros k f H. destruct k; discriminate.
  - cbn [Perspective.fillVoids].
    destruct (Perspective.fillCandidate rnd i) as [c j] eqn:Ec.
    assert (Hj : j = S (S (S i))).
    { rewrite fillCandidate_eq in Ec. inversion Ec. reflexivity. }
    destruct (Perspective.overlapsAny cs c) eqn:Eo.
    { destruct (IH cs j) as [fs [E H]]. exists fs.
      split; [rewrite E; f_equal; lia | exact H]. }
    destruct (Perspective.fullyInsideViewport c) eqn:Ei; cbn [negb].
    2:{ destruct (IH cs j) as [fs [E H]]. exists fs.
        split; [rewrite E; f_equal; lia | exact H]. }
    destruct (IH (cs ++ [c]) j) as [fs [E H]]. exists (c :: fs).
    split; [rewrite E, <- app_assoc; f_equal; lia|].
    intros k f Hk. destruct k as [|k]; cbn [nth_error firstn] in *.
    + inversion Hk. subst f. rewrite app_nil_r. split; assumption.
    + destruct (H k f Hk) as [H1 H2]. rewrite <- app_assoc in H1.
      split; assumption.
Qed.

Lemma fillVoids_step (n : nat) (cs : list Circle) (i : nat) :
  Perspective.fillVoids rnd (S n) cs i
  = let (c, j) := Perspective.fillCandidate rnd i in
    if Perspective.overlapsAny cs c then Perspective.fillVoids rnd n cs j
    else if negb (Perspective.fullyInsideViewport c)
         then Perspective.fillVoids rnd n cs j
         else Perspective.fillVoids rnd n (cs ++ [c]) j.
Proof. reflexivity. Qed.

(** When every candidate overlaps, nothing is appended. *)
Lemma fillVoids_none (n : nat) :
  forall cs i,
    (forall j, Perspective.overlapsAny cs
                 (fst (Perspective.fillCandidate rnd j)) = true) ->
    Perspective.fillVoids rnd n cs i = (cs, (i + 3 * n)%nat).
Proof.
  induction n as [|n IH]; intros cs i H.
  - cbn [Perspective.fillVoids]. f_equal. lia.
  - cbn [Perspective.fillVoids]. pose proof (H i) as Hi.
    rewrite fillCandidate_eq in *. cbn [fst] in Hi. rewrite Hi.
    rewrite IH by exact H. f_equal. lia.
Qed.

End FillerProofs.

(** *** The filler in the scope of the sketch *)

Section FillerInProofs.
Variable rnd : nat -> R.

Lemma fillVoidsIn_step (helper : Perspective.Helper) (n : nat)
  (cs : list Circle) (i : nat) :
  Perspective.fillVoidsIn rnd helper (S n) cs i
  = let (c, j) := Perspective.fillCandidate rnd i in
    if Perspective.overlapsAny cs c
    then Perspective.fillVoidsIn rnd helper n cs j
    else
      match helper with
      | None => ReferenceError
      | Some inside =>
          if negb (inside c) then Perspective.fillVoidsIn rnd helper n cs j
          else Perspective.fillVoidsIn rnd helper n (cs ++ [c]) j
      end.
Proof. reflexivity. Qed.

(** With the name bound to the function the spec describes, the filler is
    [Perspective.fillVoids]. *)
Lemma fillVoidsIn_bound (n : nat) :
  forall cs i,
    Perspective.fillVoidsIn rnd (Some Perspective.fullyInsideViewport) n cs i
    = Returned (Perspective.fillVoids rnd n cs i).
Proof.
  induction n as [|n IH]; intros cs i; [reflexivity|].
  rewrite fillVoidsIn_step, fillVoids_step.
  destruct (Perspective.fillCandidate rnd i) as [c j].
  destruct (Perspective.overlapsAny cs c); [apply IH|].
  destruct (negb (Perspective.fullyInsideViewport c)); apply IH.
Qed.

Lemma setupIn_bound (i : nat) :
  Perspective.setupIn rnd (Some Perspective.fullyInsideViewport) i
  = option_map Returned (Perspective.setup rnd i).
Proof.
  unfold Perspective.setupIn, Perspective.setup.
  destruct (Perspective.generateTouchingCircles rnd i) as [[chain j]|];
    [|reflexivity].
  cbv zeta. rewrite fillVoidsIn_bound.
  destruct (Perspective.fillVoids rnd Perspective.FILL_ATTEMPTS
              (Perspective.fitRibbonToViewport chain) j) as [all k].
  reflexivity.
Qed.

(** Whatever the name is bound to, a call that returns has only appended,
    and has consumed three draws for each attempt. *)
Lemma fillVoidsIn_appends (helper : Perspective.Helper) (n : nat) :
  forall cs i r,
    Perspective.fillVoidsIn rnd helper n cs i = Returned r ->
    exists fillers,
      r = (cs ++ fillers, (i + 3 * n)%nat) /\
      (length fillers <= n)%nat /\
      (helper = Perspective.sources -> fillers = []).
Proof.
  induction n as [|n IH]; intros cs i r E.
  - cbn [Perspective.fillVoidsIn] in E. inversion E. exists [].
    rewrite app_nil_r. split; [f_equal; lia|]. split; [cbn; lia|].
    reflexivity.
  - rewrite fillVoidsIn_step in E. rewrite fillCandidate_eq in E.
    set (c := mkCircle (rnd (S i) * CANVAS_W) (rnd (S (S i)) * CANVAS_H)
                       (rnd i * (30 - 12) + 12) None) in *.
    destruct (Perspective.overlapsAny cs c).
    { destruct (IH _ _ _ E) as [fs [Er [Hl Hs]]]. exists fs.
      split; [rewrite Er; f_equal; lia|]. split; [lia | exact Hs]. }
    destruct helper as [inside|]; [|discriminate E].
    destruct (negb (inside c)).
    { destruct (IH _ _ _ E) as [fs [Er [Hl Hs]]]. exists fs.
      split; [rewrite Er; f_equal; lia|]. split; [lia | exact Hs]. }
    destruct (IH _ _ _ E) as [fs [Er [Hl Hs]]]. exists (c :: fs).
    split; [rewrite Er, <- app_assoc; f_equal; lia|].
    split; [cbn [length]; lia|]. intros H. discriminate H.
Qed.

(** In the sources as they are, the call raises at the first candidate
    that overlaps no circle. *)
Lemma fillVoidsIn_raises (n : nat) :
  forall cs i,
    Perspective.fillVoidsIn rnd Perspective.sources n cs i = ReferenceError
    <->
    exists k, (k < n)%nat /\
      Perspective.overlapsAny cs
        (fst (Perspective.fillCandidate rnd (i + 3 * k)%nat)) = false.
Proof.
  induction n as [|n IH]; intros cs i.
  - cbn [Perspective.fillVoidsIn]. split; [discriminate|].
    intros [k [Hk _]]. lia.
  - rewrite fillVoidsIn_step.
    destruct (Perspective.fillCandidate rnd i) as [c j] eqn:Ec.
    assert (Hj : j = S (S (S i))).
    { rewrite fillCandidate_eq in Ec. inversion Ec. reflexivity. }
    subst j.
    destruct (Perspective.overlapsAny cs c) eqn:Eo.
    + rewrite IH. split.
      * intros [k [Hk Ho]]. exists (S k). split; [lia|].
        replace (i + 3 * S k)%nat with (S (S (S i)) + 3 * k)%nat by lia.
        exact Ho.
      * intros [k [Hk Ho]]. destruct k as [|k].
        -- replace (i + 3 * 0)%nat with i in Ho by lia.
           rewrite Ec in Ho. cbn [fst] in Ho. congruence.
        -- exists k. split; [lia|].
           replace (S (S (S i)) + 3 * k)%nat with (i + 3 * S k)%nat by lia.
           exact Ho.
    + unfold Perspective.sources. split; [|reflexivity].
      intros _. exists 0%nat. split; [lia|].
      replace (i + 3 * 0)%nat with i by lia.
      rewrite Ec. exact Eo.
Qed.

(** And it returns only if every candidate overlaps a circle; the list is
    then as it was. *)
Lemma fillVoidsIn_returns (n : nat) (cs : list Circle) (i : nat) :
  Perspective.fillVoidsIn rnd Perspective.sources n cs i
  = Returned (cs, (i + 3 * n)%nat)
  <->
  forall k, (k < n)%nat ->
    Perspective.overlapsAny cs
      (fst (Perspective.fillCandidate rnd (i + 3 * k)%nat)) = true.
Proof.
  split.
  - intros E k Hk.
    destruct (Perspective.overlapsAny cs
                (fst (Perspective.fillCandidate rnd (i + 3 * k)%nat))) eqn:Eo;
      [reflexivity|].
    assert (Hr : Perspective.fillVoidsIn rnd Perspective.sources n cs i
                 = ReferenceError).
    { apply fillVoidsIn_raises. exists k. split; assumption. }
    rewrite Hr in E. discriminate E.
  - intros H.
    destruct (Perspective.fillVoidsIn rnd Perspective.sources n cs i)
      as [r|] eqn:E.
    + destruct (fillVoidsIn_appends _ _ _ _ _ E) as [fs [Er [_ Hs]]].
      rewrite (Hs eq_refl), app_nil_r in Er. rewrite Er. reflexivity.
    + apply fillVoidsIn_raises in E. destruct E as [k [Hk Ho]].
      rewrite (H k Hk) in Ho. discriminate Ho.
Qed.

End FillerInProofs.

(** ** The chains the generators return *)



(** C1. Either generator returns, and the chain it returns satisfies: each
    circle after the first is at a distance from its predecessor equal to
    the sum of the two radii (exactly so in real arithmetic, hence within
    any epsilon); and two circles whose indices differ by more than one
    have centres at least the sum of their radii apart, minus the
    tolerance of the overlap test: none for the walk, 0.1 for the
    search. *)
Theorem C1_tangent_chain (rnd : nat -> R) (i : nat) :
  Spec.unitDraws rnd ->
  (exists cs j,
     Walk.generateTouchingCircles rnd i = Some (cs, j) /\
     Spec.tangentChain cs /\ Spec.separated 0 cs) /\
  (exists cs j,
     Perspective.generateTouchingCircles rnd i = Some (cs, j) /\
     Spec.tangentChain cs /\ Spec.separated (1 / 10) cs).
Proof.
  intros Hu. split.
  - destruct (walk_generate_spec rnd Hu i)
      as [c0 [tl [st [Eg [_ [_ [_ [Hinv _]]]]]]]].
    exists (Walk.circles st), (Walk.rng st).
    unfold Walk.generateTouchingCircles. rewrite Eg.
    split; [reflexivity|]. apply chainInv_separated. exact Hinv.
  - destruct (search_spec rnd Hu i) as [sd [j [st [_ [Es [_ [Hinv _]]]]]]].
    exists (Perspective.bestCircles st), (Perspective.rng st).
    unfold Perspective.generateTouchingCircles. rewrite Es.
    split; [reflexivity|]. apply chainInv_separated.
    destruct Hinv as [_ [Hb _]]. exact Hb.
Qed.

Lemma C1_tangent_chain_witness :
  (exists cs j,
     Walk.generateTouchingCircles (fun _ => 0) 0 = Some (cs, j) /\
     Spec.tangentChain cs /\ Spec.separated 0 cs) /\
  (exists cs j,
     Perspective.generateTouchingCircles (fun _ => 0) 0 = Some (cs, j) /\
     Spec.tangentChain cs /\ Spec.separated (1 / 10) cs).
Proof.
  apply (C1_tangent_chain (fun _ => 0) 0). intros n. lra.
Defined.






(** ** The seed stays first *)

Lemma seed_edgeAngle (c : Circle) :
  Spec.isSeed c -> exists a, edgeAngle (edge c) = Some a.
Proof.
  intros [e [He Hr]]. rewrite He.
  assert (H : e = 0%Z \/ e = 1%Z \/ e = 2%Z \/ e = 3%Z) by lia.
  destruct H as [H|[H|[H|H]]]; subst e; cbn [edgeAngle]; eexists;
    reflexivity.
Qed.

Lemma fit_cons (c0 : Circle) (rest : list Circle) :
  exists d0 ds,
    Perspective.fitRibbonToViewport (c0 :: rest) = d0 :: ds /\
    edge d0 = edge c0 /\ length ds = length rest.
Proof.
  unfold Perspective.fitRibbonToViewport. cbn [map].
  eexists. eexists. split; [reflexivity|]. cbn [edge].
  split; [reflexivity | apply length_map].
Qed.

(** C10. In both sketches the first circle of the list that [buildArcList]
    reads is the seed, with [edge] an integer from 0 to 3, so the look-up
    of the edge angle is defined.  The walk and the search return a chain
    that starts with the seed they placed; the fitter keeps the order and
    the [edge] field; the filler only appends; and the first arc of the
    perspective sketch starts at the seed's edge angle. *)
Theorem C10_seed_first (rnd : nat -> R) (i : nat) :
  Spec.unitDraws rnd ->
  (exists c0 tl arcs,
     Walk.setup rnd i = Some (c0 :: tl, arcs) /\
     c0 = fst (Walk.seed rnd i) /\ Spec.isSeed c0 /\
     exists a, edgeAngle (edge c0) = Some a) /\
  (exists sd tl j,
     Perspective.generateTouchingCircles rnd i = Some (sd :: tl, j) /\
     sd = fst (Perspective.seed rnd i) /\ Spec.isSeed sd /\
     exists f0 ftl,
       Perspective.fitRibbonToViewport (sd :: tl) = f0 :: ftl /\
       edge f0 = edge sd /\
       exists fillers k,
         Perspective.fillVoids rnd Perspective.FILL_ATTEMPTS (f0 :: ftl) j
         = ((f0 :: ftl) ++ fillers, k) /\
         exists s0 arcs a,
           Perspective.setup rnd i
           = Some ((f0 :: ftl) ++ fillers, s0 :: arcs) /\
           a1 s0 = Some a /\ edgeAngle (edge f0) = Some a).
Proof.
  intros Hu. split.
  - destruct (walk_generate_spec rnd Hu i)
      as [c0 [tl [st [Eg [Hcs [Hc0 [Hseed _]]]]]]].
    exists c0, tl, (buildArcList (c0 :: tl)).
    unfold Walk.setup, Walk.generateTouchingCircles. rewrite Eg, Hcs.
    split; [reflexivity|]. split; [exact Hc0|]. split; [exact Hseed|].
    apply seed_edgeAngle. exact Hseed.
  - destruct (search_spec rnd Hu i)
      as [sd [j [st [Esd [Es [Hseed [Hinv [Hlen _]]]]]]]].
    pose proof Hinv as [_ [_ [_ [[tl Hb] _]]]].
    exists sd, tl, (Perspective.rng st).
    unfold Perspective.setup, Perspective.generateTouchingCircles.
    rewrite Es, Hb.
    split; [reflexivity|]. split; [rewrite Esd; reflexivity|].
    split; [exact Hseed|].
    destruct (fit_cons sd tl) as [f0 [ftl [Ef [He Hl]]]].
    exists f0, ftl. split; [exact Ef|]. split; [exact He|].
    destruct (fillVoids_spec rnd Perspective.FILL_ATTEMPTS (f0 :: ftl)
                (Perspective.rng st)) as [fillers [Efill _]].
    exists fillers, (Perspective.rng st + 3 * Perspective.FILL_ATTEMPTS)%nat.
    split; [exact Efill|].
    rewrite Ef, Efill.
    assert (Hftl : ftl <> []).
    { intros H. subst ftl. cbn [length] in Hl.
      rewrite Hb in Hlen.
      unfold Perspective.len, Perspective.MAX_CIRCLES in Hlen.
      cbn [length] in Hlen. lia. }
    destruct ftl as [|f1 ftl']; [contradiction|].
    destruct (seed_edgeAngle sd Hseed) as [a Ha].
    eexists. eexists. exists a.
    split; [cbn [app buildArcList]; reflexivity|].
    cbn [a1]. rewrite He. split; exact Ha.
Qed.

Lemma C10_seed_first_witness :
  exists c0 tl arcs,
    Walk.setup (fun _ => 0) 0 = Some (c0 :: tl, arcs) /\
    c0 = fst (Walk.seed (fun _ => 0) 0%nat) /\ Spec.isSeed c0 /\
    exists a, edgeAngle (edge c0) = Some a.
Proof.
  refine (proj1 (C10_seed_first (fun _ => 0) 0 _)). intros n. lra.
Defined.

(** ** Arcs and filler circles *)



Lemma fit_length (cs : list Circle) :
  length (Perspective.fitRibbonToViewport cs) = length cs.
Proof.
  destruct cs as [|c0 rest]; [reflexivity|].
  unfold Perspective.fitRibbonToViewport. apply length_map.
Qed.




(** *** A run in which the filler raises: every draw is 1/10 *)

Lemma row_extent (y0 : R) (rest : list Circle) :
  (forall c, In c rest -> y c = y0) ->
  forall rho,
    exists rho',
      fold_left (fun m c => Rmin m (y c - radius c)) rest (y0 - rho)
      = y0 - rho' /\
      fold_left (fun m c => Rmax m (y c + radius c)) rest (y0 + rho)
      = y0 + rho'.
Proof.
  induction rest as [|c rest IH]; intros Hy rho; cbn [fold_left].
  - exists rho. split; reflexivity.
  - rewrite (Hy c (or_introl eq_refl)).
    replace (Rmin (y0 - rho) (y0 - radius c))
      with (y0 - Rmax rho (radius c)).
    2:{ unfold Rmin, Rmax.
        destruct (Rle_dec (y0 - rho) (y0 - radius c));
          destruct (Rle_dec rho (radius c)); lra. }
    replace (Rmax (y0 + rho) (y0 + radius c))
      with (y0 + Rmax rho (radius c)).
    2:{ unfold Rmax.
        destruct (Rle_dec (y0 + rho) (y0 + radius c));
          destruct (Rle_dec rho (radius c)); lra. }
    apply IH. intros d Hd. apply Hy. right. exact Hd.
Qed.

(** The fitter puts a horizontal chain on the middle line of the canvas,
    and does not enlarge a circle. *)
Lemma fit_row (y0 : R) (c0 : Circle) (rest : list Circle) :
  (forall c, In c (c0 :: rest) -> y c = y0) ->
  (forall c, In c (c0 :: rest) -> MIN_R <= radius c < MAX_R) ->
  forall d, In d (Perspective.fitRibbonToViewport (c0 :: rest)) ->
            y d = CANVAS_H * (1 / 2) /\ radius d < MAX_R.
Proof.
  intros Hy Hr d Hd. unfold Perspective.fitRibbonToViewport in Hd.
  apply in_map_iff in Hd. destruct Hd as [c [Hd Hc]]. subst d.
  cbn [y radius].
  assert (Hr0 : 0 < radius c0).
  { pose proof (Hr c0 (or_introl eq_refl)). unfold MIN_R in *. lra. }
  pose proof (fitScale_range c0 rest Hr0) as Hk.
  destruct (row_extent y0 rest (fun c H => Hy c (or_intror H)) (radius c0))
    as [rho [Hlo Hhi]].
  split.
  - unfold Perspective.lowest, Perspective.highest.
    rewrite (Hy c0 (or_introl eq_refl)), Hlo, Hhi, (Hy c Hc).
    field.
  - pose proof (Hr c Hc) as Hrc. unfold MIN_R, MAX_R in *. nra.
Qed.

Lemma tenth_draws : Spec.unitDraws (fun _ => 1 / 10).
Proof. intros n. lra. Qed.

(** In the run whose draws are all 1/10 the first candidate of the
    filler, of radius 13.8 at (108, 108), overlaps no circle of the fitted
    chain, which lies along the middle line. *)
Lemma tenth_candidate_clear :
  exists chain j,
    Perspective.generateTouchingCircles (fun _ => 1 / 10) 0
    = Some (chain, j) /\
    Perspective.fillCandidate (fun _ => 1 / 10) j
    = (mkCircle (1 / 10 * CANVAS_W) (1 / 10 * CANVAS_H)
                (1 / 10 * (30 - 12) + 12) None, S (S (S j))) /\
    Perspective.overlapsAny (Perspective.fitRibbonToViewport chain)
      (mkCircle (1 / 10 * CANVAS_W) (1 / 10 * CANVAS_H)
                (1 / 10 * (30 - 12) + 12) None) = false.
Proof.
  set (rnd := fun _ : nat => 1 / 10).
  destruct (search_spec rnd tenth_draws 0)
    as [sd [j [st [_ [Es [_ [Hinv [Hlen [_ Hy]]]]]]]]].
  pose proof Hinv as [_ [[_ [Hrad _]] [_ [[tl Hb] _]]]].
  set (chain := Perspective.bestCircles st) in *.
  set (fitted := Perspective.fitRibbonToViewport chain).
  exists chain, (Perspective.rng st).
  split; [unfold Perspective.generateTouchingCircles; rewrite Es;
          reflexivity|].
  split; [apply fillCandidate_eq|].
  set (c := mkCircle (1 / 10 * CANVAS_W) (1 / 10 * CANVAS_H)
                     (1 / 10 * (30 - 12) + 12) None).
  assert (Hfit : forall d, In d fitted ->
                   y d = CANVAS_H * (1 / 2) /\ radius d < MAX_R).
  { unfold fitted. rewrite Hb. apply (fit_row (y sd)).
    - intros d Hd. apply Hy. rewrite Hb. exact Hd.
    - intros d Hd. unfold Spec.radiiInRange in Hrad.
      rewrite Forall_forall in Hrad. apply Hrad. rewrite Hb. exact Hd. }
  apply existsb_none. intros d Hd. apply Rltb_false.
  destruct (Hfit d Hd) as [Hyd Hrd].
  rewrite dist_sym.
  pose proof (dist_ge_dy (x c) (y c) (x d) (y d)) as Hdist.
  rewrite Hyd in Hdist. unfold c in Hdist |- *. cbn [x y radius] in *.
  unfold CANVAS_H, CANVAS_W, MAX_R in *. rewrite Hyd. lra.
Qed.

(** C3 (what the code does). In the sources as they are the name
    [fullyInsideViewport] is bound to nothing.  A call of [fillVoids]
    raises a [ReferenceError] exactly when one of its candidates overlaps
    no circle of the list, at the first such candidate; it returns only
    when every candidate overlaps a circle, and then the list is as it
    was: no circle is ever accepted.  In the run whose draws are all 1/10
    the first candidate, of radius 13.8 at (108, 108), is clear of the
    fitted chain, and [setup] ends with the error. *)
Theorem C3_fill_raises (rnd : nat -> R) (n : nat) (cs : list Circle)
  (i : nat) :
  (Perspective.fillVoidsIn rnd Perspective.sources n cs i = ReferenceError
   <->
   exists k, (k < n)%nat /\
     Perspective.overlapsAny cs
       (fst (Perspective.fillCandidate rnd (i + 3 * k)%nat)) = false) /\
  (Perspective.fillVoidsIn rnd Perspective.sources n cs i
   = Returned (cs, (i + 3 * n)%nat)
   <->
   forall k, (k < n)%nat ->
     Perspective.overlapsAny cs
       (fst (Perspective.fillCandidate rnd (i + 3 * k)%nat)) = true) /\
  (forall r,
     Perspective.fillVoidsIn rnd Perspective.sources n cs i = Returned r ->
     r = (cs, (i + 3 * n)%nat)) /\
  Perspective.fillVoidsIn (fun _ => 1 / 10) Perspective.sources
    Perspective.FILL_ATTEMPTS [] 0 = ReferenceError /\
  Perspective.setupIn (fun _ => 1 / 10) Perspective.sources 0
  = Some ReferenceError.
Proof.
  split; [apply fillVoidsIn_raises|].
  split; [apply fillVoidsIn_returns|].
  split.
  { intros r E.
    destruct (fillVoidsIn_appends _ _ _ _ _ _ E) as [fs [Er [_ Hs]]].
    rewrite (Hs eq_refl), app_nil_r in Er. exact Er. }
  split.
  { apply fillVoidsIn_raises. exists 0%nat.
    split; [unfold Perspective.FILL_ATTEMPTS; lia | reflexivity]. }
  destruct tenth_candidate_clear as [chain [j [Eg [Ec Eo]]]].
  unfold Perspective.setupIn. rewrite Eg. cbv zeta.
  replace (Perspective.fillVoidsIn (fun _ => 1 / 10) Perspective.sources
             Perspective.FILL_ATTEMPTS
             (Perspective.fitRibbonToViewport chain) j)
    with (@ReferenceError (list Circle * nat)); [reflexivity|].
  symmetry. apply fillVoidsIn_raises. exists 0%nat.
  split; [unfold Perspective.FILL_ATTEMPTS; lia|].
  replace (j + 3 * 0)%nat with j by lia.
  rewrite Ec. exact Eo.
Qed.

(** With the name bound to the function the spec describes, that
    candidate is accepted, and the arc list of [setup] has an arc for it:
    300 arcs or more, where the fitted chain alone has 299. *)
Lemma filler_reaches_arcs :
  exists chain fillers,
    Perspective.setupIn (fun _ => 1 / 10)
      (Some Perspective.fullyInsideViewport) 0
    = Some (Returned
              (Perspective.fitRibbonToViewport chain
               ++ mkCircle (1 / 10 * CANVAS_W) (1 / 10 * CANVAS_H)
                           (1 / 10 * (30 - 12) + 12) None :: fillers,
               buildArcList
                 (Perspective.fitRibbonToViewport chain
                  ++ mkCircle (1 / 10 * CANVAS_W) (1 / 10 * CANVAS_H)
                              (1 / 10 * (30 - 12) + 12) None :: fillers))) /\
    length (buildArcList (Perspective.fitRibbonToViewport chain)) = 299%nat /\
    length (buildArcList
              (Perspective.fitRibbonToViewport chain
               ++ mkCircle (1 / 10 * CANVAS_W) (1 / 10 * CANVAS_H)
                           (1 / 10 * (30 - 12) + 12) None :: fillers))
    = (300 + length fillers)%nat.
Proof.
  destruct tenth_candidate_clear as [chain [j [Eg [Ec Eo]]]].
  destruct (search_spec _ tenth_draws 0)
    as [sd [j' [st [_ [Es [_ [_ [Hlen _]]]]]]]].
  assert (Hl : length (Perspective.fitRibbonToViewport chain) = 300%nat).
  { unfold Perspective.generateTouchingCircles in Eg. rewrite Es in Eg.
    inversion Eg. rewrite fit_length.
    unfold Perspective.len, Perspective.MAX_CIRCLES in Hlen. lia. }
  set (c := mkCircle (1 / 10 * CANVAS_W) (1 / 10 * CANVAS_H)
                     (1 / 10 * (30 - 12) + 12) None) in *.
  assert (Ei : Perspective.fullyInsideViewport c = true).
  { unfold Perspective.fullyInsideViewport, c. cbn [x y radius].
    unfold CANVAS_W, CANVAS_H, Perspective.VIEWPORT.
    rewrite !andb_true_iff, !Rleb_true. lra. }
  set (budget := Nat.pred Perspective.FILL_ATTEMPTS).
  destruct (fillVoids_spec (fun _ => 1 / 10) budget
              (Perspective.fitRibbonToViewport chain ++ [c])
              (S (S (S j)))) as [fillers [Ef _]].
  exists chain, fillers.
  rewrite setupIn_bound. unfold Perspective.setup. rewrite Eg. cbv zeta.
  change Perspective.FILL_ATTEMPTS with (S budget).
  rewrite fillVoids_step, Ec, Eo, Ei. cbn [negb]. rewrite Ef.
  rewrite <- app_assoc. cbn [app option_map].
  split; [reflexivity|].
  split; [rewrite buildArcList_length by lia; lia|].
  rewrite buildArcList_length; rewrite length_app; cbn [length]; lia.
Qed.

(* ================================================================== *)
(** * Further properties of the code *)
(* ================================================================== *)

(** ** Angles *)

Lemma trunc_bounds (v : R) :
  (0 <= v -> IZR (trunc v) <= v < IZR (trunc v) + 1) /\
  (v < 0 -> v <= IZR (trunc v) < v + 1).
Proof.
  unfold trunc. split; intros H.
  - destruct (Rle_dec 0 v) as [H0|H0]; [|lra].
    destruct (base_Int_part v). lra.
  - destruct (Rle_dec 0 v) as [H0|H0]; [lra|].
    destruct (base_Int_part (- v)). rewrite opp_IZR. lra.
Qed.

(** The remainder has the sign of the dividend and is smaller than the
    divisor; it differs from the dividend by a multiple of the divisor. *)
Lemma jsrem_range (a b : R) :
  0 < b ->
  (0 <= a -> 0 <= jsrem a b < b) /\ (a < 0 -> - b < jsrem a b <= 0).
Proof.
  intros Hb. unfold jsrem.
  assert (Ha : a = b * (a / b)) by (field; lra).
  destruct (trunc_bounds (a / b)) as [Hp Hn].
  assert (Hsign : (0 <= a -> 0 <= a / b) /\ (a < 0 -> a / b < 0)).
  { split; intros H.
    - apply Rmult_le_pos; [exact H|].
      left. apply Rinv_0_lt_compat. exact Hb.
    - unfold Rdiv. rewrite <- (Rmult_0_l (/ b)).
      apply Rmult_lt_compat_r; [apply Rinv_0_lt_compat; exact Hb | exact H]. }
  destruct Hsign as [Hs1 Hs2].
  set (t := a / b) in *. clearbody t. subst a.
  set (q := IZR (trunc t)) in *. clearbody q.
  split; intros H.
  - specialize (Hp (Hs1 H)). nra.
  - specialize (Hn (Hs2 H)). nra.
Qed.

Lemma jsrem_shift (a b : R) : exists k : Z, jsrem a b = a + IZR k * b.
Proof.
  exists (- trunc (a / b))%Z. unfold jsrem. rewrite opp_IZR. ring.
Qed.

Lemma two_pi_pos : 0 < TWO_PI.
Proof. unfold TWO_PI. pose proof PI_RGT_0. lra. Qed.

Lemma wrapAngle_spec (a : R) :
  0 <= wrapAngle a < TWO_PI /\ Shape.sameDirection (wrapAngle a) a.
Proof.
  pose proof two_pi_pos as Hp. unfold wrapAngle.
  destruct (jsrem_range a TWO_PI Hp) as [Hpos Hneg].
  destruct (jsrem_shift a TWO_PI) as [k1 Hk1].
  destruct (jsrem_shift (jsrem a TWO_PI + TWO_PI) TWO_PI) as [k2 Hk2].
  split.
  - apply (jsrem_range (jsrem a TWO_PI + TWO_PI) TWO_PI Hp).
    destruct (Rle_dec 0 a) as [H|H].
    + specialize (Hpos H). lra.
    + assert (H' : a < 0) by lra. specialize (Hneg H'). lra.
  - exists (k1 + 1 + k2)%Z. rewrite Hk2, Hk1, !plus_IZR. ring.
Qed.

(** Two angles of one turn that differ by whole turns are equal. *)
Lemma sameDirection_unique (a b : R) :
  0 <= a < TWO_PI -> 0 <= b < TWO_PI -> Shape.sameDirection a b -> a = b.
Proof.
  intros Ha Hb [k Hk]. pose proof two_pi_pos as Hp.
  assert (H1 : (-1 < k)%Z).
  { apply lt_IZR. apply Rmult_lt_reg_r with TWO_PI; [exact Hp|]. lra. }
  assert (H2 : (k < 1)%Z).
  { apply lt_IZR. apply Rmult_lt_reg_r with TWO_PI; [exact Hp|]. lra. }
  assert (k = 0%Z) by lia. subst k. lra.
Qed.

(** X1. [drawArcSegment] first brings an angle into one turn: the wrapped
    angle lies in [0, TWO_PI), differs from the angle by a whole number of
    turns, and is the angle itself when that already lies in one turn. *)
Theorem wrapAngle_one_turn (a : R) :
  0 <= wrapAngle a < TWO_PI /\
  Shape.sameDirection (wrapAngle a) a /\
  (0 <= a < TWO_PI -> wrapAngle a = a) /\
  wrapAngle (wrapAngle a) = wrapAngle a.
Proof.
  destruct (wrapAngle_spec a) as [Hr Hs].
  split; [exact Hr|]. split; [exact Hs|]. split.
  - intros Ha. apply sameDirection_unique; assumption.
  - destruct (wrapAngle_spec (wrapAngle a)) as [Hr2 Hs2].
    apply sameDirection_unique; assumption.
Qed.

(** X2. With both angles defined, [drawArcSegment] hands [arc] a start
    angle in [0, TWO_PI) and a stop angle strictly after it and at most one
    turn later: the sweep is never empty, and is a full turn when the two
    angles coincide.  For a clockwise segment the start is [a1] and the
    stop [a2], up to whole turns; for a counter-clockwise one they are
    exchanged. *)
Theorem arc_sweep (s : ArcSeg) (v1 : R) :
  a1 s = Some v1 ->
  exists start stop,
    arcAngles s = (Some start, Some stop) /\
    0 <= start < TWO_PI /\
    start < stop <= start + TWO_PI /\
    Shape.sameDirection start (if cw s then v1 else a2 s) /\
    Shape.sameDirection stop (if cw s then a2 s else v1) /\
    (wrapAngle v1 = wrapAngle (a2 s) -> stop = start + TWO_PI).
Proof.
  intros H1. unfold arcAngles. rewrite H1.
  destruct (wrapAngle_spec v1) as [Hr1 [k1 Hk1]].
  destruct (wrapAngle_spec (a2 s)) as [Hr2 [k2 Hk2]].
  destruct (cw s).
  - eexists. eexists. split; [reflexivity|]. split; [exact Hr1|].
    destruct (Rleb (wrapAngle (a2 s)) (wrapAngle v1)) eqn:E.
    + apply Rleb_true in E. split; [lra|].
      split; [exists k1; exact Hk1|].
      split; [exists (k2 + 1)%Z; rewrite plus_IZR; lra|].
      intros He. rewrite He. reflexivity.
    + apply Rleb_false in E. split; [lra|].
      split; [exists k1; exact Hk1|].
      split; [exists k2; exact Hk2|]. intros He. lra.
  - eexists. eexists. split; [reflexivity|]. split; [exact Hr2|].
    destruct (Rleb (wrapAngle v1) (wrapAngle (a2 s))) eqn:E.
    + apply Rleb_true in E. split; [lra|].
      split; [exists k2; exact Hk2|].
      split; [exists (k1 + 1)%Z; rewrite plus_IZR; lra|].
      intros He. rewrite He. reflexivity.
    + apply Rleb_false in E. split; [lra|].
      split; [exists k2; exact Hk2|].
      split; [exists k1; exact Hk1|]. intros He. lra.
Qed.

Lemma arc_sweep_witness :
  exists start stop,
    arcAngles (mkArc 0 0 1 (Some 0) 0 true) = (Some start, Some stop) /\
    0 <= start < TWO_PI /\
    start < stop <= start + TWO_PI.
Proof.
  destruct (arc_sweep (mkArc 0 0 1 (Some 0) 0 true) 0 eq_refl)
    as [start [stop [E [H1 [H2 _]]]]].
  exists start, stop. split; [exact E|]. split; [exact H1 | exact H2].
Defined.

(** ** The arcs, by index *)

Lemma even_rem (i : Z) (j : nat) :
  (0 <= i)%Z ->
  (Z.rem (i + Z.of_nat j) 2 =? 0)%Z = Nat.even (Z.to_nat i + j).
Proof.
  intros Hi. rewrite Z.rem_mod_nonneg by lia.
  destruct (Nat.Even_or_Odd (Z.to_nat i + j)) as [[m Hm]|[m Hm]].
  - replace (Nat.even (Z.to_nat i + j)) with true
      by (symmetry; apply Nat.even_spec; exists m; exact Hm).
    apply Z.eqb_eq.
    replace (i + Z.of_nat j)%Z with (Z.of_nat m * 2)%Z by lia.
    apply Z.mod_mul. lia.
  - replace (Nat.even (Z.to_nat i + j)) with false.
    + apply Z.eqb_neq.
      replace (i + Z.of_nat j)%Z with (1 + Z.of_nat m * 2)%Z by lia.
      rewrite Z.mod_add by lia. discriminate.
    + symmetry. rewrite <- Nat.negb_odd.
      replace (Nat.odd (Z.to_nat i + j)) with true; [reflexivity|].
      symmetry. apply Nat.odd_spec. exists m. exact Hm.
Qed.

(** The arc the loop of [buildArcList] pushes at its [j]-th turn. *)
Lemma chainArcs_nth (rest : list Circle) :
  forall (i : Z) (prev : Circle) (j : nat) (p c n : Circle),
    (0 <= i)%Z ->
    nth_error (prev :: rest) j = Some p ->
    nth_error rest j = Some c ->
    nth_error rest (S j) = Some n ->
    nth_error (chainArcs i prev rest) j
    = Some (mkArc (x c) (y c) (radius c)
              (Some (atan2 (y c - y p) (x c - x p) + PI))
              (atan2 (y n - y c) (x n - x c))
              (Nat.even (Z.to_nat i + j))).
Proof.
  induction rest as [|cur tl IH]; intros i prev j p c n Hi Hp Hc Hn.
  - destruct j; discriminate.
  - destruct tl as [|nxt tl'].
    { destruct j as [|j]; cbn in Hn; [discriminate|].
      destruct j; discriminate. }
    rewrite chainArcs_step. destruct j as [|j].
    + assert (E1 : prev = p) by (cbn in Hp; congruence).
      assert (E2 : cur = c) by (cbn in Hc; congruence).
      assert (E3 : nxt = n) by (cbn in Hn; congruence).
      subst. cbn [nth_error]. f_equal. f_equal.
      rewrite <- (even_rem i 0 Hi). f_equal. f_equal. cbn. lia.
    + cbn [nth_error] in Hp, Hc, Hn |- *.
      rewrite (IH (i + 1)%Z cur j p c n ltac:(lia) Hp Hc Hn).
      f_equal. f_equal. f_equal. rewrite Z2Nat.inj_add by lia.
      change (Z.to_nat 1) with 1%nat. lia.
Qed.

Lemma buildArcList_first (cs : list Circle) (c0 c1 : Circle) :
  nth_error cs 0 = Some c0 -> nth_error cs 1 = Some c1 ->
  nth_error (buildArcList cs) 0
  = Some (mkArc (x c0) (y c0) (radius c0) (edgeAngle (edge c0))
            (atan2 (y c1 - y c0) (x c1 - x c0)) true).
Proof.
  intros H0 H1. destruct cs as [|d0 [|d1 tl]]; try discriminate.
  cbn in H0, H1. inversion H0. inversion H1. subst. reflexivity.
Qed.

Lemma buildArcList_inner (cs : list Circle) (i : nat) (p c n : Circle) :
  nth_error cs i = Some p -> nth_error cs (S i) = Some c ->
  nth_error cs (S (S i)) = Some n ->
  nth_error (buildArcList cs) (S i)
  = Some (mkArc (x c) (y c) (radius c)
            (Some (atan2 (y c - y p) (x c - x p) + PI))
            (atan2 (y n - y c) (x n - x c))
            (Nat.even (S i))).
Proof.
  intros Hp Hc Hn. destruct cs as [|d0 [|d1 tl]].
  { destruct i; discriminate. }
  { cbn in Hc. destruct i; discriminate. }
  cbn [buildArcList nth_error].
  apply (chainArcs_nth (d1 :: tl) 1 d0 i p c n); [lia | exact Hp | | ];
    assumption.
Qed.

(** X3. The arcs by index.  Arc 0 is centred at the seed, starts at the
    seed's edge angle, ends towards circle 1 and is clockwise; for i >= 1
    arc i is centred at circle i, starts opposite the direction from
    circle i-1, ends towards circle i+1, and is clockwise exactly when i is
    even: the turning sense alternates along the chain. *)
Theorem arc_at_index (cs : list Circle) :
  (forall c0 c1,
     nth_error cs 0 = Some c0 -> nth_error cs 1 = Some c1 ->
     nth_error (buildArcList cs) 0
     = Some (mkArc (x c0) (y c0) (radius c0) (edgeAngle (edge c0))
               (atan2 (y c1 - y c0) (x c1 - x c0)) true)) /\
  (forall i p c n,
     nth_error cs i = Some p -> nth_error cs (S i) = Some c ->
     nth_error cs (S (S i)) = Some n ->
     nth_error (buildArcList cs) (S i)
     = Some (mkArc (x c) (y c) (radius c)
               (Some (atan2 (y c - y p) (x c - x p) + PI))
               (atan2 (y n - y c) (x n - x c))
               (Nat.even (S i)))).
Proof.
  split.
  - intros c0 c1. apply buildArcList_first.
  - intros i p c n. apply buildArcList_inner.
Qed.

(** ** Where consecutive arcs meet *)

Lemma hyp_factor (dx dy : R) :
  dx <> 0 ->
  sqrt (dx * dx + dy * dy) = Rabs dx * sqrt (1 + (dy / dx)²).
Proof.
  intros Hx.
  replace (dx * dx + dy * dy) with (dx² * (1 + (dy / dx)²))
    by (unfold Rsqr; field; exact Hx).
  rewrite sqrt_mult.
  - rewrite sqrt_Rsqr_abs. reflexivity.
  - apply Rle_0_sqr.
  - pose proof (Rle_0_sqr (dy / dx)). lra.
Qed.

(** The vector [(dx, dy)] in polar form, at the angle [atan2(dy, dx)]. *)
Lemma atan2_polar (dx dy : R) :
  sqrt (dx * dx + dy * dy) * cos (atan2 dy dx) = dx /\
  sqrt (dx * dx + dy * dy) * sin (atan2 dy dx) = dy.
Proof.
  assert (Hs : forall t, 0 < sqrt (1 + t²)).
  { intros t. apply sqrt_lt_R0. pose proof (Rle_0_sqr t). lra. }
  unfold atan2.
  destruct (Rlt_dec 0 dx) as [Hpos|Hpos].
  { rewrite hyp_factor by lra. rewrite Rabs_pos_eq by lra.
    rewrite cos_atan, sin_atan. pose proof (Hs (dy / dx)).
    split; field; lra. }
  destruct (Rlt_dec dx 0) as [Hneg|Hneg].
  { rewrite hyp_factor by lra. rewrite Rabs_left by lra.
    pose proof (Hs (dy / dx)).
    destruct (Rle_dec 0 dy) as [Hy|Hy].
    - rewrite neg_cos, neg_sin, cos_atan, sin_atan. split; field; lra.
    - rewrite cos_minus, sin_minus, cos_PI, sin_PI, cos_atan, sin_atan.
      split; field; lra. }
  assert (Hx : dx = 0) by lra. subst dx.
  replace (0 * 0 + dy * dy) with (dy²) by (unfold Rsqr; ring).
  rewrite sqrt_Rsqr_abs.
  destruct (Rlt_dec 0 dy) as [Hy|Hy].
  { rewrite Rabs_pos_eq by lra. rewrite cos_PI2, sin_PI2. lra. }
  destruct (Rlt_dec dy 0) as [Hy'|Hy'].
  { rewrite Rabs_left by lra. rewrite cos_neg, sin_neg, cos_PI2, sin_PI2.
    lra. }
  assert (Hd : dy = 0) by lra. subst dy.
  rewrite Rabs_R0, cos_0, sin_0. lra.
Qed.

(** Where circle [c] touches its predecessor [p], the arc of [p] ends
    where the arc of [c] starts. *)
Lemma arcs_join (cs : list Circle) (i : nat) (p c n : Circle) :
  nth_error cs i = Some p -> nth_error cs (S i) = Some c ->
  nth_error cs (S (S i)) = Some n ->
  Spec.centres c p = radius c + radius p ->
  exists s t v,
    nth_error (buildArcList cs) i = Some s /\
    nth_error (buildArcList cs) (S i) = Some t /\
    a1 t = Some v /\
    Spec.arcDisc s = Spec.disc p /\ Spec.arcDisc t = Spec.disc c /\
    Shape.pointAt s (a2 s) = Shape.pointAt t v.
Proof.
  intros Hp Hc Hn Htan.
  pose proof (buildArcList_inner cs i p c n Hp Hc Hn) as Ht.
  set (theta := atan2 (y c - y p) (x c - x p)) in *.
  assert (Hs : exists s, nth_error (buildArcList cs) i = Some s /\
                         Spec.arcDisc s = Spec.disc p /\ a2 s = theta).
  { destruct i as [|i].
    - eexists. split; [apply (buildArcList_first cs p c Hp Hc)|].
      split; reflexivity.
    - destruct (nth_error cs i) as [q|] eqn:Hq.
      + eexists. split; [apply (buildArcList_inner cs i q p c Hq Hp Hc)|].
        split; reflexivity.
      + apply nth_error_None in Hq.
        assert (Hsome : nth_error cs (S i) <> None)
          by (rewrite Hp; discriminate).
        apply nth_error_Some in Hsome. lia. }
  destruct Hs as [s [Es [Hd Ha]]].
  eexists s, _, _. split; [exact Es|]. split; [exact Ht|].
  split; [reflexivity|]. split; [exact Hd|]. split; [reflexivity|].
  unfold Shape.pointAt. cbn [cx cy r]. rewrite Ha.
  unfold Spec.arcDisc, Spec.disc in Hd. inversion Hd as [[Hx Hy Hr]].
  rewrite neg_cos, neg_sin.
  unfold Spec.centres in Htan. rewrite dist_sym in Htan. unfold dist in Htan.
  destruct (atan2_polar (x c - x p) (y c - y p)) as [Hcos Hsin].
  fold theta in Hcos, Hsin. rewrite Htan in Hcos, Hsin.
  f_equal; nra.
Qed.

(** In a list whose first [m] circles form a tangent chain, the arcs of
    those circles join one another. *)
Lemma arcs_join_all (cs : list Circle) (m : nat) :
  (forall i a b, (S i < m)%nat ->
     nth_error cs i = Some a -> nth_error cs (S i) = Some b ->
     Spec.centres b a = radius b + radius a) ->
  (m <= length cs)%nat ->
  forall k s t,
    (S (S k) < m)%nat ->
    nth_error (buildArcList cs) k = Some s ->
    nth_error (buildArcList cs) (S k) = Some t ->
    exists v, a1 t = Some v /\ Shape.pointAt s (a2 s) = Shape.pointAt t v.
Proof.
  intros Htan Hm k s t Hk Hs Ht.
  assert (Hex : forall j, (j < m)%nat -> exists c, nth_error cs j = Some c).
  { intros j Hj. destruct (nth_error cs j) as [c|] eqn:E.
    - exists c. reflexivity.
    - apply nth_error_None in E. lia. }
  destruct (Hex k ltac:(lia)) as [p Hp].
  destruct (Hex (S k) ltac:(lia)) as [c Hc].
  destruct (Hex (S (S k)) ltac:(lia)) as [n Hn].
  destruct (arcs_join cs k p c n Hp Hc Hn (Htan k p c ltac:(lia) Hp Hc))
    as [s' [t' [v [Es [Et [Hv [_ [_ Hmeet]]]]]]]].
  rewrite Hs in Es. rewrite Ht in Et. inversion Es. inversion Et. subst s' t'.
  exists v. split; [exact Hv | exact Hmeet].
Qed.

(** X4. Consecutive arcs join.  Where circle i+1 touches circle i, the end
    of arc i (the point of circle i at the angle [a2]) is the start of arc
    i+1 (the point of circle i+1 at its angle [a1]): the outline is one
    unbroken curve through the points of tangency. *)
Theorem arcs_meet (cs : list Circle) (i : nat) (p c n : Circle) :
  nth_error cs i = Some p -> nth_error cs (S i) = Some c ->
  nth_error cs (S (S i)) = Some n ->
  Spec.centres c p = radius c + radius p ->
  exists s t v,
    nth_error (buildArcList cs) i = Some s /\
    nth_error (buildArcList cs) (S i) = Some t /\
    a1 t = Some v /\
    Spec.arcDisc s = Spec.disc p /\ Spec.arcDisc t = Spec.disc c /\
    Shape.pointAt s (a2 s) = Shape.pointAt t v /\
    Shape.pointAt s (a2 s)
    = (x p + radius p * cos (atan2 (y c - y p) (x c - x p)),
       y p + radius p * sin (atan2 (y c - y p) (x c - x p))).
Proof.
  intros Hp Hc Hn Htan.
  destruct (arcs_join cs i p c n Hp Hc Hn Htan)
    as [s [t [v [Es [Et [Hv [Hds [Hdt Hmeet]]]]]]]].
  exists s, t, v. repeat (split; [assumption|]).
  assert (Ha : a2 s = atan2 (y c - y p) (x c - x p)).
  { destruct i as [|i].
    - rewrite (buildArcList_first cs p c Hp Hc) in Es. inversion Es.
      reflexivity.
    - destruct (nth_error cs i) as [q|] eqn:Hq.
      + rewrite (buildArcList_inner cs i q p c Hq Hp Hc) in Es.
        inversion Es. reflexivity.
      + apply nth_error_None in Hq.
        assert (Hsome : nth_error cs (S i) <> None)
          by (rewrite Hp; discriminate).
        apply nth_error_Some in Hsome. lia. }
  unfold Shape.pointAt. rewrite Ha.
  unfold Spec.arcDisc, Spec.disc in Hds. inversion Hds as [[Hx Hy Hr]].
  reflexivity.
Qed.

Lemma arcs_meet_witness :
  exists s t v,
    nth_error (buildArcList [mkCircle 0 0 1 (Some 3%Z); mkCircle 2 0 1 None;
                             mkCircle 4 0 1 None]) 0 = Some s /\
    nth_error (buildArcList [mkCircle 0 0 1 (Some 3%Z); mkCircle 2 0 1 None;
                             mkCircle 4 0 1 None]) 1 = Some t /\
    a1 t = Some v /\
    Shape.pointAt s (a2 s) = Shape.pointAt t v.
Proof.
  destruct (arcs_meet [mkCircle 0 0 1 (Some 3%Z); mkCircle 2 0 1 None;
                       mkCircle 4 0 1 None] 0
              (mkCircle 0 0 1 (Some 3%Z)) (mkCircle 2 0 1 None)
              (mkCircle 4 0 1 None) eq_refl eq_refl eq_refl)
    as [s [t [v [Hs [Ht [Hv [_ [_ [Hm _]]]]]]]]].
  - unfold Spec.centres. cbn [x y radius]. rewrite dist_sym.
    rewrite dist_row by lra. lra.
  - exists s, t, v. repeat (split; [assumption|]). exact Hm.
Defined.

(** ** The walk: where [safeAngle] points *)

Section Steering.
Variable rnd : nat -> R.
Hypothesis rnd_unit : Spec.unitDraws rnd.

(** Whatever the order of the bounds, the draw lies between them. *)
Lemma random2_between (lo hi : R) (i : nat) :
  Rmin lo hi <= fst (random2 rnd lo hi i) <= Rmax lo hi.
Proof.
  unfold random2, Rmin, Rmax. pose proof (rnd_unit i) as Hu.
  destruct (Rlt_dec hi lo) as [H|H]; destruct (Rle_dec lo hi) as [H'|H'];
    cbn [fst]; try lra; nra.
Qed.

Lemma half_pi_pos : 0 < HALF_PI.
Proof. unfold HALF_PI. pose proof PI_RGT_0. lra. Qed.

(** The quadrants [safeAngle] draws from, by the edges the circle meets. *)
Lemma safeAngle_range (c : Circle) (i : nat) :
  let ang := fst (Walk.safeAngle rnd c i) in
  let L := Rleb (x c - radius c) 0 in
  let Rt := negb L && Rleb Walk.width (x c + radius c) in
  let T := Rleb (y c - radius c) 0 in
  let B := negb T && Rleb Walk.height (y c + radius c) in
  (L && negb B = true -> - HALF_PI <= ang <= HALF_PI) /\
  (Rt = true -> HALF_PI <= ang <= PI + HALF_PI) /\
  (T = true -> 0 <= ang <= PI) /\
  (B && negb L = true -> PI <= ang <= TWO_PI) /\
  (L && B = true -> HALF_PI <= ang <= PI).
Proof.
  cbv zeta. unfold Walk.safeAngle, Walk.safeRange.
  pose proof PI_RGT_0 as Hpi.
  destruct (Rleb (x c - radius c) 0);
    destruct (Rleb Walk.width (x c + radius c));
    destruct (Rleb (y c - radius c) 0);
    destruct (Rleb Walk.height (y c + radius c));
    cbn [negb andb];
    match goal with
    | |- context [random2 rnd ?lo ?hi i] =>
        pose proof (random2_between lo hi i) as Hb;
        destruct (random2 rnd lo hi i) as [ang j]
    end;
    cbn [fst] in *; unfold HALF_PI, TWO_PI in *;
    repeat split; intros; try discriminate;
    unfold Rmin, Rmax in Hb;
    repeat match type of Hb with
           | context [Rle_dec ?a ?b] => destruct (Rle_dec a b)
           end; lra.
Qed.

(** The candidate of the walk, spelt out. *)
Lemma walk_candidate_eq (cs : list Circle) (last : Circle) (i : nat) :
  (Walk.len cs < 30)%Z ->
  exists newR,
    MIN_R <= newR < MAX_R /\
    fst (Walk.candidate rnd cs last i)
    = mkCircle
        (x last + cos (fst (Walk.safeAngle rnd last (S i)))
                  * (radius last + newR))
        (y last + sin (fst (Walk.safeAngle rnd last (S i)))
                  * (radius last + newR))
        newR None.
Proof.
  intros Hlen. unfold Walk.candidate, bind, ret.
  destruct (radius_draw rnd rnd_unit i) as [newR [Er Hr]]. rewrite Er.
  replace (Walk.len cs <? 30)%Z with true
    by (symmetry; apply Z.ltb_lt; exact Hlen).
  exists newR. split; [exact Hr|].
  destruct (Walk.safeAngle rnd last (S i)) as [ang j]. reflexivity.
Qed.

End Steering.

(** X5. While the chain has fewer than 30 circles, the next circle is
    steered away from the edges the tail meets: not to the left of the tail
    when the tail reaches the left edge, not to its right when it reaches
    the right edge, not above it when it reaches the top edge, not below it
    when it reaches the bottom edge; except when the tail reaches both the
    left and the bottom edge, the case of the next property. *)
Theorem walk_steers_inward (rnd : nat -> R) (cs : list Circle)
  (last : Circle) (i : nat) :
  Spec.unitDraws rnd ->
  (Walk.len cs < 30)%Z ->
  0 <= radius last ->
  let next := fst (Walk.candidate rnd cs last i) in
  let L := Rleb (x last - radius last) 0 in
  let Rt := negb L && Rleb Walk.width (x last + radius last) in
  let T := Rleb (y last - radius last) 0 in
  let B := negb T && Rleb Walk.height (y last + radius last) in
  (L && negb B = true -> x last <= x next) /\
  (Rt = true -> x next <= x last) /\
  (T = true -> y last <= y next) /\
  (B && negb L = true -> y next <= y last).
Proof.
  intros Hu Hlen Hr. cbv zeta.
  destruct (walk_candidate_eq rnd Hu cs last i Hlen) as [newR [Hn E]].
  rewrite E. cbn [x y].
  destruct (safeAngle_range rnd Hu last (S i)) as [HL [HR [HT [HB _]]]].
  set (ang := fst (Walk.safeAngle rnd last (S i))) in *.
  assert (Hd : 0 <= radius last + newR) by (unfold MIN_R in Hn; lra).
  unfold HALF_PI, TWO_PI in *.
  split; [|split; [|split]]; intros H.
  - specialize (HL H).
    pose proof (cos_ge_0 ang ltac:(lra) ltac:(lra)). nra.
  - specialize (HR H).
    pose proof (cos_le_0 ang ltac:(lra) ltac:(lra)). nra.
  - specialize (HT H).
    pose proof (sin_ge_0 ang ltac:(lra) ltac:(lra)). nra.
  - specialize (HB H).
    pose proof (sin_le_0 ang ltac:(lra) ltac:(lra)). nra.
Qed.

Lemma walk_steers_inward_witness :
  x (mkCircle 50 500 50 None)
  <= x (fst (Walk.candidate (fun _ => 0) [] (mkCircle 50 500 50 None) 0%nat)).
Proof.
  refine (proj1 (walk_steers_inward (fun _ => 0) []
                   (mkCircle 50 500 50 None) 0 _ _ _) _).
  - intros n. lra.
  - reflexivity.
  - cbn [radius]. lra.
  - cbn [x y radius]. unfold Walk.height.
    replace (Rleb (50 - 50) 0) with true
      by (symmetry; apply Rleb_true; lra).
    replace (Rleb (500 - 50) 0) with false
      by (symmetry; apply Rleb_false; lra).
    replace (Rleb CANVAS_H (500 + 50)) with false
      by (symmetry; apply Rleb_false; unfold CANVAS_H; lra).
    reflexivity.
Defined.

(** X6. When the tail reaches both the left and the bottom edge (and not
    the top), the bounds [safeAngle] hands to [random] come in the wrong
    order, PI and HALF_PI, and the angle drawn points down and to the left:
    the next circle is placed away from the canvas on both axes, and, the
    radii being between [MIN_R] and [MAX_R], it always extends outside the
    canvas. *)
Theorem walk_corner_outward (rnd : nat -> R) (cs : list Circle)
  (last : Circle) (i : nat) :
  Spec.unitDraws rnd ->
  (Walk.len cs < 30)%Z ->
  MIN_R <= radius last < MAX_R ->
  x last - radius last <= 0 ->
  0 < y last - radius last ->
  Walk.height <= y last + radius last ->
  let next := fst (Walk.candidate rnd cs last i) in
  Walk.safeRange last = (PI, HALF_PI) /\
  x next <= x last /\ y last <= y next /\
  Walk.isOutside next = true.
Proof.
  intros Hu Hlen Hr HL HT HB. cbv zeta.
  destruct (walk_candidate_eq rnd Hu cs last i Hlen) as [newR [Hn E]].
  rewrite E. cbn [x y].
  destruct (safeAngle_range rnd Hu last (S i)) as [_ [_ [_ [_ HC]]]].
  set (ang := fst (Walk.safeAngle rnd last (S i))) in *.
  assert (EL : Rleb (x last - radius last) 0 = true)
    by (apply Rleb_true; exact HL).
  assert (ET : Rleb (y last - radius last) 0 = false)
    by (apply Rleb_false; exact HT).
  assert (EB : Rleb Walk.height (y last + radius last) = true)
    by (apply Rleb_true; exact HB).
  rewrite EL, ET, EB in HC. specialize (HC eq_refl).
  pose proof PI_RGT_0 as Hpi. unfold HALF_PI in HC.
  pose proof (cos_le_0 ang ltac:(lra) ltac:(lra)) as Hcos.
  pose proof (sin_ge_0 ang ltac:(lra) ltac:(lra)) as Hsin.
  pose proof (sin2_cos2 ang) as Hsc. unfold Rsqr in Hsc.
  unfold MIN_R, MAX_R in *.
  split.
  { unfold Walk.safeRange. rewrite EL, ET, EB. unfold HALF_PI, TWO_PI.
    f_equal.
    - unfold Rmax. destruct (Rle_dec (- (PI / 2)) PI); lra.
    - unfold Rmin. destruct (Rle_dec (PI / 2) (2 * PI)); lra. }
  split; [nra|]. split; [nra|].
  unfold Walk.isOutside. cbn [x y radius].
  set (C := cos ang) in *. set (S := sin ang) in *.
  set (rl := radius last) in *.
  destruct (Rlt_dec (x last + C * (rl + newR) - newR) 0) as [Hx|Hx].
  { replace (Rltb (x last + C * (rl + newR) - newR) 0) with true
      by (symmetry; apply Rltb_true; exact Hx). reflexivity. }
  destruct (Rlt_dec Walk.height (y last + S * (rl + newR) + newR)) as [Hy|Hy].
  { replace (Rltb Walk.height (y last + S * (rl + newR) + newR)) with true
      by (symmetry; apply Rltb_true; exact Hy).
    rewrite !orb_true_r. reflexivity. }
  exfalso.
  assert (H1 : newR - rl <= C * (rl + newR)) by lra.
  assert (H2 : S * (rl + newR) <= rl - newR) by lra.
  assert (H3 : 0 <= S * (rl + newR)) by nra.
  assert (H4 : C * (rl + newR) <= 0) by nra.
  assert (H5 : (C * (rl + newR)) * (C * (rl + newR))
               <= (rl - newR) * (rl - newR)) by nra.
  assert (H6 : (S * (rl + newR)) * (S * (rl + newR))
               <= (rl - newR) * (rl - newR)) by nra.
  assert (H7 : (rl + newR) * (rl + newR)
               = (C * (rl + newR)) * (C * (rl + newR))
                 + (S * (rl + newR)) * (S * (rl + newR))).
  { transitivity ((rl + newR) * (rl + newR) * (S * S + C * C)).
    - rewrite Hsc. ring.
    - ring. }
  nra.
Qed.

Lemma walk_corner_outward_witness :
  Walk.isOutside
    (fst (Walk.candidate (fun _ => 0) [] (mkCircle 50 1030 50 None) 0%nat))
  = true.
Proof.
  refine (proj2 (proj2 (proj2
    (walk_corner_outward (fun _ => 0) [] (mkCircle 50 1030 50 None) 0
       _ _ _ _ _ _)))).
  - intros n. lra.
  - reflexivity.
  - cbn [radius]. unfold MIN_R, MAX_R. lra.
  - cbn [x radius]. lra.
  - cbn [y radius]. lra.
  - cbn [y radius]. unfold Walk.height, CANVAS_H. lra.
Defined.

(** ** The walk: its seed and its end *)

Section WalkShape.
Variable rnd : nat -> R.
Hypothesis rnd_unit : Spec.unitDraws rnd.

(** The seed, by the edge drawn. *)
Lemma walk_seed_cases (i : nat) :
  exists e r0 v,
    (0 <= e <= 3)%Z /\ MIN_R <= r0 < MAX_R /\
    r0 <= v <= CANVAS_W - r0 /\
    Walk.seed rnd i
    = (mkCircle (if (e =? 1)%Z then Walk.width - r0
                 else if (e =? 3)%Z then r0 else v)
                (if (e =? 0)%Z then r0
                 else if (e =? 2)%Z then Walk.height - r0 else v)
                r0 (Some e),
       (i + 3)%nat).
Proof.
  unfold Walk.seed, bind, ret.
  destruct (edge_draw rnd rnd_unit i) as [e [Ee He]]. rewrite Ee.
  destruct (radius_draw rnd rnd_unit (S i)) as [r0 [Er Hr]]. rewrite Er.
  destruct (random2_spec rnd rnd_unit r0 (CANVAS_W - r0) (S (S i)))
    as [v [Ev [Hv _]]].
  { unfold MIN_R, MAX_R, CANVAS_W in *. lra. }
  exists (floor e), r0, v. split; [exact He|]. split; [exact Hr|].
  split; [exact Hv|].
  unfold Walk.width, Walk.height, CANVAS_H in *. fold CANVAS_W.
  assert (Hc : floor e = 0%Z \/ floor e = 1%Z \/ floor e = 2%Z
               \/ floor e = 3%Z) by lia.
  replace (i + 3)%nat with (S (S (S i))) by lia.
  destruct Hc as [Hc|[Hc|[Hc|Hc]]]; rewrite Hc; cbn [Z.eqb Pos.eqb];
    rewrite ?Ev; reflexivity.
Qed.

(** The circles from index 29 on that the loop keeps growing from are
    inside the canvas: the loop ends at the first that is not. *)
Lemma grow_inside (fuel : nat) :
  forall st st',
    Walk.grow rnd fuel st = Some st' ->
    (forall k c, (29 <= k)%nat -> nth_error (Walk.circles st) k = Some c ->
                 Walk.isOutside c = false) ->
    forall k c,
      (29 <= k)%nat -> (S k < length (Walk.circles st'))%nat ->
      nth_error (Walk.circles st') k = Some c ->
      Walk.isOutside c = false.
Proof.
  induction fuel as [|fuel IH]; intros st st' Hg Hin; [discriminate|].
  cbn [Walk.grow] in Hg.
  destruct (negb (Walk.attempts st + 1 <? Walk.MAX_ATTEMPTS)%Z).
  { inversion Hg. subst st'. cbn [Walk.circles].
    intros k c Hk _. apply Hin. exact Hk. }
  destruct (negb (Walk.len (Walk.circles st) <? Walk.MAX_CIRCLES)%Z).
  { inversion Hg. subst st'. cbn [Walk.circles].
    intros k c Hk _. apply Hin. exact Hk. }
  destruct (rev (Walk.circles st)) as [|last tl]; [discriminate|].
  destruct (Walk.candidate rnd (Walk.circles st) last (Walk.rng st))
    as [next j].
  destruct (Walk.overlapsAny (Walk.circles st) next).
  { apply (IH _ _ Hg). exact Hin. }
  destruct ((30 <=? Walk.len (Walk.circles st ++ [next]))%Z
            && Walk.isOutside next) eqn:Eb.
  - inversion Hg. subst st'. cbn [Walk.circles].
    intros k c Hk Hlt Hn. rewrite length_app in Hlt. cbn [length] in Hlt.
    rewrite nth_error_app1 in Hn by lia. apply (Hin k c Hk Hn).
  - apply (IH _ _ Hg). cbn [Walk.circles]. intros k c Hk Hn.
    destruct (nth_error_snoc _ _ _ _ Hn) as [[Hlt Hc]|[He Hc]].
    + apply (Hin k c Hk Hc).
    + subst c. apply andb_false_iff in Eb. destruct Eb as [Eb|Eb]; [|exact Eb].
      apply Z.leb_gt in Eb. unfold Walk.len in Eb.
      rewrite length_app in Eb. cbn [length] in Eb. lia.
Qed.

Lemma walk_result (i : nat) :
  exists st,
    Walk.generateState rnd i = Some st /\
    Spec.chainInv 0 (Walk.circles st) /\
    (1 <= Walk.len (Walk.circles st) <= Walk.MAX_CIRCLES)%Z /\
    (0 < Walk.attempts st <= Walk.MAX_ATTEMPTS)%Z /\
    ((Walk.attempts st < Walk.MAX_ATTEMPTS)%Z -> Spec.walkEnded st) /\
    (forall k c,
       (29 <= k)%nat -> (S k < length (Walk.circles st))%nat ->
       nth_error (Walk.circles st) k = Some c ->
       Walk.isOutside c = false).
Proof.
  unfold Walk.generateState.
  destruct (walk_seed_spec rnd rnd_unit i) as [c0 [j [Es [Hseed Hr]]]].
  rewrite Es.
  destruct (grow_spec rnd rnd_unit (Z.to_nat Walk.MAX_ATTEMPTS)
              (Walk.mkWalk [c0] 0 j))
    as [st [Eg [Hinv [[tl Htl] [Hcap [Ha He]]]]]];
    cbn [Walk.circles Walk.attempts].
  - apply chainInv_single. exact Hr.
  - unfold Walk.len, Walk.MAX_CIRCLES. cbn [length]. lia.
  - unfold Walk.MAX_ATTEMPTS. lia.
  - rewrite Z2Nat.id by (unfold Walk.MAX_ATTEMPTS; lia). lia.
  - exists st. split; [exact Eg|]. split; [exact Hinv|].
    cbn [Walk.circles Walk.attempts] in Htl, Ha.
    split.
    { split; [|exact Hcap]. rewrite Htl. unfold Walk.len.
      rewrite length_app. cbn [length]. lia. }
    split; [lia|]. split; [exact He|].
    apply (grow_inside _ _ _ Eg). cbn [Walk.circles].
    intros k c Hk Hn. destruct k; [lia|]. destruct k; discriminate.
Qed.

End WalkShape.

(** X7. The seed of the walk lies wholly inside the canvas and touches,
    from the inside, the edge its [edge] field names: 0 the top, 1 the
    right, 2 the bottom, 3 the left.  Placing it takes three draws. *)
Theorem walk_seed_inside (rnd : nat -> R) (i : nat) :
  Spec.unitDraws rnd ->
  exists c0 e,
    Walk.seed rnd i = (c0, (i + 3)%nat) /\
    edge c0 = Some e /\ (0 <= e <= 3)%Z /\
    MIN_R <= radius c0 < MAX_R /\
    Walk.isOutside c0 = false /\
    (e = 0%Z -> y c0 - radius c0 = 0) /\
    (e = 1%Z -> x c0 + radius c0 = Walk.width) /\
    (e = 2%Z -> y c0 + radius c0 = Walk.height) /\
    (e = 3%Z -> x c0 - radius c0 = 0).
Proof.
  intros Hu.
  destruct (walk_seed_cases rnd Hu i) as [e [r0 [v [He [Hr [Hv Es]]]]]].
  eexists. exists e. split; [exact Es|]. cbn [edge radius x y].
  split; [reflexivity|]. split; [exact He|]. split; [exact Hr|].
  unfold Walk.isOutside, Walk.width, Walk.height, CANVAS_H, CANVAS_W,
    MIN_R, MAX_R in *.
  cbn [x y radius].
  assert (Hc : e = 0%Z \/ e = 1%Z \/ e = 2%Z \/ e = 3%Z) by lia.
  destruct Hc as [Hc|[Hc|[Hc|Hc]]]; subst e; cbn [Z.eqb Pos.eqb];
    (split;
     [rewrite !orb_false_iff; rewrite !Rltb_false; lra
     |repeat split; intros; try lra; try lia]).
Qed.

Lemma walk_seed_inside_witness :
  exists c0 e,
    Walk.seed (fun _ => 0) 0%nat = (c0, 3%nat) /\
    edge c0 = Some e /\ (0 <= e <= 3)%Z /\
    MIN_R <= radius c0 < MAX_R /\
    Walk.isOutside c0 = false.
Proof.
  destruct (walk_seed_inside (fun _ => 0) 0)
    as [c0 [e [E [He [Hr [Hrad [Hi _]]]]]]].
  - intros n. lra.
  - exists c0, e. repeat (split; [assumption|]). exact Hi.
Defined.

(** X8. The walk returns a chain of 1 to 150 circles with radii in
    [MIN_R, MAX_R), after at most 8000 counted attempts.  When the attempts
    were not used up, the chain has 150 circles, or it has at least 30 and
    its last circle extends outside the canvas.  In every case the circles
    from the 30th on, the last excepted, lie wholly inside: the loop ends
    at the first circle past the 29th that leaves the canvas. *)
Theorem walk_end (rnd : nat -> R) (i : nat) :
  Spec.unitDraws rnd ->
  exists st,
    Walk.generateState rnd i = Some st /\
    Walk.generateTouchingCircles rnd i = Some (Walk.circles st, Walk.rng st) /\
    (1 <= Walk.len (Walk.circles st) <= Walk.MAX_CIRCLES)%Z /\
    Spec.radiiInRange (Walk.circles st) /\
    (0 < Walk.attempts st <= Walk.MAX_ATTEMPTS)%Z /\
    ((Walk.attempts st < Walk.MAX_ATTEMPTS)%Z ->
     Walk.len (Walk.circles st) = Walk.MAX_CIRCLES \/
     ((30 <= Walk.len (Walk.circles st))%Z /\
      exists last tl, rev (Walk.circles st) = last :: tl /\
                      Walk.isOutside last = true)) /\
    (forall k c,
       (29 <= k)%nat -> (S k < length (Walk.circles st))%nat ->
       nth_error (Walk.circles st) k = Some c ->
       Walk.isOutside c = false).
Proof.
  intros Hu.
  destruct (walk_result rnd Hu i) as [st [Eg [Hinv [Hlen [Ha [He Hin]]]]]].
  exists st. split; [exact Eg|].
  split; [unfold Walk.generateTouchingCircles; rewrite Eg; reflexivity|].
  split; [exact Hlen|].
  split; [destruct Hinv as [_ [Hr _]]; exact Hr|].
  split; [exact Ha|]. split; [exact He | exact Hin].
Qed.

Lemma walk_end_witness :
  exists st,
    Walk.generateState (fun _ => 0) 0%nat = Some st /\
    (1 <= Walk.len (Walk.circles st) <= Walk.MAX_CIRCLES)%Z /\
    Spec.radiiInRange (Walk.circles st).
Proof.
  destruct (walk_end (fun _ => 0) 0) as [st [Eg [_ [Hl [Hr _]]]]].
  - intros n. lra.
  - exists st. split; [exact Eg|]. split; [exact Hl | exact Hr].
Defined.

(** ** The search: its seed and the row it returns *)

Section SearchShape.
Variable rnd : nat -> R.
Hypothesis rnd_unit : Spec.unitDraws rnd.

Lemma perspective_seed_cases (i : nat) :
  exists e r0 v,
    (0 <= e <= 3)%Z /\ MIN_R <= r0 < MAX_R /\
    r0 * (1 / 2) <= v <= CANVAS_W - r0 * (1 / 2) /\
    Perspective.seed rnd i
    = (mkCircle (if (e =? 1)%Z then CANVAS_W - r0 * (1 / 2)
                 else if (e =? 3)%Z then r0 * (1 / 2) else v)
                (if (e =? 0)%Z then r0 * (1 / 2)
                 else if (e =? 2)%Z then CANVAS_H - r0 * (1 / 2) else v)
                r0 (Some e),
       (i + 3)%nat).
Proof.
  unfold Perspective.seed, bind, ret.
  destruct (edge_draw rnd rnd_unit i) as [e [Ee He]]. rewrite Ee.
  destruct (radius_draw rnd rnd_unit (S i)) as [r0 [Er Hr]]. rewrite Er.
  destruct (random2_spec rnd rnd_unit (r0 * (1 / 2))
              (CANVAS_W - r0 * (1 / 2)) (S (S i)))
    as [v [Ev [Hv _]]].
  { unfold MIN_R, MAX_R, CANVAS_W in *. lra. }
  exists (floor e), r0, v. split; [exact He|]. split; [exact Hr|].
  split; [exact Hv|].
  unfold CANVAS_H in *. fold CANVAS_W.
  assert (Hc : floor e = 0%Z \/ floor e = 1%Z \/ floor e = 2%Z
               \/ floor e = 3%Z) by lia.
  replace (i + 3)%nat with (S (S (S i))) by lia.
  destruct Hc as [Hc|[Hc|[Hc|Hc]]]; rewrite Hc; cbn [Z.eqb Pos.eqb];
    rewrite ?Ev; reflexivity.
Qed.

End SearchShape.

(** In a row that steps to the right, the right end of circle [k] is at
    least 100 k beyond the right end of the first circle. *)
Lemma rowSteps_reach (cs : list Circle) (c0 : Circle) :
  Shape.rowSteps cs -> Spec.radiiInRange cs -> nth_error cs 0 = Some c0 ->
  forall k c,
    nth_error cs k = Some c ->
    x c0 + radius c0 + 100 * INR k <= x c + radius c /\
    (forall p, (0 < k)%nat -> nth_error cs (k - 1) = Some p ->
               x c - radius c = x p + radius p).
Proof.
  intros Hs Hr H0 k. induction k as [|k IH]; intros c Hc.
  - rewrite H0 in Hc. inversion Hc. subst c. cbn [INR].
    split; [lra|]. intros p Hk. lia.
  - destruct (nth_error cs k) as [p|] eqn:Hp.
    2:{ apply nth_error_None in Hp.
        assert (Hsome : nth_error cs (S k) <> None)
          by (rewrite Hc; discriminate).
        apply nth_error_Some in Hsome. lia. }
    destruct (IH p eq_refl) as [IHp _].
    destruct (Hs k p c Hp Hc) as [_ Hx].
    unfold Spec.radiiInRange in Hr. rewrite Forall_forall in Hr.
    pose proof (Hr c (nth_error_In _ _ Hc)) as Hrc. unfold MIN_R in Hrc.
    rewrite S_INR. split; [lra|].
    intros q _ Hq. replace (S k - 1)%nat with k in Hq by lia.
    rewrite Hp in Hq. inversion Hq. subst q. lra.
Qed.

(** When all elements from index [n] on pass a test, the filter keeps at
    least that many. *)
Lemma filter_tail_count {A : Type} (f : A -> bool) (l : list A) :
  forall n,
    (forall k a, (n <= k)%nat -> nth_error l k = Some a -> f a = true) ->
    (length l - n <= length (filter f l))%nat.
Proof.
  induction l as [|a l IH]; intros n H; [cbn; lia|].
  destruct n as [|n].
  - cbn [filter]. rewrite (H 0%nat a (Nat.le_refl 0) eq_refl).
    cbn [length].
    specialize (IH 0%nat). 
    assert (Hl : (length l - 0 <= length (filter f l))%nat).
    { apply IH. intros k b _ Hb. apply (H (S k) b); [lia | exact Hb]. }
    lia.
  - assert (Hl : (length l - n <= length (filter f l))%nat).
    { apply IH. intros k b Hk Hb. apply (H (S k) b); [lia | exact Hb]. }
    cbn [filter length]. destruct (f a); cbn [length]; lia.
Qed.

(** X10. The seed of the search is centred inside the canvas, half a radius
    from the edge its [edge] field names, so that it crosses that edge; it
    never lies wholly outside the canvas, and the search starts with an
    outside count of 0.  Placing it takes three draws. *)
Theorem perspective_seed_straddles (rnd : nat -> R) (i : nat) :
  Spec.unitDraws rnd ->
  exists c0 e,
    Perspective.seed rnd i = (c0, (i + 3)%nat) /\
    edge c0 = Some e /\ (0 <= e <= 3)%Z /\
    MIN_R <= radius c0 < MAX_R /\
    0 < x c0 < CANVAS_W /\ 0 < y c0 < CANVAS_H /\
    Perspective.fullyOutside c0 = false /\
    Spec.countOutside [c0] = 0%Z /\
    (e = 0%Z -> y c0 - radius c0 < 0 /\ y c0 = radius c0 / 2) /\
    (e = 1%Z -> CANVAS_W < x c0 + radius c0 /\
                x c0 = CANVAS_W - radius c0 / 2) /\
    (e = 2%Z -> CANVAS_H < y c0 + radius c0 /\
                y c0 = CANVAS_H - radius c0 / 2) /\
    (e = 3%Z -> x c0 - radius c0 < 0 /\ x c0 = radius c0 / 2).
Proof.
  intros Hu.
  destruct (perspective_seed_cases rnd Hu i)
    as [e [r0 [v [He [Hr [Hv Es]]]]]].
  eexists. exists e. split; [exact Es|]. cbn [edge radius x y].
  split; [reflexivity|]. split; [exact He|]. split; [exact Hr|].
  rewrite countOutside_single.
  unfold Perspective.fullyOutside, CANVAS_H, CANVAS_W, MIN_R, MAX_R in *.
  cbn [x y radius].
  assert (Hc : e = 0%Z \/ e = 1%Z \/ e = 2%Z \/ e = 3%Z) by lia.
  destruct Hc as [Hc|[Hc|[Hc|Hc]]]; subst e; cbn [Z.eqb Pos.eqb];
    match goal with
    | |- context [(Rltb ?a 0 || Rltb 1080 ?b || Rltb ?c 0
                   || Rltb 1080 ?d)%bool] =>
        replace (Rltb a 0 || Rltb 1080 b || Rltb c 0 || Rltb 1080 d)%bool
          with false
          by (symmetry; rewrite !orb_false_iff; rewrite !Rltb_false; lra)
    end;
    (split; [lra|]; split; [lra|]; split; [reflexivity|];
     split; [reflexivity|];
     repeat split; intros; try lra; try lia).
Qed.

Lemma perspective_seed_straddles_witness :
  exists c0 e,
    Perspective.seed (fun _ => 0) 0%nat = (c0, 3%nat) /\
    edge c0 = Some e /\ (0 <= e <= 3)%Z /\
    MIN_R <= radius c0 < MAX_R /\
    0 < x c0 < CANVAS_W /\ 0 < y c0 < CANVAS_H /\
    Perspective.fullyOutside c0 = false.
Proof.
  destruct (perspective_seed_straddles (fun _ => 0) 0)
    as [c0 [e [E [He [Hr [Hrad [Hx [Hy [Ho _]]]]]]]]].
  - intros n. lra.
  - exists c0, e. repeat (split; [assumption|]). exact Ho.
Defined.

(** X11. Whatever the draws, the chain the search returns is a horizontal
    row: every circle sits on the line of the seed, immediately to the
    right of its predecessor.  The fan tries the angle 0 first and nothing
    overlaps to the right of a row, so the first descent reaches the cap of
    300 circles and no later chain is longer.  All circles from index 12 on
    lie wholly outside the canvas, at least 288 of the 300. *)
Theorem search_returns_row (rnd : nat -> R) (i : nat) :
  Spec.unitDraws rnd ->
  exists sd tl j,
    Perspective.generateTouchingCircles rnd i = Some (sd :: tl, j) /\
    sd = fst (Perspective.seed rnd i) /\
    length (sd :: tl) = 300%nat /\
    Shape.rowSteps (sd :: tl) /\
    (forall c, In c (sd :: tl) -> y c = y sd) /\
    (forall k c, nth_error (sd :: tl) k = Some c ->
                 x sd + radius sd + 100 * INR k <= x c + radius c) /\
    (forall k c, (12 <= k)%nat -> nth_error (sd :: tl) k = Some c ->
                 Perspective.fullyOutside c = true) /\
    (288 <= Spec.countOutside (sd :: tl))%Z.
Proof.
  intros Hu.
  destruct (search_row_spec rnd Hu i)
    as [sd [j [st [Es [Ed [Hseed [Hinv [Hlen [Hq [Hy Hrow]]]]]]]]]].
  pose proof Hinv as [_ [[_ [Hrad _]] [_ [[tl Hb] _]]]].
  exists sd, tl, (Perspective.rng st).
  unfold Perspective.generateTouchingCircles. rewrite Ed, Hb.
  rewrite Hb in Hlen, Hy, Hrow, Hrad.
  split; [reflexivity|]. split; [rewrite Es; reflexivity|].
  assert (Hl : length (sd :: tl) = 300%nat).
  { unfold Perspective.len, Perspective.MAX_CIRCLES in Hlen. lia. }
  split; [exact Hl|]. split; [exact Hrow|]. split; [exact Hy|].
  pose proof (rowSteps_reach (sd :: tl) sd Hrow Hrad eq_refl) as Hreach.
  assert (Hout : forall k c, (12 <= k)%nat -> nth_error (sd :: tl) k = Some c ->
                             Perspective.fullyOutside c = true).
  { intros k c Hk Hc. destruct k as [|k]; [lia|].
    destruct (nth_error (sd :: tl) k) as [p|] eqn:Hp.
    2:{ apply nth_error_None in Hp.
        assert (Hsome : nth_error (sd :: tl) (S k) <> None)
          by (rewrite Hc; discriminate).
        apply nth_error_Some in Hsome. lia. }
    destruct (Hreach (S k) c Hc) as [_ Hleft].
    specialize (Hleft p ltac:(lia)).
    replace (S k - 1)%nat with k in Hleft by lia. specialize (Hleft Hp).
    destruct (Hreach k p Hp) as [Hright _].
    destruct (perspective_seed_spec rnd Hu i) as [sd' [j' [Es' [_ [Hr' Hx']]]]].
    rewrite Es in Es'. inversion Es'. subst sd' j'.
    assert (Hk11 : 11 <= INR k).
    { replace 11 with (INR 11) by (rewrite INR_IZR_INZ; reflexivity).
      apply le_INR. lia. }
    unfold Perspective.fullyOutside.
    replace (Rltb CANVAS_W (x c - radius c)) with true.
    - rewrite orb_true_r. reflexivity.
    - symmetry. apply Rltb_true. unfold CANVAS_W, MIN_R in *. lra. }
  split; [intros k c Hc; apply (Hreach k c Hc)|].
  split; [exact Hout|].
  unfold Spec.countOutside.
  pose proof (filter_tail_count Perspective.fullyOutside (sd :: tl) 12 Hout).
  lia.
Qed.

Lemma search_returns_row_witness :
  exists sd tl j,
    Perspective.generateTouchingCircles (fun _ => 0) 0%nat
    = Some (sd :: tl, j) /\
    length (sd :: tl) = 300%nat /\
    Shape.rowSteps (sd :: tl) /\
    (288 <= Spec.countOutside (sd :: tl))%Z.
Proof.
  destruct (search_returns_row (fun _ => 0) 0)
    as [sd [tl [j [E [_ [Hl [Hr [_ [_ [_ Hc]]]]]]]]]].
  - intros n. lra.
  - exists sd, tl, j. repeat (split; [assumption|]). exact Hc.
Defined.

(** The row the search records is at least 30000 wide, so the fitter
    scales it by at most 1040 / 30000. *)
Lemma fitted_row_small (rnd : nat -> R) (i : nat) :
  Spec.unitDraws rnd ->
  exists sd tl st,
    Perspective.searchState rnd i = Some st /\
    Perspective.bestCircles st = sd :: tl /\
    30000 <= Perspective.highest x sd tl - Perspective.lowest x sd tl /\
    Perspective.fitScale sd tl <= 1040 / 30000 /\
    forall d, In d (Perspective.fitRibbonToViewport (sd :: tl)) ->
              radius d < 7 /\ y d = CANVAS_H / 2.
Proof.
  intros Hu.
  destruct (search_row_spec rnd Hu i)
    as [sd [j [st [Es [Ed [Hseed [Hinv [Hlen [Hq [Hy Hrow]]]]]]]]]].
  pose proof Hinv as [_ [[_ [Hrad _]] [_ [[tl Hb] _]]]].
  exists sd, tl, st. split; [exact Ed|]. split; [exact Hb|].
  rewrite Hb in Hlen, Hy, Hrow, Hrad.
  assert (Hl : length (sd :: tl) = 300%nat).
  { unfold Perspective.len, Perspective.MAX_CIRCLES in Hlen. lia. }
  pose proof (rowSteps_reach (sd :: tl) sd Hrow Hrad eq_refl) as Hreach.
  assert (Hrad' : forall c, In c (sd :: tl) -> MIN_R <= radius c < MAX_R).
  { unfold Spec.radiiInRange in Hrad. rewrite Forall_forall in Hrad.
    exact Hrad. }
  pose proof (Hrad' sd (or_introl eq_refl)) as Hr0.
  assert (Hw : 30000 <= Perspective.highest x sd tl
                        - Perspective.lowest x sd tl).
  { destruct (nth_error (sd :: tl) 299) as [c|] eqn:Hc.
    2:{ apply nth_error_None in Hc. lia. }
    destruct (Hreach 299%nat c Hc) as [Hright _].
    assert (H299 : INR 299 = 299) by (rewrite INR_IZR_INZ; reflexivity).
    rewrite H299 in Hright.
    pose proof (lowest_acc x tl (x sd - radius sd)) as Hlo.
    unfold Perspective.highest, Perspective.lowest. unfold MIN_R in Hr0.
    destruct (nth_error_In _ _ Hc) as [Heq|Hin]; [subst c; lra|].
    pose proof (highest_ge x tl (x sd + radius sd) c Hin) as Hhi.
    lra. }
  split; [exact Hw|].
  assert (Hk : Perspective.fitScale sd tl <= 1040 / 30000).
  { unfold Perspective.fitScale. rewrite limit_value.
    eapply Rle_trans; [apply Rmin_r|].
    eapply Rle_trans; [apply Rmin_l|].
    set (bw := Perspective.highest x sd tl - Perspective.lowest x sd tl) in *.
    apply Rmult_le_reg_r with bw; [lra|].
    unfold Rdiv at 1. rewrite Rmult_assoc, Rinv_l by lra. lra. }
  split; [exact Hk|].
  intros d Hd.
  destruct (fit_row (y sd) sd tl Hy Hrad' d Hd) as [Hyd _].
  split; [|rewrite Hyd; unfold Rdiv; lra].
  unfold Perspective.fitRibbonToViewport in Hd.
  apply in_map_iff in Hd. destruct Hd as [c [Ec Hc]]. subst d.
  cbn [radius]. pose proof (Hrad' c Hc) as Hrc.
  assert (Hk0 : 0 < Perspective.fitScale sd tl).
  { apply fitScale_range. unfold MIN_R in Hr0. lra. }
  unfold MIN_R, MAX_R in Hrc. nra.
Qed.

(** X12. Fitted to the viewport, the row the search returns is at least
    30000 wide before the fit, so the scale is at most 1040 / 30000: each
    of the 300 circles ends up with a radius below 7, centred on the
    horizontal middle line of the canvas. *)
Theorem fitted_chain_small (rnd : nat -> R) (i : nat) :
  Spec.unitDraws rnd ->
  exists sd tl j,
    Perspective.generateTouchingCircles rnd i = Some (sd :: tl, j) /\
    30000 <= Perspective.highest x sd tl - Perspective.lowest x sd tl /\
    Perspective.fitScale sd tl <= 1040 / 30000 /\
    forall d, In d (Perspective.fitRibbonToViewport (sd :: tl)) ->
              radius d < 7 /\ y d = CANVAS_H / 2.
Proof.
  intros Hu.
  destruct (fitted_row_small rnd i Hu) as [sd [tl [st [Ed [Hb H]]]]].
  exists sd, tl, (Perspective.rng st).
  unfold Perspective.generateTouchingCircles. rewrite Ed, Hb.
  split; [reflexivity | exact H].
Qed.

Lemma fitted_chain_small_witness :
  exists sd tl j,
    Perspective.generateTouchingCircles (fun _ => 0) 0%nat
    = Some (sd :: tl, j) /\
    forall d, In d (Perspective.fitRibbonToViewport (sd :: tl)) ->
              radius d < 7 /\ y d = CANVAS_H / 2.
Proof.
  destruct (fitted_chain_small (fun _ => 0) 0) as [sd [tl [j [E [_ [_ H]]]]]].
  - intros n. lra.
  - exists sd, tl, j. split; [exact E | exact H].
Defined.

(** ** The search: back-tracking *)

(** X13. A call of [dfs] with enough fuel for the circles the cap still
    admits returns, and leaves the chain and the outside count as it found
    them: every circle pushed is popped again, and the count follows.  The
    best chain recorded never gets shorter, the tries never decrease, and
    the count of the returned state is the number of circles of the chain
    that lie wholly outside the canvas. *)
Theorem dfs_backtracks (rnd : nat -> R) (c0 : Circle) (fuel : nat)
  (st : Perspective.DfsState) :
  Spec.unitDraws rnd ->
  Spec.dfsInv c0 st ->
  (Perspective.MAX_CIRCLES - Perspective.len (Perspective.circles st)
   < Z.of_nat fuel)%Z ->
  exists st',
    Perspective.dfs rnd fuel st = Some st' /\
    Perspective.circles st' = Perspective.circles st /\
    Perspective.outsideCount st' = Perspective.outsideCount st /\
    Perspective.outsideCount st'
    = Spec.countOutside (Perspective.circles st') /\
    (Perspective.len (Perspective.bestCircles st)
     <= Perspective.len (Perspective.bestCircles st'))%Z /\
    (Perspective.totalTries st <= Perspective.totalTries st')%Z /\
    Spec.dfsInv c0 st'.
Proof.
  intros Hu Hinv Hfuel.
  destruct (dfs_spec rnd Hu c0 fuel st Hinv Hfuel)
    as [st' [Ed [Hinv' [Hcs [Hoc [Hbest Htries]]]]]].
  exists st'. split; [exact Ed|]. split; [exact Hcs|]. split; [exact Hoc|].
  pose proof Hinv' as [_ [_ [_ [_ [_ [_ [Hcount _]]]]]]].
  split; [exact Hcount|].
  split; [destruct Hbest as [Hb|Hb]; [rewrite Hb; lia | lia]|].
  split; [exact Htries | exact Hinv'].
Qed.

Lemma dfs_backtracks_witness :
  exists st',
    Perspective.dfs (fun _ => 0) 301
      (Perspective.mkDfs [mkCircle 540 540 50 (Some 0%Z)] 0 0
                         [mkCircle 540 540 50 (Some 0%Z)] 0 0) = Some st' /\
    Perspective.circles st' = [mkCircle 540 540 50 (Some 0%Z)] /\
    Perspective.outsideCount st' = 0%Z.
Proof.
  destruct (dfs_backtracks (fun _ => 0) (mkCircle 540 540 50 (Some 0%Z)) 301
              (Perspective.mkDfs [mkCircle 540 540 50 (Some 0%Z)] 0 0
                                 [mkCircle 540 540 50 (Some 0%Z)] 0 0))
    as [st' [Ed [Hcs [Hoc _]]]].
  - intros n. lra.
  - assert (Hr : MIN_R <= radius (mkCircle 540 540 50 (Some 0%Z)) < MAX_R)
      by (cbn [radius]; unfold MIN_R, MAX_R; lra).
    unfold Spec.dfsInv.
    cbn [Perspective.circles Perspective.bestCircles
         Perspective.outsideCount].
    split; [apply chainInv_single; exact Hr|].
    split; [apply chainInv_single; exact Hr|].
    split; [exists []; reflexivity|]. split; [exists []; reflexivity|].
    split; [unfold Perspective.len, Perspective.MAX_CIRCLES; cbn [length];
            lia|].
    split; [unfold Perspective.len, Perspective.MAX_CIRCLES; cbn [length];
            lia|].
    split; [|left; reflexivity].
    rewrite countOutside_single.
    replace (Perspective.fullyOutside (mkCircle 540 540 50 (Some 0%Z)))
      with false; [reflexivity|].
    symmetry. unfold Perspective.fullyOutside. cbn [x y radius].
    unfold CANVAS_W, CANVAS_H.
    rewrite !orb_false_iff, !Rltb_false. lra.
  - unfold Perspective.len, Perspective.MAX_CIRCLES.
    cbn [Perspective.circles length]. lia.
  - exists st'. split; [exact Ed|]. split; [exact Hcs | exact Hoc].
Defined.

(** ** The fitter as a similarity *)

Section Similarity.
Variables (k mx my ox oy : R).
Hypothesis k_nonneg : 0 <= k.

Lemma centres_scale (a b : Circle) :
  Spec.centres (Shape.similarity k mx my ox oy a)
               (Shape.similarity k mx my ox oy b)
  = k * Spec.centres a b.
Proof.
  unfold Spec.centres, dist, Shape.similarity. cbn [x y].
  replace (((x b - mx) * k + ox - ((x a - mx) * k + ox)) *
           ((x b - mx) * k + ox - ((x a - mx) * k + ox)) +
           ((y b - my) * k + oy - ((y a - my) * k + oy)) *
           ((y b - my) * k + oy - ((y a - my) * k + oy)))
    with ((k * k) * ((x b - x a) * (x b - x a) + (y b - y a) * (y b - y a)))
    by ring.
  rewrite sqrt_mult.
  - rewrite sqrt_square by exact k_nonneg. reflexivity.
  - apply Rmult_le_pos; exact k_nonneg.
  - pose proof (Rle_0_sqr (x b - x a)). pose proof (Rle_0_sqr (y b - y a)).
    unfold Rsqr in *. lra.
Qed.

Lemma nth_error_image (cs : list Circle) (i : nat) (a' : Circle) :
  nth_error (map (Shape.similarity k mx my ox oy) cs) i = Some a' ->
  exists a, nth_error cs i = Some a /\ a' = Shape.similarity k mx my ox oy a.
Proof.
  rewrite nth_error_map. destruct (nth_error cs i) as [a|]; [|discriminate].
  intros H. inversion H. exists a. split; reflexivity.
Qed.

Lemma similar_tangent (cs : list Circle) :
  Spec.tangentChain cs ->
  Spec.tangentChain (map (Shape.similarity k mx my ox oy) cs).
Proof.
  intros Ht i a' b' Ha Hb.
  destruct (nth_error_image _ _ _ Ha) as [a [Ha0 ->]].
  destruct (nth_error_image _ _ _ Hb) as [b [Hb0 ->]].
  rewrite centres_scale, (Ht i a b Ha0 Hb0). unfold Shape.similarity.
  cbn [radius]. ring.
Qed.

Lemma similar_apart (eps : R) (cs : list Circle) :
  0 <= eps -> k <= 1 ->
  Spec.apartAll eps cs ->
  Spec.apartAll eps (map (Shape.similarity k mx my ox oy) cs).
Proof.
  intros He Hk Ha i j a' b' Hij Hi Hj.
  destruct (nth_error_image _ _ _ Hi) as [a [Ha0 ->]].
  destruct (nth_error_image _ _ _ Hj) as [b [Hb0 ->]].
  rewrite centres_scale. pose proof (Ha i j a b Hij Ha0 Hb0) as H.
  unfold Shape.similarity. cbn [radius]. nra.
Qed.

Lemma similar_separated (eps : R) (cs : list Circle) :
  0 <= eps -> k <= 1 ->
  Spec.separated eps cs ->
  Spec.separated eps (map (Shape.similarity k mx my ox oy) cs).
Proof.
  intros He Hk Ha i j a' b' Hij Hi Hj.
  destruct (nth_error_image _ _ _ Hi) as [a [Ha0 ->]].
  destruct (nth_error_image _ _ _ Hj) as [b [Hb0 ->]].
  rewrite centres_scale. pose proof (Ha i j a b Hij Ha0 Hb0) as H.
  unfold Shape.similarity. cbn [radius]. nra.
Qed.

End Similarity.

(** X14. The fitter is a similarity: it multiplies every distance between
    centres by the scale it multiplies the radii by.  So a tangent chain
    stays a tangent chain, and circles that were apart up to a tolerance
    stay apart up to the same tolerance. *)
Theorem fit_keeps_contacts (c0 : Circle) (rest : list Circle) (eps : R) :
  0 < radius c0 -> 0 <= eps ->
  (forall i j a b a' b',
     nth_error (c0 :: rest) i = Some a -> nth_error (c0 :: rest) j = Some b ->
     nth_error (Perspective.fitRibbonToViewport (c0 :: rest)) i = Some a' ->
     nth_error (Perspective.fitRibbonToViewport (c0 :: rest)) j = Some b' ->
     Spec.centres a' b' = Perspective.fitScale c0 rest * Spec.centres a b) /\
  (Spec.tangentChain (c0 :: rest) ->
   Spec.tangentChain (Perspective.fitRibbonToViewport (c0 :: rest))) /\
  (Spec.separated eps (c0 :: rest) ->
   Spec.separated eps (Perspective.fitRibbonToViewport (c0 :: rest))) /\
  (Spec.apartAll eps (c0 :: rest) ->
   Spec.apartAll eps (Perspective.fitRibbonToViewport (c0 :: rest))).
Proof.
  intros Hr He.
  destruct (fitScale_range c0 rest Hr) as [Hk0 Hk1].
  assert (Hk : 0 <= Perspective.fitScale c0 rest) by lra.
  unfold Perspective.fitRibbonToViewport.
  split; [|split; [|split]].
  - intros i j a b a' b' Ha Hb Ha' Hb'.
    rewrite nth_error_map, Ha in Ha'. rewrite nth_error_map, Hb in Hb'.
    cbn [option_map] in Ha', Hb'. inversion Ha'. inversion Hb'.
    apply (centres_scale (Perspective.fitScale c0 rest) _ _ _ _ Hk).
  - apply (similar_tangent (Perspective.fitScale c0 rest) _ _ _ _ Hk).
  - apply (similar_separated (Perspective.fitScale c0 rest) _ _ _ _ Hk);
      assumption.
  - apply (similar_apart (Perspective.fitScale c0 rest) _ _ _ _ Hk);
      assumption.
Qed.

Lemma fit_keeps_contacts_witness :
  Spec.tangentChain
    (Perspective.fitRibbonToViewport
       [mkCircle 0 0 1000 (Some 0%Z); mkCircle 1500 0 500 None]) /\
  Spec.apartAll 0
    (Perspective.fitRibbonToViewport
       [mkCircle 0 0 1000 (Some 0%Z); mkCircle 1500 0 500 None]).
Proof.
  assert (Hd : Spec.centres (mkCircle 1500 0 500 None)
                            (mkCircle 0 0 1000 (Some 0%Z)) = 1500).
  { unfold Spec.centres. cbn [x y]. rewrite dist_sym, dist_row; lra. }
  pose proof (fit_keeps_contacts (mkCircle 0 0 1000 (Some 0%Z))
                [mkCircle 1500 0 500 None] 0) as H.
  destruct H as [_ [Ht [_ Ha]]].
  - cbn [radius]. lra.
  - lra.
  - split.
    + apply Ht. intros i a b Hi Hj. destruct i as [|i].
      * inversion Hi. inversion Hj. subst a b. rewrite Hd. cbn [radius]. lra.
      * destruct i; discriminate.
    + apply Ha. intros i j a b Hij Hi Hj. destruct i as [|i].
      * destruct j as [|j]; [lia|]. destruct j as [|j].
        -- inversion Hi. inversion Hj. subst a b. unfold Spec.centres.
           rewrite dist_sym. fold (Spec.centres (mkCircle 1500 0 500 None)
                                     (mkCircle 0 0 1000 (Some 0%Z))).
           rewrite Hd. cbn [radius]. lra.
        -- destruct j; discriminate.
      * destruct j as [|j]; [lia|]. destruct j as [|j]; [lia|].
        destruct j; discriminate.
Defined.

(** ** The filler and the end of [setup] *)

(** A circle of radius below 30 whose centre is 37 or more above or below
    the middle line is clear of a chain of circles of radius below 7
    centred on that line. *)
Lemma clear_of_middle_line (cs : list Circle) (c : Circle) :
  (forall d, In d cs -> radius d < 7 /\ y d = CANVAS_H / 2) ->
  radius c < 30 ->
  37 <= Rabs (y c - CANVAS_H / 2) ->
  Perspective.overlapsAny cs c = false.
Proof.
  intros Hcs Hr Hy. apply existsb_none. intros d Hd. apply Rltb_false.
  destruct (Hcs d Hd) as [Hrd Hyd].
  pose proof (dist_ge_dy (x d) (y d) (x c) (y c)) as H1.
  pose proof (dist_ge_dy (x c) (y c) (x d) (y d)) as H2.
  rewrite dist_sym in H2. rewrite Hyd in *.
  unfold Rabs in Hy. destruct (Rcase_abs (y c - CANVAS_H / 2)); lra.
Qed.

(** Along a row every point between the left end of the first circle and
    the right end of the last lies within the horizontal extent of a
    circle. *)
Lemma row_covers (p : R) (cs : list Circle) :
  forall c0,
    Shape.rowSteps (c0 :: cs) ->
    x c0 - radius c0 <= p ->
    (exists d, In d (c0 :: cs) /\ x d - radius d <= p <= x d + radius d) \/
    (forall d, In d (c0 :: cs) -> x d + radius d < p).
Proof.
  induction cs as [|c1 cs IH]; intros c0 Hrow Hp.
  - destruct (Rle_dec p (x c0 + radius c0)) as [H|H].
    + left. exists c0. split; [left; reflexivity | lra].
    + right. intros d [Hd|[]]. subst d. lra.
  - destruct (Rle_dec p (x c0 + radius c0)) as [H|H].
    + left. exists c0. split; [left; reflexivity | lra].
    + destruct (Hrow 0%nat c0 c1 eq_refl eq_refl) as [_ Hx].
      destruct (IH c1) as [[d [Hd Hc]]|Hall].
      * intros k a b Ha Hb. exact (Hrow (S k) a b Ha Hb).
      * lra.
      * left. exists d. split; [right; exact Hd | exact Hc].
      * right. intros d [Hd|Hd]; [subst d; lra | apply Hall; exact Hd].
Qed.

(** The fitted row passes through the centre of the canvas: one of its
    circles has the centre within its radius. *)
Lemma fitted_covers_centre (rnd : nat -> R) (i : nat) :
  Spec.unitDraws rnd ->
  exists chain j d,
    Perspective.generateTouchingCircles rnd i = Some (chain, j) /\
    In d (Perspective.fitRibbonToViewport chain) /\
    y d = CANVAS_H / 2 /\
    Rabs (x d - CANVAS_W / 2) <= radius d.
Proof.
  intros Hu.
  destruct (search_row_spec rnd Hu i)
    as [sd [j [st [Es [Ed [Hseed [Hinv [Hlen [Hq [Hy Hrow]]]]]]]]]].
  pose proof Hinv as [_ [[_ [Hrad _]] [_ [[tl Hb] _]]]].
  rewrite Hb in Hlen, Hy, Hrow, Hrad.
  exists (sd :: tl), (Perspective.rng st).
  assert (Hg : Perspective.generateTouchingCircles rnd i
               = Some (sd :: tl, Perspective.rng st)).
  { unfold Perspective.generateTouchingCircles. rewrite Ed, Hb. reflexivity. }
  assert (Hrad' : forall c, In c (sd :: tl) -> MIN_R <= radius c < MAX_R).
  { unfold Spec.radiiInRange in Hrad. rewrite Forall_forall in Hrad.
    exact Hrad. }
  pose proof (Hrad' sd (or_introl eq_refl)) as Hr0. unfold MIN_R in Hr0.
  pose proof (rowSteps_reach (sd :: tl) sd Hrow Hrad eq_refl) as Hreach.
  (* the left end of the seed is the lowest *)
  assert (Hleft : forall c, In c tl -> x sd - radius sd <= x c - radius c).
  { intros c Hc. apply In_nth_error in Hc. destruct Hc as [k Hk].
    destruct (Hreach (S k) c Hk) as [_ Hprev].
    destruct (nth_error (sd :: tl) k) as [q|] eqn:Hq'.
    2:{ apply nth_error_None in Hq'.
        assert (Hsome : nth_error tl k <> None) by (rewrite Hk; discriminate).
        apply nth_error_Some in Hsome. cbn [length] in Hq'. lia. }
    destruct (Hreach k q Hq') as [Hright _].
    assert (H0 : 0 <= INR k) by apply pos_INR.
    rewrite (Hprev q ltac:(lia)); [lra|].
    replace (S k - 1)%nat with k by lia. exact Hq'. }
  set (lo := Perspective.lowest x sd tl).
  set (hi := Perspective.highest x sd tl).
  assert (Hlo : x sd - radius sd <= lo).
  { unfold lo, Perspective.lowest.
    destruct (lowest_reached x tl (x sd - radius sd)) as [E|[c [Hc E]]].
    - rewrite E. lra.
    - rewrite <- E. apply Hleft. exact Hc. }
  destruct (extent_bounds x sd tl) as [Hall [_ [top [Htop Etop]]]].
  fold lo in Hall. fold hi in Hall, Etop.
  assert (Hhi : x sd + radius sd <= hi)
    by (destruct (Hall sd (or_introl eq_refl)); lra).
  set (mx := (lo + hi) * (1 / 2)).
  destruct (row_covers mx tl sd Hrow ltac:(unfold mx; lra))
    as [[c [Hc Hcov]]|Hnone].
  2:{ pose proof (Hnone top Htop) as Habs.
      destruct (Hall top Htop) as [Hl _]. unfold mx in Habs.
      pose proof (Hrad' top Htop) as Hrt. unfold MIN_R in Hrt. lra. }
  assert (Hk : 0 < Perspective.fitScale sd tl) by (apply fitScale_range; lra).
  exists (Shape.similarity (Perspective.fitScale sd tl) mx
            ((Perspective.lowest y sd tl + Perspective.highest y sd tl)
             * (1 / 2))
            (CANVAS_W * (1 / 2)) (CANVAS_H * (1 / 2)) c).
  split; [exact Hg|].
  split.
  { unfold Perspective.fitRibbonToViewport. apply in_map_iff.
    exists c. split; [reflexivity | exact Hc]. }
  split.
  { destruct (fit_row (y sd) sd tl Hy Hrad'
                (Shape.similarity (Perspective.fitScale sd tl) mx
                   ((Perspective.lowest y sd tl + Perspective.highest y sd tl)
                    * (1 / 2))
                   (CANVAS_W * (1 / 2)) (CANVAS_H * (1 / 2)) c)) as [Hyd _].
    - unfold Perspective.fitRibbonToViewport. apply in_map_iff.
      exists c. split; [reflexivity | exact Hc].
    - rewrite Hyd. unfold Rdiv. lra. }
  unfold Shape.similarity. cbn [x radius].
  replace ((x c - mx) * Perspective.fitScale sd tl + CANVAS_W * (1 / 2)
           - CANVAS_W / 2)
    with ((x c - mx) * Perspective.fitScale sd tl) by field.
  unfold Rabs.
  destruct (Rcase_abs ((x c - mx) * Perspective.fitScale sd tl)); nra.
Qed.

(** A circle centred at the centre of the canvas, of radius 1 or more,
    overlaps the fitted row. *)
Lemma centre_overlaps_row (rnd : nat -> R) (i : nat) (rho : R) :
  Spec.unitDraws rnd -> 1 <= rho ->
  exists chain j,
    Perspective.generateTouchingCircles rnd i = Some (chain, j) /\
    Perspective.overlapsAny (Perspective.fitRibbonToViewport chain)
      (mkCircle (CANVAS_W / 2) (CANVAS_H / 2) rho None) = true.
Proof.
  intros Hu Hrho.
  destruct (fitted_covers_centre rnd i Hu)
    as [chain [j [d [Eg [Hd [Hy Hx]]]]]].
  exists chain, j. split; [exact Eg|].
  unfold Perspective.overlapsAny. apply existsb_exists.
  exists d. split; [exact Hd|]. apply Rltb_true. cbn [x y radius].
  rewrite Hy.
  assert (Hdist : dist (x d) (CANVAS_H / 2) (CANVAS_W / 2) (CANVAS_H / 2)
                  <= radius d).
  { unfold Rabs in Hx.
    destruct (Rcase_abs (x d - CANVAS_W / 2)) as [Hn|Hn].
    - rewrite dist_row by lra. lra.
    - rewrite dist_sym, dist_row by lra. lra. }
  lra.
Qed.

(** X17. [setup] of the perspective sketch in the sources as they are.
    The search and the fitter leave 300 circles of radius below 7 on the
    middle line, tangent in sequence and apart up to the tolerance 0.1.
    Then [fillVoids] raises its [ReferenceError] exactly when one of its
    2000 candidates overlaps none of them, which is the case as soon as a
    candidate is centred 37 or more above or below the middle line, and
    [setup] ends there.  Otherwise [setup] returns these 300 circles alone
    and their 299 arcs. *)
Theorem setup_in_sources (rnd : nat -> R) (i : nat) :
  Spec.unitDraws rnd ->
  exists chain j fitted,
    Perspective.generateTouchingCircles rnd i = Some (chain, j) /\
    fitted = Perspective.fitRibbonToViewport chain /\
    length fitted = 300%nat /\
    (forall d, In d fitted -> radius d < 7 /\ y d = CANVAS_H / 2) /\
    Spec.tangentChain fitted /\ Spec.apartAll (1 / 10) fitted /\
    length (buildArcList fitted) = 299%nat /\
    (Perspective.setupIn rnd Perspective.sources i = Some ReferenceError
     <->
     exists k, (k < Perspective.FILL_ATTEMPTS)%nat /\
       Perspective.overlapsAny fitted
         (fst (Perspective.fillCandidate rnd (j + 3 * k)%nat)) = false) /\
    (Perspective.setupIn rnd Perspective.sources i
     = Some (Returned (fitted, buildArcList fitted))
     <->
     forall k, (k < Perspective.FILL_ATTEMPTS)%nat ->
       Perspective.overlapsAny fitted
         (fst (Perspective.fillCandidate rnd (j + 3 * k)%nat)) = true) /\
    (forall k, (k < Perspective.FILL_ATTEMPTS)%nat ->
       37 <= Rabs (rnd (S (S (j + 3 * k))) * CANVAS_H - CANVAS_H / 2) ->
       Perspective.setupIn rnd Perspective.sources i = Some ReferenceError).
Proof.
  intros Hu.
  destruct (fitted_row_small rnd i Hu) as [sd [tl [st [Ed [Hb [_ [_ Hs]]]]]]].
  destruct (search_spec rnd Hu i)
    as [sd' [j [st' [_ [Es [_ [Hinv [Hlen _]]]]]]]].
  rewrite Ed in Es. inversion Es. subst st'.
  pose proof Hinv as [_ [[_ [Hrad [Htan Hap]]] _]].
  rewrite Hb in Hap, Hrad, Hlen, Htan.
  exists (sd :: tl), (Perspective.rng st),
    (Perspective.fitRibbonToViewport (sd :: tl)).
  set (fitted := Perspective.fitRibbonToViewport (sd :: tl)) in *.
  assert (Hg : Perspective.generateTouchingCircles rnd i
               = Some (sd :: tl, Perspective.rng st)).
  { unfold Perspective.generateTouchingCircles. rewrite Ed, Hb. reflexivity. }
  assert (Hl : length fitted = 300%nat).
  { unfold fitted. rewrite fit_length.
    unfold Perspective.len, Perspective.MAX_CIRCLES in Hlen. lia. }
  assert (Hr0 : 0 < radius sd).
  { unfold Spec.radiiInRange in Hrad. rewrite Forall_forall in Hrad.
    pose proof (Hrad sd (or_introl eq_refl)). unfold MIN_R in *. lra. }
  destruct (fitScale_range sd tl Hr0) as [Hk0 Hk1].
  assert (Hsetup :
            Perspective.setupIn rnd Perspective.sources i
            = match Perspective.fillVoidsIn rnd Perspective.sources
                      Perspective.FILL_ATTEMPTS fitted (Perspective.rng st)
              with
              | Returned (all, _) => Some (Returned (all, buildArcList all))
              | ReferenceError => Some ReferenceError
              end).
  { unfold Perspective.setupIn. rewrite Hg. cbv zeta. reflexivity. }
  assert (Hraise :
            Perspective.setupIn rnd Perspective.sources i
            = Some ReferenceError
            <->
            exists k, (k < Perspective.FILL_ATTEMPTS)%nat /\
              Perspective.overlapsAny fitted
                (fst (Perspective.fillCandidate rnd
                        (Perspective.rng st + 3 * k)%nat)) = false).
  { rewrite <- fillVoidsIn_raises. rewrite Hsetup.
    destruct (Perspective.fillVoidsIn rnd Perspective.sources
                Perspective.FILL_ATTEMPTS fitted (Perspective.rng st))
      as [[all k]|]; split; intros E; try reflexivity; discriminate E. }
  split; [exact Hg|]. split; [reflexivity|]. split; [exact Hl|].
  split; [exact Hs|].
  split.
  { unfold fitted, Perspective.fitRibbonToViewport.
    apply (similar_tangent (Perspective.fitScale sd tl) _ _ _ _ ltac:(lra)).
    exact Htan. }
  split.
  { unfold fitted, Perspective.fitRibbonToViewport.
    apply (similar_apart (Perspective.fitScale sd tl) _ _ _ _ ltac:(lra));
      [lra | lra | exact Hap]. }
  split; [rewrite buildArcList_length by lia; rewrite Hl; reflexivity|].
  split; [exact Hraise|].
  split.
  { rewrite <- fillVoidsIn_returns. rewrite Hsetup. clear Hsetup Hraise.
    destruct (Perspective.fillVoidsIn rnd Perspective.sources
                Perspective.FILL_ATTEMPTS fitted (Perspective.rng st))
      as [r|] eqn:Ef.
    - destruct (fillVoidsIn_appends _ _ _ _ _ _ Ef) as [fs [Er [_ Hn]]].
      rewrite (Hn eq_refl), app_nil_r in Er. rewrite Er.
      split; reflexivity.
    - split; intros E; discriminate E. }
  intros k Hk Hy. apply Hraise. exists k. split; [exact Hk|].
  rewrite fillCandidate_eq. cbn [fst].
  apply clear_of_middle_line; [exact Hs | |].
  - cbn [radius]. pose proof (Hu (Perspective.rng st + 3 * k)%nat). lra.
  - cbn [y]. exact Hy.
Qed.

Lemma setup_in_sources_witness :
  (exists chain j,
     Perspective.generateTouchingCircles (fun _ => 0) 0 = Some (chain, j) /\
     length (Perspective.fitRibbonToViewport chain) = 300%nat /\
     Perspective.setupIn (fun _ => 0) Perspective.sources 0
     = Some ReferenceError) /\
  (exists chain j,
     Perspective.generateTouchingCircles (fun _ => 1 / 2) 0
     = Some (chain, j) /\
     length (buildArcList (Perspective.fitRibbonToViewport chain)) = 299%nat /\
     Perspective.setupIn (fun _ => 1 / 2) Perspective.sources 0
     = Some (Returned (Perspective.fitRibbonToViewport chain,
                       buildArcList (Perspective.fitRibbonToViewport chain)))).
Proof.
  split.
  - destruct (setup_in_sources (fun _ => 0) 0)
      as [chain [j [fitted [Eg [Ef [Hl [_ [_ [_ [_ [_ [_ Hfar]]]]]]]]]]]].
    + intros n. lra.
    + exists chain, j. split; [exact Eg|]. subst fitted. split; [exact Hl|].
      apply (Hfar 0%nat).
      * unfold Perspective.FILL_ATTEMPTS. lia.
      * unfold CANVAS_H, Rabs.
        destruct (Rcase_abs (0 * 1080 - 1080 / 2)); lra.
  - assert (Hu : Spec.unitDraws (fun _ => 1 / 2)) by (intros n; lra).
    destruct (setup_in_sources (fun _ => 1 / 2) 0 Hu)
      as [chain [j [fitted [Eg [Ef [_ [_ [_ [_ [Ha [_ [Hret _]]]]]]]]]]]].
    exists chain, j. split; [exact Eg|]. subst fitted. split; [exact Ha|].
    apply Hret. intros k Hk. rewrite fillCandidate_eq. cbn [fst].
    destruct (centre_overlaps_row (fun _ => 1 / 2) 0 (1 / 2 * (30 - 12) + 12)
                Hu ltac:(lra)) as [chain' [j' [Eg' Ho]]].
    rewrite Eg in Eg'. inversion Eg'. subst chain' j'.
    replace (1 / 2 * CANVAS_W) with (CANVAS_W / 2) by field.
    replace (1 / 2 * CANVAS_H) with (CANVAS_H / 2) by field.
    exact Ho.
Defined.

(** ** The frames *)

Lemma layersFrom_In (n : nat) (l : Z) :
  In l (layersFrom n) <-> (0 <= l < Z.of_nat n)%Z.
Proof.
  induction n as [|n IH]; cbn [layersFrom In].
  - lia.
  - rewrite IH. lia.
Qed.

Lemma layers_value : Z.to_nat LAYERS = 220%nat.
Proof. reflexivity. Qed.

Lemma flat_drawArc_eq (s : ArcSeg) :
  exists start stop,
    drawArcSegment s = arc (cx s) (cy s) (r s * 2) (r s * 2) start stop.
Proof.
  unfold drawArcSegment. destruct (arcAngles s) as [start stop].
  exists start, stop. reflexivity.
Qed.

Lemma perspective_drawArc_eq (s : ArcSeg) :
  exists start stop,
    Perspective.drawArcSegment s
    = arc (cx s - Perspective.width / 2) (cy s - Perspective.height / 2)
          (r s * 2) (r s * 2) start stop.
Proof.
  unfold Perspective.drawArcSegment. destruct (arcAngles s) as [start stop].
  exists start, stop. reflexivity.
Qed.

Section ArcRuns.
Variables (f : ArcSeg -> Cmd) (ax ay : ArcSeg -> R).
Hypothesis f_arc :
  forall s, exists start stop,
    f s = arc (ax s) (ay s) (r s * 2) (r s * 2) start stop.

Lemma stackDepth_arcs (arcs : list ArcSeg) (tl : list Cmd) (d : nat) :
  Shape.stackDepth (map f arcs ++ tl) d = Shape.stackDepth tl d.
Proof.
  induction arcs as [|s arcs IH]; [reflexivity|].
  cbn [map app]. destruct (f_arc s) as [a [b E]]. rewrite E.
  cbn [Shape.stackDepth]. exact IH.
Qed.

Lemma screenArcs_arcs (arcs : list ArcSeg) (tl : list Cmd) (ox oy k : R) :
  Shape.screenArcs (map f arcs ++ tl) ox oy k
  = map (fun s => (ox + k * ax s, oy + k * ay s, k * (r s * 2))) arcs
    ++ Shape.screenArcs tl ox oy k.
Proof.
  induction arcs as [|s arcs IH]; [reflexivity|].
  cbn [map app]. destruct (f_arc s) as [a [b E]]. rewrite E.
  cbn [Shape.screenArcs]. rewrite IH. reflexivity.
Qed.

Lemma screenWeights_arcs (arcs : list ArcSeg) (tl : list Cmd) (k : R) :
  Shape.screenWeights (map f arcs ++ tl) k = Shape.screenWeights tl k.
Proof.
  induction arcs as [|s arcs IH]; [reflexivity|].
  cbn [map app]. destruct (f_arc s) as [a [b E]]. rewrite E.
  cbn [Shape.screenWeights]. exact IH.
Qed.

Lemma isArc_arcs (arcs : list ArcSeg) :
  filter Spec.isArc (map f arcs) = map f arcs.
Proof.
  induction arcs as [|s arcs IH]; [reflexivity|].
  cbn [map filter]. destruct (f_arc s) as [a [b E]]. rewrite E at 1.
  cbn [Spec.isArc]. rewrite IH. reflexivity.
Qed.

End ArcRuns.

Lemma stackDepth_app (l1 l2 : list Cmd) :
  forall d,
    Shape.stackDepth (l1 ++ l2) d
    = match Shape.stackDepth l1 d with
      | Some d' => Shape.stackDepth l2 d'
      | None => None
      end.
Proof.
  induction l1 as [|c l1 IH]; intros d; [reflexivity|].
  cbn [app]. destruct c; cbn [Shape.stackDepth]; try apply IH.
  destruct d; [reflexivity | apply IH].
Qed.

(** Layers that leave the stack as they found it, one after the other. *)
Lemma stackDepth_layers {A : Type} (f : A -> list Cmd) (l : list A) (d : nat) :
  (forall a d', Shape.stackDepth (f a) d' = Some d') ->
  Shape.stackDepth (flat_map f l) d = Some d.
Proof.
  intros Hf. induction l as [|a l IH]; [reflexivity|].
  cbn [flat_map]. rewrite stackDepth_app, Hf. exact IH.
Qed.

Lemma arcs_layers {A : Type} (f : A -> list Cmd) (l : list A) (n : nat) :
  (forall a, length (filter Spec.isArc (f a)) = n) ->
  length (filter Spec.isArc (flat_map f l)) = (n * length l)%nat.
Proof.
  intros Hf. induction l as [|a l IH]; [cbn; lia|].
  cbn [flat_map length]. rewrite filter_app, length_app, Hf, IH. lia.
Qed.

Lemma walk_layer_depth (arcs : list ArcSeg) (layer : Z) (d : nat) :
  Shape.stackDepth (Walk.drawLayer arcs layer) d = Some d.
Proof.
  unfold Walk.drawLayer. cbn [app Shape.stackDepth].
  rewrite (stackDepth_arcs _ _ _ flat_drawArc_eq). cbn [app Shape.stackDepth].
  rewrite (stackDepth_arcs _ _ _ flat_drawArc_eq). reflexivity.
Qed.

Lemma pulse_layer_depth (arcs : list ArcSeg) (active layer : Z) (d : nat) :
  Shape.stackDepth (Pulse.drawLayer arcs active layer) d = Some d.
Proof.
  unfold Pulse.drawLayer. cbn [app Shape.stackDepth].
  rewrite (stackDepth_arcs _ _ _ flat_drawArc_eq). cbn [app].
  destruct (layer =? active)%Z; cbn [Shape.stackDepth];
    rewrite (stackDepth_arcs _ _ _ flat_drawArc_eq); reflexivity.
Qed.

Lemma perspective_layer_depth (arcs : list ArcSeg) (fc layer : Z) (d : nat) :
  Shape.stackDepth (Perspective.drawLayer arcs fc layer) d = Some d.
Proof.
  unfold Perspective.drawLayer. cbn [app Shape.stackDepth].
  rewrite (stackDepth_arcs _ _ _ perspective_drawArc_eq). cbn [app].
  destruct (Perspective.turquoise fc layer); cbn [Shape.stackDepth];
    rewrite (stackDepth_arcs _ _ _ perspective_drawArc_eq); reflexivity.
Qed.

Lemma walk_layer_arcs (arcs : list ArcSeg) (layer : Z) :
  length (filter Spec.isArc (Walk.drawLayer arcs layer))
  = (2 * length arcs)%nat.
Proof.
  unfold Walk.drawLayer. rewrite !filter_app, !length_app.
  rewrite (isArc_arcs _ _ _ flat_drawArc_eq), length_map. cbn. lia.
Qed.

Lemma pulse_layer_arcs (arcs : list ArcSeg) (active layer : Z) :
  length (filter Spec.isArc (Pulse.drawLayer arcs active layer))
  = (2 * length arcs)%nat.
Proof.
  unfold Pulse.drawLayer. rewrite !filter_app, !length_app.
  rewrite (isArc_arcs _ _ _ flat_drawArc_eq), length_map.
  destruct (layer =? active)%Z; cbn; lia.
Qed.

Lemma perspective_layer_arcs (arcs : list ArcSeg) (fc layer : Z) :
  length (filter Spec.isArc (Perspective.drawLayer arcs fc layer))
  = (2 * length arcs)%nat.
Proof.
  unfold Perspective.drawLayer. rewrite !filter_app, !length_app.
  rewrite (isArc_arcs _ _ _ perspective_drawArc_eq), length_map.
  destruct (Perspective.turquoise fc layer); cbn; lia.
Qed.

(** X18. A frame of any of the three renderers draws every segment twice
    on each of the 220 layers, 440 [arc] calls for each segment, and
    brackets each layer with [push] and [pop]: the transform stack is never
    popped empty and is as deep after the frame as before. *)
Theorem frame_calls (arcs : list ArcSeg) (frameCount : Z) (d : nat) :
  length (filter Spec.isArc (Walk.draw arcs)) = (440 * length arcs)%nat /\
  length (filter Spec.isArc (Pulse.draw arcs frameCount))
  = (440 * length arcs)%nat /\
  length (filter Spec.isArc (Perspective.draw arcs frameCount))
  = (440 * length arcs)%nat /\
  Shape.stackDepth (Walk.draw arcs) d = Some d /\
  Shape.stackDepth (Pulse.draw arcs frameCount) d = Some d /\
  Shape.stackDepth (Perspective.draw arcs frameCount) d = Some d.
Proof.
  unfold Walk.draw, Pulse.draw, Perspective.draw.
  rewrite !filter_app, !length_app.
  rewrite (arcs_layers _ _ _ (walk_layer_arcs arcs)).
  rewrite (arcs_layers _ _ _
             (pulse_layer_arcs arcs (Pulse.activeLayer frameCount))).
  rewrite (arcs_layers _ _ _ (perspective_layer_arcs arcs frameCount)).
  rewrite !layersFrom_length, layers_value.
  split; [cbn [filter Spec.isArc length]; lia|].
  split; [cbn [filter Spec.isArc length]; lia|].
  split; [cbn [filter Spec.isArc length]; lia|].
  cbn [app Shape.stackDepth].
  split; [apply stackDepth_layers; intros; apply walk_layer_depth|].
  split; [apply stackDepth_layers; intros; apply pulse_layer_depth|].
  apply stackDepth_layers; intros; apply perspective_layer_depth.
Qed.

Lemma depth_scale_pos (n : nat) : 0 < Perspective.DEPTH_SCALE ^ n <= 1.
Proof.
  unfold Perspective.DEPTH_SCALE. induction n as [|n IH]; cbn [pow]; [lra|].
  nra.
Qed.

(** X19. Where a layer comes out on the canvas.  In the flat sketches the
    layer L is the outline moved by (-L, +L), drawn twice.  In the
    perspective sketch it is the outline scaled by 0.99^L about the centre
    of the canvas, drawn twice, so layer 0 is the outline in place; and the
    strokes come out BLACK_W and WHITE_W wide on every layer, the weights
    being divided by the scale. *)
Theorem layer_placement (arcs : list ArcSeg) (frameCount layer : Z) :
  let k := Perspective.DEPTH_SCALE ^ Z.to_nat layer in
  let flat := map (fun s => (cx s - IZR layer, cy s + IZR layer, 2 * r s))
                  arcs in
  let deep := map (fun s => (CANVAS_W / 2 + k * (cx s - CANVAS_W / 2),
                             CANVAS_H / 2 + k * (cy s - CANVAS_H / 2),
                             k * (2 * r s))) arcs in
  Shape.screenArcs (Walk.drawLayer arcs layer) 0 0 1 = flat ++ flat /\
  Shape.screenArcs
    (Pulse.drawLayer arcs (Pulse.activeLayer frameCount) layer) 0 0 1
  = flat ++ flat /\
  Shape.screenArcs (Perspective.drawLayer arcs frameCount layer) 0 0 1
  = deep ++ deep /\
  0 < k <= 1 /\
  Shape.screenWeights (Perspective.drawLayer arcs frameCount layer) 1
  = [Perspective.BLACK_W; Perspective.WHITE_W].
Proof.
  cbv zeta.
  pose proof (depth_scale_pos (Z.to_nat layer)) as Hk.
  set (k := Perspective.DEPTH_SCALE ^ Z.to_nat layer) in *.
  assert (Hflat : forall tl,
    Shape.screenArcs (map drawArcSegment arcs ++ tl)
      (0 + 1 * (IZR layer * Walk.STEP_X)) (0 + 1 * (IZR layer * Walk.STEP_Y)) 1
    = map (fun s => (cx s - IZR layer, cy s + IZR layer, 2 * r s)) arcs
      ++ Shape.screenArcs tl
           (0 + 1 * (IZR layer * Walk.STEP_X))
           (0 + 1 * (IZR layer * Walk.STEP_Y)) 1).
  { intros tl. rewrite (screenArcs_arcs _ _ _ flat_drawArc_eq).
    f_equal. apply map_ext. intros s. unfold Walk.STEP_X, Walk.STEP_Y.
    f_equal; [f_equal|]; ring. }
  assert (Hdeep : forall tl,
    Shape.screenArcs (map Perspective.drawArcSegment arcs ++ tl)
      (0 + 1 * (Perspective.width / 2)) (0 + 1 * (Perspective.height / 2))
      (1 * k)
    = map (fun s => (CANVAS_W / 2 + k * (cx s - CANVAS_W / 2),
                     CANVAS_H / 2 + k * (cy s - CANVAS_H / 2),
                     k * (2 * r s))) arcs
      ++ Shape.screenArcs tl
           (0 + 1 * (Perspective.width / 2))
           (0 + 1 * (Perspective.height / 2)) (1 * k)).
  { intros tl. rewrite (screenArcs_arcs _ _ _ perspective_drawArc_eq).
    f_equal. apply map_ext. intros s.
    unfold Perspective.width, Perspective.height.
    f_equal; [f_equal|]; ring. }
  split; [|split; [|split; [|split]]].
  - unfold Walk.drawLayer. cbn [app Shape.screenArcs].
    rewrite Hflat. cbn [app Shape.screenArcs]. rewrite Hflat.
    cbn [Shape.screenArcs]. rewrite app_nil_r. reflexivity.
  - unfold Pulse.drawLayer. cbn [app Shape.screenArcs].
    rewrite Hflat. cbn [app].
    destruct (layer =? Pulse.activeLayer frameCount)%Z;
      cbn [Shape.screenArcs]; rewrite Hflat; cbn [Shape.screenArcs];
      rewrite app_nil_r; reflexivity.
  - unfold Perspective.drawLayer. fold k. cbn [app Shape.screenArcs].
    rewrite Hdeep. cbn [app].
    destruct (Perspective.turquoise frameCount layer);
      cbn [Shape.screenArcs]; rewrite Hdeep; cbn [Shape.screenArcs];
      rewrite app_nil_r; reflexivity.
  - exact Hk.
  - unfold Perspective.drawLayer. fold k. cbn [app Shape.screenWeights].
    rewrite (screenWeights_arcs _ _ _ perspective_drawArc_eq). cbn [app].
    assert (Hb : 1 * k * (Perspective.BLACK_W / k) = Perspective.BLACK_W)
      by (field; lra).
    assert (Hw : 1 * k * (Perspective.WHITE_W / k) = Perspective.WHITE_W)
      by (field; lra).
    destruct (Perspective.turquoise frameCount layer);
      cbn [Shape.screenWeights];
      rewrite (screenWeights_arcs _ _ _ perspective_drawArc_eq);
      cbn [Shape.screenWeights]; rewrite Hb, Hw; reflexivity.
Qed.

(** ** The highlights *)

Lemma activeLayer_closed (frameCount : Z) :
  (0 <= frameCount)%Z -> Pulse.activeLayer frameCount = (frameCount mod 220)%Z.
Proof.
  intros H. unfold Pulse.activeLayer.
  rewrite floor_div by (unfold Pulse.TICK; lia).
  unfold Pulse.TICK. rewrite Z.div_1_r.
  apply Z.rem_mod_nonneg; [exact H | unfold LAYERS; lia].
Qed.

Lemma pulse_outline (arcs : list ArcSeg) (active layer : Z) :
  Spec.outlineStroke (Pulse.drawLayer arcs active layer)
  = Some (if (layer =? active)%Z then Spec.turquoiseColor
          else grayAlpha 255
                 (lerp 255 0 (IZR layer / IZR (LAYERS - 1)) - 25)).
Proof.
  assert (Hf : forall s, Spec.isArc (drawArcSegment s) = true).
  { intros s. unfold drawArcSegment. destruct (arcAngles s). reflexivity. }
  unfold Spec.outlineStroke, Pulse.drawLayer.
  cbn [app fold_left].
  rewrite outlineStroke_arcs by exact Hf.
  cbn [app].
  destruct (layer =? active)%Z; cbn [fold_left];
    rewrite outlineStroke_arcs by exact Hf; reflexivity.
Qed.

Lemma walk_outline (arcs : list ArcSeg) (layer : Z) :
  Spec.outlineStroke (Walk.drawLayer arcs layer)
  = Some (grayAlpha 255 (lerp 255 0 (IZR layer / IZR (LAYERS - 1)))).
Proof.
  assert (Hf : forall s, Spec.isArc (drawArcSegment s) = true).
  { intros s. unfold drawArcSegment. destruct (arcAngles s). reflexivity. }
  unfold Spec.outlineStroke, Walk.drawLayer.
  cbn [app fold_left].
  rewrite outlineStroke_arcs by exact Hf.
  cbn [app fold_left].
  rewrite outlineStroke_arcs by exact Hf. reflexivity.
Qed.

(** The fade, in closed form. *)
Lemma fade_value (layer : Z) :
  lerp 255 0 (IZR layer / IZR (LAYERS - 1)) = 255 - 255 * IZR layer / 219.
Proof. unfold lerp. change (IZR (LAYERS - 1)) with 219. field. Qed.

(** X20. The pulse sketch highlights exactly one layer on each frame, the
    layer [frameCount mod 220]: the highlight moves one layer further from
    the viewer with each frame and starts again at layer 0 after layer
    219. *)
Theorem pulse_one_layer (arcs : list ArcSeg) (frameCount : Z) :
  (0 <= frameCount)%Z ->
  Pulse.activeLayer frameCount = (frameCount mod 220)%Z /\
  (0 <= Pulse.activeLayer frameCount < LAYERS)%Z /\
  (forall layer,
     Spec.outlineStroke
       (Pulse.drawLayer arcs (Pulse.activeLayer frameCount) layer)
     = Some Spec.turquoiseColor
     <-> layer = (frameCount mod 220)%Z) /\
  length (filter (fun layer => (layer =? Pulse.activeLayer frameCount)%Z)
                 (layersFrom (Z.to_nat LAYERS))) = 1%nat /\
  Pulse.activeLayer (frameCount + 1)
  = ((Pulse.activeLayer frameCount + 1) mod 220)%Z /\
  Pulse.activeLayer (frameCount + 220) = Pulse.activeLayer frameCount.
Proof.
  intros H. rewrite !activeLayer_closed by lia.
  pose proof (Z.mod_pos_bound frameCount 220 ltac:(lia)) as Hm.
  split; [reflexivity|]. split; [unfold LAYERS; lia|].
  split; [|split; [|split]].
  - intros layer. rewrite pulse_outline.
    destruct (layer =? frameCount mod 220)%Z eqn:E.
    + apply Z.eqb_eq in E. split; [intros _; exact E | reflexivity].
    + apply Z.eqb_neq in E. split; [discriminate | contradiction].
  - rewrite layers_value.
    set (a := (frameCount mod 220)%Z) in *.
    assert (Hcount : forallb
      (fun a => Nat.eqb (length (filter (fun layer => (layer =? a)%Z)
                                        (layersFrom 220))) 1)
      (layersFrom 220) = true) by (vm_compute; reflexivity).
    rewrite forallb_forall in Hcount.
    apply Nat.eqb_eq. apply Hcount. apply layersFrom_In. lia.
  - rewrite Zplus_mod_idemp_l. reflexivity.
  - replace (frameCount + 220)%Z with (frameCount + 1 * 220)%Z by lia.
    apply Z.mod_add. lia.
Qed.

Lemma pulse_one_layer_witness :
  Pulse.activeLayer 221 = (221 mod 220)%Z /\
  (0 <= Pulse.activeLayer 221 < LAYERS)%Z.
Proof.
  destruct (pulse_one_layer [] 221 ltac:(lia)) as [H1 [H2 _]].
  split; [exact H1 | exact H2].
Defined.

(** The third test of the highlight, [diff / GAP < pulses], never decides:
    for a layer that is not negative the first two imply it. *)
Lemma turquoise_two_tests (frameCount layer : Z) :
  (0 <= frameCount)%Z -> (0 <= layer)%Z ->
  Perspective.turquoise frameCount layer
  = ((0 <=? Perspective.leader frameCount - layer)%Z
     && ((Perspective.leader frameCount - layer) mod 6 =? 0)%Z).
Proof.
  intros Hf Hl.
  pose proof (leader_range frameCount Hf) as Hld. unfold LAYERS in Hld.
  pose proof (turquoise_spec frameCount layer) as Hs.
  set (ld := Perspective.leader frameCount) in *.
  assert (HG : Perspective.GAP = 6%Z) by reflexivity. rewrite HG in Hs.
  destruct ((0 <=? ld - layer)%Z && ((ld - layer) mod 6 =? 0)%Z) eqn:E.
  - apply Hs. apply andb_true_iff in E. destruct E as [E1 E2].
    apply Z.leb_le in E1. apply Z.eqb_eq in E2.
    exists ((ld - layer) / 6)%Z.
    pose proof (Z.div_mod (ld - layer) 6 ltac:(lia)) as Hdm.
    split; [apply Z.div_pos; lia|]. split; [lia|].
    assert (Hle : ((ld - layer) / 6 <= ld / 6)%Z)
      by (apply Z.div_le_mono; lia).
    lia.
  - destruct (Perspective.turquoise frameCount layer) eqn:Et; [|reflexivity].
    destruct (proj1 Hs eq_refl) as [k [Hk [He Hlt]]].
    apply andb_false_iff in E. destruct E as [E|E].
    + apply Z.leb_gt in E. lia.
    + apply Z.eqb_neq in E. exfalso. apply E. rewrite He.
      apply Z.mod_mul. lia.
Qed.

(** X21. The perspective sketch highlights, on each frame, as many layers
    as there are pulses: the layers leader, leader - 6, leader - 12, ...
    down to the last that is not negative, floor(leader / 6) + 1 of them,
    between 1 and 37.  The test [diff / GAP < pulses] of the code never
    decides: the two tests before it imply it. *)
Theorem pulse_count (frameCount : Z) :
  (0 <= frameCount)%Z ->
  length (filter (Perspective.turquoise frameCount)
                 (layersFrom (Z.to_nat LAYERS)))
  = Z.to_nat (Perspective.pulses frameCount) /\
  (1 <= Perspective.pulses frameCount <= 37)%Z /\
  (forall layer,
     (0 <= layer)%Z ->
     Perspective.turquoise frameCount layer
     = ((0 <=? Perspective.leader frameCount - layer)%Z
        && (Z.rem (Perspective.leader frameCount - layer) Perspective.GAP
            =? 0)%Z)).
Proof.
  intros Hf.
  pose proof (leader_range frameCount Hf) as Hld. unfold LAYERS in Hld.
  rewrite pulses_closed.
  set (ld := Perspective.leader frameCount) in *.
  assert (HG : Perspective.GAP = 6%Z) by reflexivity. rewrite HG.
  split; [|split].
  - rewrite layers_value.
    rewrite (filter_ext_in (Perspective.turquoise frameCount)
               (fun layer => (0 <=? ld - layer)%Z
                             && ((ld - layer) mod 6 =? 0)%Z)).
    2:{ intros layer Hin. apply layersFrom_In in Hin.
        apply turquoise_two_tests; lia. }
    assert (Hcount : forallb
      (fun l => Nat.eqb
         (length (filter (fun layer => (0 <=? l - layer)%Z
                                       && ((l - layer) mod 6 =? 0)%Z)
                         (layersFrom 220)))
         (Z.to_nat (l / 6 + 1)))
      (layersFrom 220) = true) by (vm_compute; reflexivity).
    rewrite forallb_forall in Hcount.
    apply Nat.eqb_eq. apply (Hcount ld). apply layersFrom_In. lia.
  - assert (0 <= ld / 6)%Z by (apply Z.div_pos; lia).
    assert (ld / 6 <= 219 / 6)%Z by (apply Z.div_le_mono; lia).
    change (219 / 6)%Z with 36%Z in *. lia.
  - intros layer Hl. rewrite (turquoise_two_tests frameCount layer Hf Hl).
    fold ld.
    destruct (Z_le_gt_dec 0 (ld - layer)) as [Hd|Hd].
    + rewrite Z.rem_mod_nonneg by lia. reflexivity.
    + replace (0 <=? ld - layer)%Z with false
        by (symmetry; apply Z.leb_gt; lia).
      reflexivity.
Qed.

Lemma pulse_count_witness :
  length (filter (Perspective.turquoise 20) (layersFrom (Z.to_nat LAYERS)))
  = Z.to_nat (Perspective.pulses 20) /\
  (1 <= Perspective.pulses 20 <= 37)%Z.
Proof.
  destruct (pulse_count 20 ltac:(lia)) as [H1 [H2 _]].
  split; [exact H1 | exact H2].
Defined.

(** X22. The fade of the outline.  In the first sketch the white outline
    of layer L is stroked with the alpha 255 - 255 L / 219, from 255 on the
    nearest layer down to 0 on the farthest.  In the two sketches with
    highlights the alpha is 25 less, which is below 0 exactly on the 22
    layers from 198 on. *)
Theorem outline_fade (arcs : list ArcSeg) (frameCount layer : Z) :
  (0 <= layer < LAYERS)%Z ->
  let alpha := 255 - 255 * IZR layer / 219 in
  Spec.outlineStroke (Walk.drawLayer arcs layer)
  = Some (grayAlpha 255 alpha) /\
  0 <= alpha <= 255 /\
  (layer = 0%Z -> alpha = 255) /\ (layer = 219%Z -> alpha = 0) /\
  (layer <> Pulse.activeLayer frameCount ->
   Spec.outlineStroke
     (Pulse.drawLayer arcs (Pulse.activeLayer frameCount) layer)
   = Some (grayAlpha 255 (alpha - 25))) /\
  (Perspective.turquoise frameCount layer = false ->
   Spec.outlineStroke (Perspective.drawLayer arcs frameCount layer)
   = Some (grayAlpha 255 (alpha - 25))) /\
  (alpha - 25 < 0 <-> (198 <= layer)%Z).
Proof.
  intros Hl. cbv zeta. unfold LAYERS in Hl.
  assert (H0 : 0 <= IZR layer) by (apply IZR_le; lia).
  assert (H219 : IZR layer <= 219) by (apply IZR_le; lia).
  split; [rewrite walk_outline, fade_value; reflexivity|].
  split; [lra|].
  split; [intros ->; lra|]. split; [intros ->; lra|].
  split; [|split].
  - intros Hn. rewrite pulse_outline, fade_value.
    replace (layer =? Pulse.activeLayer frameCount)%Z with false
      by (symmetry; apply Z.eqb_neq; exact Hn).
    reflexivity.
  - intros Hn. rewrite perspective_outline, Hn, fade_value. reflexivity.
  - split.
    + intros Ha. assert (Hlt : IZR 197 < IZR layer) by lra.
      apply lt_IZR in Hlt. lia.
    + intros Hge. apply IZR_le in Hge. lra.
Qed.

Lemma outline_fade_witness :
  Spec.outlineStroke (Walk.drawLayer [] 219)
  = Some (grayAlpha 255 (255 - 255 * IZR 219 / 219)) /\
  0 <= 255 - 255 * IZR 219 / 219 <= 255.
Proof.
  destruct (outline_fade [] 0 219) as [H1 [H2 _]].
  - unfold LAYERS. lia.
  - split; [exact H1 | exact H2].
Defined.

(** ** A whole recording *)

Lemma rec_frames_value : Capture.REC_FRAMES = 600%Z.
Proof. reflexivity. Qed.

Lemma saves_app (a b : nat) (s : Capture.Recorder) :
  Capture.saves (a + b) s
  = match Capture.saves a s with
    | Some s' => Capture.saves b s'
    | None => None
    end.
Proof.
  revert s. induction a as [|a IH]; intros s; [reflexivity|].
  cbn [Nat.add Capture.saves].
  destruct (Capture.saveGifFrame s); [apply IH | reflexivity].
Qed.

Lemma saves_idle (n : nat) (s : Capture.Recorder) :
  Capture.recPending s = false -> Capture.saves n s = Some s.
Proof.
  intros H. induction n as [|n IH]; [reflexivity|].
  cbn [Capture.saves]. unfold Capture.saveGifFrame. rewrite H.
  cbn [negb]. exact IH.
Qed.

Lemma frames_stored_snoc (j : nat) :
  map Z.of_nat (seq 0 j) ++ [Z.of_nat j] = map Z.of_nat (seq 0 (S j)).
Proof. rewrite seq_S, map_app. reflexivity. Qed.

(** A frame stored while the recording has more to come. *)
Lemma save_inner (w : bool) (j : nat) (old : list (list Z)) :
  (Z.of_nat (S j) < Capture.REC_FRAMES)%Z ->
  Capture.saveGifFrame
    (Capture.mkRec w true (Z.of_nat j) (Some (map Z.of_nat (seq 0 j))) old)
  = Some (Capture.mkRec w true (Z.of_nat (S j))
            (Some (map Z.of_nat (seq 0 (S j)))) old).
Proof.
  intros H. unfold Capture.saveGifFrame.
  cbn [Capture.recPending negb Capture.folder Capture.grabCount
       Capture.window_recPending Capture.archives].
  replace (Capture.REC_FRAMES <=? Z.of_nat j + 1)%Z with false
    by (symmetry; apply Z.leb_gt; lia).
  rewrite frames_stored_snoc. do 3 f_equal. lia.
Qed.

(** The frame that completes the recording. *)
Lemma save_last (w : bool) (j : nat) (old : list (list Z)) :
  Z.of_nat (S j) = Capture.REC_FRAMES ->
  Capture.saveGifFrame
    (Capture.mkRec w true (Z.of_nat j) (Some (map Z.of_nat (seq 0 j))) old)
  = Some (Capture.mkRec w false (Z.of_nat (S j))
            (Some (map Z.of_nat (seq 0 (S j))))
            (old ++ [map Z.of_nat (seq 0 (S j))])).
Proof.
  intros H. unfold Capture.saveGifFrame.
  cbn [Capture.recPending negb Capture.folder Capture.grabCount
       Capture.window_recPending Capture.archives].
  replace (Capture.REC_FRAMES <=? Z.of_nat j + 1)%Z with true
    by (symmetry; apply Z.leb_le; lia).
  unfold Capture.finishCapture.
  cbn [Capture.recPending negb Capture.folder Capture.grabCount
       Capture.window_recPending Capture.archives].
  rewrite frames_stored_snoc. do 3 f_equal. lia.
Qed.

Lemma saves_run (w : bool) (old : list (list Z)) (k : nat) :
  forall j,
    (Z.of_nat (j + k) < Capture.REC_FRAMES)%Z ->
    Capture.saves k
      (Capture.mkRec w true (Z.of_nat j) (Some (map Z.of_nat (seq 0 j))) old)
    = Some (Capture.mkRec w true (Z.of_nat (j + k))
              (Some (map Z.of_nat (seq 0 (j + k)))) old).
Proof.
  induction k as [|k IH]; intros j H.
  - rewrite Nat.add_0_r. reflexivity.
  - cbn [Capture.saves]. rewrite save_inner by lia.
    rewrite IH by lia. replace (S j + k)%nat with (j + S k)%nat by lia.
    reflexivity.
Qed.

(** X23. A whole recording, from any state in which none is running.
    Started and then called once for each frame, [saveGifFrame] stores the
    frames numbered 0, 1, ... in that order; while fewer than [REC_FRAMES]
    are stored the recording stays open and nothing is handed over; the
    600th frame closes it and hands over one archive with exactly the
    frames 0 to 599, after which further calls store nothing.  The archives
    of earlier recordings are kept. *)
Theorem capture_run (s : Capture.Recorder) :
  Capture.recPending s = false ->
  (forall k,
     (Z.of_nat k < Capture.REC_FRAMES)%Z ->
     Capture.saves k (Capture.startCapture s)
     = Some (Capture.mkRec (Capture.window_recPending s) true (Z.of_nat k)
               (Some (map Z.of_nat (seq 0 k))) (Capture.archives s))) /\
  (forall extra,
     Capture.saves (Z.to_nat Capture.REC_FRAMES + extra)
                   (Capture.startCapture s)
     = Some (Capture.mkRec (Capture.window_recPending s) false
               Capture.REC_FRAMES
               (Some (map Z.of_nat (seq 0 (Z.to_nat Capture.REC_FRAMES))))
               (Capture.archives s
                ++ [map Z.of_nat (seq 0 (Z.to_nat Capture.REC_FRAMES))]))).
Proof.
  intros Hidle.
  assert (Hstart : Capture.startCapture s
                   = Capture.mkRec (Capture.window_recPending s) true
                       (Z.of_nat 0) (Some (map Z.of_nat (seq 0 0)))
                       (Capture.archives s)).
  { unfold Capture.startCapture. rewrite Hidle. reflexivity. }
  rewrite Hstart. split.
  - intros k Hk. apply (saves_run _ _ k 0%nat). exact Hk.
  - intros extra.
    assert (H600 : Z.to_nat Capture.REC_FRAMES = (599 + 1)%nat)
      by reflexivity.
    rewrite H600, <- Nat.add_assoc, saves_app.
    rewrite (saves_run _ _ 599 0%nat) by (rewrite rec_frames_value; lia).
    cbn [Nat.add Capture.saves].
    rewrite save_last by (rewrite rec_frames_value; lia).
    rewrite saves_idle by reflexivity.
    rewrite rec_frames_value. reflexivity.
Qed.

Lemma capture_run_witness :
  Capture.saves (Z.to_nat Capture.REC_FRAMES + 0)
                (Capture.startCapture Capture.loaded)
  = Some (Capture.mkRec false false Capture.REC_FRAMES
            (Some (map Z.of_nat (seq 0 (Z.to_nat Capture.REC_FRAMES))))
            ([] ++ [map Z.of_nat (seq 0 (Z.to_nat Capture.REC_FRAMES))])).
Proof.
  exact (proj2 (capture_run Capture.loaded eq_refl) 0%nat).
Defined.

(** ** The names the recorder gives *)

Lemma value_decimal (n : Z) :
  Shape.value (Capture.decimal n) = Some (Z.to_N n).
Proof.
  unfold Shape.value, Capture.decimal.
  rewrite DecimalString.NilEmpty.usu. cbn [option_map].
  rewrite DecimalN.Unsigned.of_to. reflexivity.
Qed.

(** Leading zeros do not change the number. *)
Lemma value_zeros (k : nat) (s : String.string) :
  Shape.value (String.append (Capture.zeros k) s) = Shape.value s.
Proof.
  induction k as [|k IH]; [reflexivity|].
  cbn [Capture.zeros String.append]. rewrite <- IH.
  unfold Shape.value. cbn [DecimalString.NilEmpty.uint_of_string].
  destruct (DecimalString.NilEmpty.uint_of_string
              (String.append (Capture.zeros k) s)); reflexivity.
Qed.

Lemma padStart_inj (w : nat) (a b : Z) :
  (0 <= a)%Z -> (0 <= b)%Z ->
  Capture.padStart w (Capture.decimal a)
  = Capture.padStart w (Capture.decimal b) ->
  a = b.
Proof.
  intros Ha Hb H. apply (f_equal Shape.value) in H.
  unfold Capture.padStart in H. rewrite !value_zeros, !value_decimal in H.
  inversion H. lia.
Qed.

Lemma length_append (s t : String.string) :
  String.length (String.append s t)
  = (String.length s + String.length t)%nat.
Proof.
  induction s as [|c s IH]; [reflexivity|].
  cbn [String.append String.length]. rewrite IH. reflexivity.
Qed.

Lemma append_inj (s s' t t' : String.string) :
  String.length s = String.length s' ->
  String.append s t = String.append s' t' -> s = s' /\ t = t'.
Proof.
  revert s'. induction s as [|c s IH]; intros [|c' s'] Hl H;
    try discriminate.
  - split; [reflexivity | exact H].
  - cbn [String.append] in H. inversion H. cbn [String.length] in Hl.
    destruct (IH s' ltac:(lia) H2) as [E1 E2]. subst. split; reflexivity.
Qed.

Lemma length_zeros (k : nat) : String.length (Capture.zeros k) = k.
Proof.
  induction k as [|k IH]; [reflexivity|]. cbn. rewrite IH. reflexivity.
Qed.

Lemma length_padStart (w : nat) (s : String.string) :
  String.length (Capture.padStart w s) = Nat.max w (String.length s).
Proof.
  unfold Capture.padStart. rewrite length_append, length_zeros. lia.
Qed.

Lemma upto_In (n : nat) :
  forall z k, In k (Shape.upto n z) <-> (z <= k < z + Z.of_nat n)%Z.
Proof.
  induction n as [|n IH]; intros z k; cbn [Shape.upto In].
  - lia.
  - rewrite IH. lia.
Qed.

(** The number of digits of the numbers below 10000. *)
Lemma decimal_length (n : Z) :
  (0 <= n < 10000)%Z ->
  String.length (Capture.decimal n) = Shape.digits n.
Proof.
  intros H.
  assert (Hc : forallb
    (fun k => Nat.eqb (String.length (Capture.decimal k)) (Shape.digits k))
    (Shape.upto (100 * 100) 0) = true) by (vm_compute; reflexivity).
  rewrite forallb_forall in Hc.
  apply Nat.eqb_eq. apply Hc. apply upto_In. lia.
Qed.

Lemma frameName_split (n : Z) :
  Capture.frameName n
  = String.append Capture.framePrefix
      (String.append (Capture.padStart 4 (Capture.decimal n))
                     Capture.frameSuffix).
Proof. reflexivity. Qed.

Lemma ltb_trans (s t u : String.string) :
  String.ltb s t = true -> String.ltb t u = true -> String.ltb s u = true.
Proof.
  unfold String.ltb. intros H1 H2.
  destruct (String.compare s t) eqn:E1; try discriminate.
  destruct (String.compare t u) eqn:E2; try discriminate.
  apply OrderedTypeEx.String_as_OT.cmp_lt in E1, E2.
  pose proof (OrderedTypeEx.String_as_OT.lt_trans _ _ _ E1 E2) as E3.
  apply OrderedTypeEx.String_as_OT.cmp_lt in E3.
  unfold OrderedTypeEx.String_as_OT.cmp in E3. rewrite E3. reflexivity.
Qed.

(** Each name comes before the next. *)
Lemma frameName_next (k : Z) :
  (0 <= k < 9999)%Z ->
  String.ltb (Capture.frameName k) (Capture.frameName (k + 1)) = true.
Proof.
  intros H.
  assert (Hc : forallb
    (fun k => String.ltb (Capture.frameName k) (Capture.frameName (k + 1)))
    (Shape.upto (100 * 100 - 1) 0) = true) by (vm_compute; reflexivity).
  rewrite forallb_forall in Hc. apply Hc. apply upto_In. lia.
Qed.

Lemma frameName_order (n : nat) :
  forall a,
    (0 <= a)%Z -> (a + 1 + Z.of_nat n < 10000)%Z ->
    String.ltb (Capture.frameName a)
               (Capture.frameName (a + 1 + Z.of_nat n)) = true.
Proof.
  induction n as [|n IH]; intros a Ha Hb.
  - replace (a + 1 + Z.of_nat 0)%Z with (a + 1)%Z by lia.
    apply frameName_next. lia.
  - apply ltb_trans with (Capture.frameName (a + 1 + Z.of_nat n)).
    + apply IH; lia.
    + replace (a + 1 + Z.of_nat (S n))%Z
        with (a + 1 + Z.of_nat n + 1)%Z by lia.
      apply frameName_next. lia.
Qed.

(** X24. The frames of a recording get distinct names: the name
    determines the number, whatever the number.  Below 10000 frames, so
    for the 600 of a recording, every name has 14 characters and the
    names come in the order of the frames. *)
Theorem frame_names (a b : Z) :
  (0 <= a)%Z -> (0 <= b)%Z ->
  (Capture.frameName a = Capture.frameName b -> a = b) /\
  ((a < 10000)%Z -> String.length (Capture.frameName a) = 14%nat) /\
  ((a < b)%Z -> (b < 10000)%Z ->
   String.ltb (Capture.frameName a) (Capture.frameName b) = true) /\
  (Capture.REC_FRAMES < 10000)%Z.
Proof.
  intros Ha Hb. split; [|split; [|split]].
  - intros H. rewrite !frameName_split in H.
    apply append_inj in H; [|reflexivity]. destruct H as [_ H].
    pose proof (f_equal String.length H) as Hl.
    rewrite !length_append in Hl.
    apply append_inj in H; [|lia]. destruct H as [H _].
    apply (padStart_inj 4); assumption.
  - intros Hlt.
    rewrite frameName_split, !length_append, length_padStart.
    rewrite decimal_length by lia.
    change (String.length Capture.framePrefix) with 6%nat.
    change (String.length Capture.frameSuffix) with 4%nat.
    unfold Shape.digits.
    destruct (a <? 10)%Z; [lia|]. destruct (a <? 100)%Z; [lia|].
    destruct (a <? 1000)%Z; lia.
  - intros Hab Hlt.
    replace b with (a + 1 + Z.of_nat (Z.to_nat (b - a - 1)))%Z by lia.
    apply frameName_order; lia.
  - rewrite rec_frames_value. lia.
Qed.

Lemma frame_names_witness :
  String.length (Capture.frameName 7) = 14%nat /\
  String.ltb (Capture.frameName 7) (Capture.frameName 599) = true.
Proof.
  destruct (frame_names 7 599 ltac:(lia) ltac:(lia)) as [_ [Hl [Hs _]]].
  split; [apply Hl; lia | apply Hs; lia].
Defined.

Lemma pad_length (n : Z) :
  (0 <= n < 100)%Z -> String.length (Capture.pad n) = 2%nat.
Proof.
  intros H. unfold Capture.pad. rewrite length_padStart.
  rewrite decimal_length by lia. unfold Shape.digits.
  destruct (n <? 10)%Z eqn:E1; [lia|].
  replace (n <? 100)%Z with true by (symmetry; apply Z.ltb_lt; lia). lia.
Qed.

Lemma year_length (n : Z) :
  (1000 <= n <= 9999)%Z -> String.length (Capture.decimal n) = 4%nat.
Proof.
  intros H. rewrite decimal_length by lia. unfold Shape.digits.
  replace (n <? 10)%Z with false by (symmetry; apply Z.ltb_ge; lia).
  replace (n <? 100)%Z with false by (symmetry; apply Z.ltb_ge; lia).
  replace (n <? 1000)%Z with false by (symmetry; apply Z.ltb_ge; lia).
  reflexivity.
Qed.

(** X25. The folder of a recording is named after the second it was
    started in.  For a date with a four-digit year the stamp has 19
    characters, each field in its own fixed place, so two dates get the
    same name only if they agree in every field; with the prefix the script
    passes, the name is the prefix, an underscore and the stamp. *)
Theorem timeStamp_names (prefix : String.string) (d d' : Capture.Date) :
  Shape.validDate d -> Shape.validDate d' ->
  String.length (Capture.timeStamp String.EmptyString d) = 19%nat /\
  (Capture.timeStamp prefix d = Capture.timeStamp prefix d' -> d = d') /\
  (prefix <> String.EmptyString ->
   String.length (Capture.timeStamp prefix d)
   = (String.length prefix + 20)%nat).
Proof.
  intros [Hy [Hm [Hd [Hh [Hi Hs]]]]] [Hy' [Hm' [Hd' [Hh' [Hi' Hs']]]]].
  assert (Hlen : forall e, Shape.validDate e ->
                           String.length (Capture.stamp e) = 19%nat).
  { intros e [Ey [Em [Ed [Eh [Ei Es]]]]].
    unfold Capture.stamp. rewrite !length_append.
    rewrite year_length by lia. rewrite !pad_length by lia. reflexivity. }
  assert (Hinj : Capture.stamp d = Capture.stamp d' -> d = d').
  { unfold Capture.stamp. intros H.
    apply append_inj in H; [|rewrite !year_length by lia; reflexivity].
    destruct H as [Ey H].
    apply append_inj in H; [|reflexivity]. destruct H as [_ H].
    apply append_inj in H; [|rewrite !pad_length by lia; reflexivity].
    destruct H as [Em H].
    apply append_inj in H; [|reflexivity]. destruct H as [_ H].
    apply append_inj in H; [|rewrite !pad_length by lia; reflexivity].
    destruct H as [Ed H].
    apply append_inj in H; [|reflexivity]. destruct H as [_ H].
    apply append_inj in H; [|rewrite !pad_length by lia; reflexivity].
    destruct H as [Eh H].
    apply append_inj in H; [|reflexivity]. destruct H as [_ H].
    apply append_inj in H; [|rewrite !pad_length by lia; reflexivity].
    destruct H as [Ei H].
    apply append_inj in H; [|reflexivity]. destruct H as [_ Es].
    apply (padStart_inj 0) in Ey; [|lia|lia].
    apply (padStart_inj 2) in Em; [|lia|lia].
    apply (padStart_inj 2) in Ed; [|lia|lia].
    apply (padStart_inj 2) in Eh; [|lia|lia].
    apply (padStart_inj 2) in Ei; [|lia|lia].
    apply (padStart_inj 2) in Es; [|lia|lia].
    destruct d, d'. cbn [Capture.fullYear Capture.month Capture.date
                         Capture.hours Capture.minutes Capture.seconds] in *.
    f_equal; lia. }
  split; [apply Hlen; repeat split; lia|]. split.
  - destruct prefix as [|c p]; [exact Hinj|].
    unfold Capture.timeStamp. intros H.
    apply append_inj in H; [|reflexivity]. destruct H as [_ H].
    apply append_inj in H; [|reflexivity]. destruct H as [_ H].
    apply Hinj. exact H.
  - intros Hp. destruct prefix as [|c p]; [contradiction|].
    unfold Capture.timeStamp.
    rewrite !length_append, Hlen by (repeat split; lia).
    change (String.length Capture.underscore) with 1%nat. lia.
Qed.

Lemma timeStamp_names_witness :
  String.length
    (Capture.timeStamp String.EmptyString (Capture.mkDate 2025 4 10 9 5 0))
  = 19%nat.
Proof.
  refine (proj1 (timeStamp_names String.EmptyString
                   (Capture.mkDate 2025 4 10 9 5 0)
                   (Capture.mkDate 2025 4 10 9 5 0) _ _));
    unfold Shape.validDate; cbn; lia.
Defined.

(** ** The sketches as wholes *)

(** X26. In the two flat sketches the outline [setup] builds is unbroken:
    every arc ends where the next one starts.  In the perspective sketch
    the same holds among the arcs of the fitted chain, the first 299 of
    the list. *)
Theorem setup_outline_unbroken (rnd : nat -> R) (i : nat) :
  Spec.unitDraws rnd ->
  (exists cs arcs,
     Walk.setup rnd i = Some (cs, arcs) /\
     forall k s t,
       nth_error arcs k = Some s -> nth_error arcs (S k) = Some t ->
       exists v, a1 t = Some v /\
                 Shape.pointAt s (a2 s) = Shape.pointAt t v) /\
  (exists all arcs,
     Perspective.setup rnd i = Some (all, arcs) /\
     forall k s t,
       (S (S k) < 300)%nat ->
       nth_error arcs k = Some s -> nth_error arcs (S k) = Some t ->
       exists v, a1 t = Some v /\
                 Shape.pointAt s (a2 s) = Shape.pointAt t v).
Proof.
  intros Hu. split.
  - destruct (walk_result rnd Hu i) as [st [Eg [Hinv _]]].
    destruct Hinv as [_ [_ [Htan _]]].
    exists (Walk.circles st), (buildArcList (Walk.circles st)).
    unfold Walk.setup, Walk.generateTouchingCircles. rewrite Eg.
    split; [reflexivity|].
    intros k s t Hs Ht.
    assert (Hlen : (S k < length (buildArcList (Walk.circles st)))%nat).
    { apply nth_error_Some. rewrite Ht. discriminate. }
    assert (Hcs : (2 <= length (Walk.circles st))%nat).
    { destruct (Walk.circles st) as [|c0 [|c1 tl]]; cbn [length];
        cbn in Hlen; lia. }
    rewrite buildArcList_length in Hlen by exact Hcs.
    apply (arcs_join_all (Walk.circles st) (length (Walk.circles st)))
      with (k := k); try assumption; try lia.
    intros j a b _ Ha Hb. apply (Htan j a b Ha Hb).
  - destruct (search_spec rnd Hu i)
      as [sd [j [st [_ [Es [_ [Hinv [Hlen _]]]]]]]].
    pose proof Hinv as [_ [[_ [Hrad [Htan _]]] [_ [[tl Hb] _]]]].
    unfold Perspective.setup, Perspective.generateTouchingCircles.
    rewrite Es, Hb. rewrite Hb in Htan, Hrad, Hlen.
    set (fitted := Perspective.fitRibbonToViewport (sd :: tl)) in *.
    assert (Hl : length fitted = 300%nat).
    { unfold fitted. rewrite fit_length.
      unfold Perspective.len, Perspective.MAX_CIRCLES in Hlen. lia. }
    assert (Hft : Spec.tangentChain fitted).
    { assert (Hr0 : 0 < radius sd).
      { unfold Spec.radiiInRange in Hrad. rewrite Forall_forall in Hrad.
        pose proof (Hrad sd (or_introl eq_refl)). unfold MIN_R in *. lra. }
      destruct (fitScale_range sd tl Hr0) as [Hk0 Hk1].
      unfold fitted, Perspective.fitRibbonToViewport.
      apply (similar_tangent (Perspective.fitScale sd tl) _ _ _ _
               ltac:(lra)).
      exact Htan. }
    destruct (fillVoids_spec rnd Perspective.FILL_ATTEMPTS fitted
                (Perspective.rng st)) as [fs [E _]].
    rewrite E. eexists. eexists. split; [reflexivity|].
    intros k s t Hk Hs Ht.
    apply (arcs_join_all (fitted ++ fs) 300) with (k := k);
      try assumption.
    + intros m a b Hm Ha Hb'.
      rewrite nth_error_app1 in Ha by lia.
      rewrite nth_error_app1 in Hb' by lia.
      apply (Hft m a b Ha Hb').
    + rewrite length_app. lia.
Qed.

Lemma setup_outline_unbroken_witness :
  exists cs arcs,
    Walk.setup (fun _ => 0) 0%nat = Some (cs, arcs) /\
    forall k s t,
      nth_error arcs k = Some s -> nth_error arcs (S k) = Some t ->
      exists v, a1 t = Some v /\
                Shape.pointAt s (a2 s) = Shape.pointAt t v.
Proof.
  refine (proj1 (setup_outline_unbroken (fun _ => 0) 0 _)).
  intros n. lra.
Defined.

(** X27. Through the hooks of the sketches the recorder never records:
    whatever keys are pressed and frames drawn, in whatever order, no frame
    is stored and no archive is handed over.  If the property
    [window.recPending] is false, the key R starts a recording but no frame
    reaches [saveGifFrame]; if it is true, the key R is ignored and
    [saveGifFrame] finds no recording running. *)
Theorem recorder_never_records (evs : list Capture.Event) :
  forall s,
    Capture.window_recPending s = false \/ Capture.recPending s = false ->
    exists s',
      Capture.session evs s = Some s' /\
      Capture.window_recPending s' = Capture.window_recPending s /\
      Capture.archives s' = Capture.archives s /\
      ((Capture.folder s' = Capture.folder s /\
        Capture.grabCount s' = Capture.grabCount s /\
        Capture.recPending s' = Capture.recPending s) \/
       (Capture.folder s' = Some [] /\ Capture.grabCount s' = 0%Z /\
        Capture.recPending s' = true)).
Proof.
  induction evs as [|ev evs IH]; intros s HJ.
  - exists s. split; [reflexivity|]. split; [reflexivity|].
    split; [reflexivity|]. left. repeat split.
  - destruct ev; cbn [Capture.session].
    + (* the key R *)
      unfold Capture.keyPressedR.
      destruct (Capture.window_recPending s) eqn:Ew; cbn [negb].
      * destruct (IH s) as [s' [E [Hw [Ha Hf]]]].
        { destruct HJ as [H|H]; [discriminate | right; exact H]. }
        exists s'. rewrite Ew in Hw. repeat (split; [assumption|]). exact Hf.
      * unfold Capture.startCapture.
        destruct (Capture.recPending s) eqn:Er.
        -- destruct (IH s) as [s' [E [Hw [Ha Hf]]]]; [left; exact Ew|].
           exists s'. rewrite Ew in Hw. rewrite Er in Hf.
           repeat (split; [assumption|]). exact Hf.
        -- destruct (IH (Capture.mkRec (Capture.window_recPending s) true 0
                           (Some []) (Capture.archives s)))
             as [s' [E [Hw [Ha Hf]]]].
           { left. cbn [Capture.window_recPending]. exact Ew. }
           cbn [Capture.window_recPending Capture.archives Capture.folder
                Capture.grabCount Capture.recPending] in Hw, Ha, Hf.
           exists s'. rewrite Ew in *. split; [exact E|].
           split; [exact Hw|]. split; [exact Ha|].
           right. destruct Hf as [Hf|Hf]; exact Hf.
    + (* a frame *)
      unfold Capture.drawHook.
      destruct (Capture.window_recPending s) eqn:Ew.
      * assert (Er : Capture.recPending s = false)
          by (destruct HJ as [H|H]; [discriminate | exact H]).
        unfold Capture.saveGifFrame. rewrite Er. cbn [negb].
        destruct (IH s) as [s' [E [Hw [Ha Hf]]]]; [right; exact Er|].
        exists s'. rewrite Ew in Hw. rewrite Er in Hf.
        repeat (split; [assumption|]). exact Hf.
      * destruct (IH s) as [s' [E [Hw [Ha Hf]]]]; [left; exact Ew|].
        exists s'. rewrite Ew in Hw. repeat (split; [assumption|]). exact Hf.
Qed.

Lemma recorder_never_records_witness :
  exists s',
    Capture.session [Capture.KeyR; Capture.Frame; Capture.Frame]
                    Capture.loaded = Some s' /\
    Capture.archives s' = [].
Proof.
  destruct (recorder_never_records
              [Capture.KeyR; Capture.Frame; Capture.Frame] Capture.loaded)
    as [s' [E [_ [Ha _]]]].
  - left. reflexivity.
  - exists s'. split; [exact E | exact Ha].
Defined.
